(** * 3d_hex_game: the shared hexagonal grid, its room store and its terrain noise

    A shallow embedding of the parts of the repository that own shared state:

    - [src/server/RoomManager.js]       the server's room table and membership index;
    - [src/public/js/HexUtils.js]       axial coordinates, [getHexesInRadius];
    - [src/public/js/NoiseGenerator.js] the seeded permutation table, [noise], [fractalNoise];
    - the client's [HexGrid.updateHexState] (the file that imports
      ['../utils/NoiseGenerator.js']), with [createGrid] and [handleScroll]
      of the same class;
    - [SocketManager.sendHexAction], and the [roomJoined] callback of
      [src/public/js/core/main.js] that applies the snapshot of a room;
    - of [HexUtils]: [roundAxial], [axialToPixel], [getObjectPosition],
      [pixelToAxial], [getHexId] and [parseHexId].

    Conventions of the embedding.

    - A JavaScript object used as a dictionary is a [gmap string _]; its keys are
      the object's own properties.  A lookup [o[k]] of a name that
      [Object.prototype] defines (["constructor"], ["toString"],
      ["__proto__"], ...: [inherited]) finds the inherited value when [o] has
      no own property [k]: [joinRoom] and the client's [updateHexState] say
      what the code does then.  The server's [updateHexState] is modelled for
      room codes that are not inherited and cell ids other than
      ["__proto__"] (an assignment to that name replaces the prototype and
      stores no cell); the theorems about it carry these conditions.  User
      ids are socket ids.  The order of the keys of an object is not
      modelled.
    - A JavaScript number is a [num]: a rational, or one of the special
      values [NaN], [+Infinity], [-Infinity].  A result whose exact value
      leaves the range of doubles is an infinity ([fin]); a result in range
      is kept exact.  Its rounding to a double is modelled where the code
      goes on with the integer part or the bits of the result: the sum in
      [mulberry32] ([roundDouble]) and the integer sums of
      [getHexesInRadius] ([nearestDouble]).  The sign of zero is not part of
      the model.
    - Integer-valued numbers that the code only counts with (loop indices, axial
      coordinates, table entries, 32-bit words) are [Z], with the 32-bit
      wrap-around of [|], [^], [>>>] and [Math.imul] written out.
    - [Math.random()] and [Date.now()] are inputs of the operations that call
      them, and so is the value of [Math.sqrt(3)].
    - A string is a [string] of characters below 256. *)

From Stdlib Require Import ZArith QArith Qround Qabs Lqa Lia String Ascii.
From stdpp Require Import gmap strings list.

Set Warnings "-register-all,-clear-no-such-hyp".

(** ** JavaScript numbers and values *)

Inductive num : Type :=
| Fin (q : Q)
| Inf (negative : bool)
| NaN.

Definition num_of_Z (z : Z) : num := Fin (inject_Z z).

(** A JSON-like value, as it travels in a cell delta. *)
Inductive jsval : Type :=
| JUndefined
| JNull
| JBool (b : bool)
| JNum (n : num)
| JStr (s : string)
| JObj (fields : list (string * jsval)).

(** ** Property names every object inherits *)

(** The own property names of [Object.prototype]: a lookup [o[k]] on an object
    created by [{}] finds them when [o] has no own property [k]. *)
Definition objectPrototypeKeys : list string :=
  ["constructor"; "__defineGetter__"; "__defineSetter__"; "hasOwnProperty";
   "__lookupGetter__"; "__lookupSetter__"; "isPrototypeOf"; "propertyIsEnumerable";
   "toString"; "valueOf"; "__proto__"; "toLocaleString"].

Definition inherited (k : string) : bool := bool_decide (k ∈ objectPrototypeKeys).

(** ** The server's room store ([class RoomManager]) *)

Module RoomManager.

(** *** [generateRoomCode]:
    [Math.random().toString(36).substring(2, 8).toUpperCase()] *)

(** The digit characters of [Number.prototype.toString(radix)]: [0-9a-z]. *)
Definition digit36 (d : Z) : ascii :=
  if (d <? 10)%Z then ascii_of_N (Z.to_N (48 + d)) else ascii_of_N (Z.to_N (87 + d)).

(** Fraction digits of [x] in base 36, for [0 <= x < 1]: multiply by the radix,
    emit the integer part, go on with the rest until nothing is left. *)
Fixpoint fraction36 (fuel : nat) (x : Q) : list ascii :=
  match fuel with
  | O => []
  | S fuel' =>
    if Qeq_bool x 0 then []
    else
      let y := (x * 36)%Q in
      let d := Qfloor y in
      digit36 d :: fraction36 fuel' (y - inject_Z d)%Q
  end.

(** [x.toString(36)] for [0 <= x < 1], with the digits of the exact expansion
    of [x].  A draw of [Math.random()] is a multiple of [2^-53], and such a
    value has at most 27 fraction digits in base 36.  An engine prints the
    shortest digit string that reads back as the same double: for a value
    whose exact expansion is short (such as [0.5], printed ["0.i"]) that is
    the exact expansion; for the other values the two strings can differ after
    the digits that [substring(2, 8)] keeps, or where the shortest string
    rounds a digit up. *)
Definition toString36 (x : Q) : string :=
  if Qeq_bool x 0 then "0"
  else "0." +:+ string_of_list_ascii (fraction36 27 x).

(** [s.substring(start, end)] for [start <= end]; both ends are clamped to the
    length of [s]. *)
Definition js_substring (start end_ : nat) (s : string) : string :=
  String.substring start (end_ - start) s.

Definition upper_ascii (c : ascii) : ascii :=
  let n := N_of_ascii c in
  if ((97 <=? n) && (n <=? 122))%N then ascii_of_N (n - 32) else c.

Fixpoint toUpperCase (s : string) : string :=
  match s with
  | EmptyString => EmptyString
  | String c s' => String (upper_ascii c) (toUpperCase s')
  end.

(** [rnd] is the value [Math.random()] returned. *)
Definition generateRoomCode (rnd : Q) : string :=
  toUpperCase (js_substring 2 8 (toString36 rnd)).

(** [A-Z] or [0-9]. *)
Definition upperAlnum (c : ascii) : Prop :=
  let n := N_of_ascii c in
  (48 ≤ n ≤ 57)%N ∨ (65 ≤ n ≤ 90)%N.

(** *** The store *)

(** The stored state of one cell: a JavaScript object, field name to value. *)
Abbreviation cell := (gmap string jsval).

Record Room : Type := mkRoom {
  host : string;
  users : list string;
  hexState : gmap string cell;
  createdAt : Z
}.

Definition set_users (us : list string) (r : Room) : Room :=
  {| host := host r; users := us; hexState := hexState r; createdAt := createdAt r |}.

Definition set_hexState (hs : gmap string cell) (r : Room) : Room :=
  {| host := host r; users := users r; hexState := hs; createdAt := createdAt r |}.

Record t : Type := mk {
  rooms : gmap string Room;
  userRooms : gmap string (list string)
}.

(** [constructor()] *)
Definition new : t := {| rooms := ∅; userRooms := ∅ |}.

(** [this.userRooms[userId]], with the [if (!...) ... = []] default applied. *)
Definition roomsOf (s : t) (userId : string) : list string :=
  default [] (userRooms s !! userId).

(** [createRoom(userId)]: [rnd] and [now] are what [Math.random()] and
    [Date.now()] return during the call. *)
Definition createRoom (rnd : Q) (now : Z) (userId : string) (s : t) : string * t :=
  let roomCode := generateRoomCode rnd in
  let room := {| host := userId; users := [userId]; hexState := ∅; createdAt := now |} in
  (roomCode,
   {| rooms := <[roomCode := room]> (rooms s);
      userRooms := <[userId := roomsOf s userId ++ [roomCode]]> (userRooms s) |}).

Inductive JoinResult : Type :=
| JoinSuccess (state : gmap string cell)   (* [{ success: true, state }] *)
| JoinFailure (error : string)             (* [{ success: false, error }] *)
| JoinTypeError (message : string).        (* the call throws a [TypeError] *)

(** [joinRoom(roomCode, userId)].  [this.rooms[roomCode]] is a lookup on a
    plain object: for a code that names no room but a property of
    [Object.prototype] it finds the inherited value, which is truthy and has
    no [users], and [.users.push(userId)] throws before anything is
    written. *)
Definition joinRoom (roomCode userId : string) (s : t) : JoinResult * t :=
  match rooms s !! roomCode with
  | None =>
    if inherited roomCode
    then (JoinTypeError "Cannot read properties of undefined (reading 'push')", s)
    else (JoinFailure "Room not found", s)
  | Some room =>
    let room' := set_users (users room ++ [userId]) room in
    (JoinSuccess (hexState room'),
     {| rooms := <[roomCode := room']> (rooms s);
        userRooms := <[userId := roomsOf s userId ++ [roomCode]]> (userRooms s) |})
  end.

(** [{ ...old, ...action, lastUpdated: Date.now() }]: a later spread wins, so
    the fields of [action] shadow those of [old]; [old] is [undefined] for a
    cell never written, and spreading [undefined] adds nothing. *)
Definition mergeCell (old : option cell) (action : cell) (now : Z) : cell :=
  <["lastUpdated" := JNum (num_of_Z now)]> (action ∪ default ∅ old).

(** [updateHexState(roomCode, hexId, action)], for a room code that names a
    room or no property of [Object.prototype] (on an inherited name the code
    passes its test and throws a [TypeError]) and for a cell id other than
    ["__proto__"] (an assignment to that id replaces the prototype of
    [hexState] and stores no cell).  The table keeps the cells by id; the
    order of the keys of [hexState], that of the first writes, is not part of
    it. *)
Definition updateHexState (now : Z) (roomCode hexId : string) (action : cell)
    (s : t) : bool * t :=
  match rooms s !! roomCode with
  | None => (false, s)
  | Some room =>
    let merged := mergeCell (hexState room !! hexId) action now in
    (true,
     {| rooms := <[roomCode := set_hexState (<[hexId := merged]> (hexState room)) room]> (rooms s);
        userRooms := userRooms s |})
  end.

(** One turn of the [for (const roomCode of this.userRooms[userId])] loop of
    [removeUserFromRooms], on the room table and the [roomsLeft] array. *)
Definition leaveRoom (userId : string) (acc : gmap string Room * list string)
    (roomCode : string) : gmap string Room * list string :=
  match acc.1 !! roomCode with
  | None => acc
  | Some room =>
    let remaining := filter (λ id, id ≠ userId) (users room) in
    let roomsLeft := acc.2 ++ [roomCode] in
    if (length remaining =? 0)%nat
    then (delete roomCode acc.1, roomsLeft)
    else (<[roomCode := set_users remaining room]> acc.1, roomsLeft)
  end.

(** [removeUserFromRooms(userId)] *)
Definition removeUserFromRooms (userId : string) (s : t) : list string * t :=
  match userRooms s !! userId with
  | None => ([], s)
  | Some codes =>
    let out := foldl (leaveRoom userId) (rooms s, []) codes in
    (out.2, {| rooms := out.1; userRooms := delete userId (userRooms s) |})
  end.

(** [getRoomState(roomCode)]: [this.rooms[roomCode] || null], for a code that
    names a room or no property of [Object.prototype]. *)
Definition getRoomState (roomCode : string) (s : t) : option Room :=
  rooms s !! roomCode.

(** The cell a room stores under [hexId], if the room and the cell exist. *)
Definition cellOf (s : t) (roomCode hexId : string) : option cell :=
  room ← rooms s !! roomCode; hexState room !! hexId.

(** *** Runs of the store *)

Inductive op : Type :=
| CreateRoom (rnd : Q) (now : Z) (userId : string)
| JoinRoom (roomCode userId : string)
| UpdateHexState (now : Z) (roomCode hexId : string) (action : cell)
| RemoveUserFromRooms (userId : string).

Definition step (s : t) (o : op) : t :=
  match o with
  | CreateRoom rnd now userId => (createRoom rnd now userId s).2
  | JoinRoom roomCode userId => (joinRoom roomCode userId s).2
  | UpdateHexState now roomCode hexId action => (updateHexState now roomCode hexId action s).2
  | RemoveUserFromRooms userId => (removeUserFromRooms userId s).2
  end.

Definition run (ops : list op) : t := foldl step new ops.

Definition reachable (s : t) : Prop := ∃ ops, s = run ops.

(** The membership invariant: no room without a member, and the member lists
    and the user index mirror each other. *)
Definition consistent (s : t) : Prop :=
  ∀ roomCode room, rooms s !! roomCode = Some room →
    users room ≠ [] ∧
    ∀ userId, userId ∈ users room ↔ roomCode ∈ roomsOf s userId.

(** Every code in the user index names a room of the table. *)
Definition indexed (s : t) : Prop :=
  ∀ userId roomCode, roomCode ∈ roomsOf s userId → is_Some (rooms s !! roomCode).

(** The code a [createRoom] mints is not in use. *)
Definition mintsFreshCode (s : t) (o : op) : Prop :=
  match o with
  | CreateRoom rnd _ _ => rooms s !! generateRoomCode rnd = None
  | _ => True
  end.

(** A run from [s] in which no [createRoom] mints the code of a room that
    exists at that moment. *)
Fixpoint collisionFree (s : t) (ops : list op) : Prop :=
  match ops with
  | [] => True
  | o :: ops' => mintsFreshCode s o ∧ collisionFree (step s o) ops'
  end.

(** What one turn of the loop of [removeUserFromRooms] leaves of a room. *)
Definition withoutUser (userId : string) (room : Room) : option Room :=
  let remaining := filter (λ id, id ≠ userId) (users room) in
  if (length remaining =? 0)%nat then None else Some (set_users remaining room).

End RoomManager.

(** ** Axial coordinates ([class HexUtils]) *)

Module HexUtils.

Record hex : Type := mkHex { q : Z; r : Z }.

(** The double nearest to the integer [z], for [|z| < 2^1024]: [z] itself up
    to [2^53] in magnitude, and beyond that the nearest multiple of the spacing
    [2^(e - 52)] of the doubles of its magnitude [2^e <= |z| < 2^(e+1)], the
    one with the even quotient when two are equally near. *)
Definition nearestDouble (z : Z) : Z :=
  let e := (Z.log2 (Z.abs z) - 52)%Z in
  if (e <=? 0)%Z then z
  else
    let ulp := (2 ^ e)%Z in
    let quotient := (z / ulp)%Z in
    let rest := (z mod ulp)%Z in
    if (2 * rest <? ulp)%Z then (quotient * ulp)%Z
    else if (ulp <? 2 * rest)%Z then ((quotient + 1) * ulp)%Z
    else if Z.even quotient then (quotient * ulp)%Z
    else ((quotient + 1) * ulp)%Z.

(** [a + b] on integer-valued numbers: the sum, rounded to a double. *)
Definition plus (a b : Z) : Z := nearestDouble (a + b).

(** The values a [for (let i = lo; i <= hi; i++)] loop visits, in order, for
    bounds of magnitude below [2^53], where [i++] is exact. *)
Definition for_range (lo hi : Z) : list Z := seqZ lo (hi - lo + 1).


(** The cells the inner loop of [getHexesInRadius] pushes for one value of
    [q]. *)
Definition row (centerQ centerR radius q : Z) : list hex :=
  r ← for_range (Z.max (- radius) (- q - radius)) (Z.min radius (- q + radius));
  [ {| q := plus centerQ q; r := plus centerR r |} ].



End HexUtils.

(** ** Arithmetic on JavaScript numbers *)

Module JSNumber.

(** [q < 0] *)
Definition Qnegative (q : Q) : bool := negb (Qle_bool 0 q).

Definition Qzero (q : Q) : bool := Qeq_bool q 0.

(** The least magnitude that is rounded to an infinity: halfway between the
    greatest double, [2^1024 - 2^971], and [2^1024]. *)
Definition overflowThreshold : Q := inject_Z (2 ^ 1024 - 2 ^ 970).

(** The result of an operation whose exact value is [q]: an infinity when [q]
    is out of the range of doubles, otherwise [q] itself.  The rounding of a
    result that stays in range is not modelled: below the threshold the
    arithmetic is exact. *)
Definition fin (q : Q) : num :=
  if Qle_bool overflowThreshold (Qabs q) then Inf (Qnegative q) else Fin q.

(** [2^e], for an exponent of either sign. *)
Definition pow2 (e : Z) : Q :=
  if (0 <=? e)%Z then inject_Z (2 ^ e) else (/ inject_Z (2 ^ (- e)))%Q.

(** The exponent of a number that is not zero: [2^e <= |q| < 2^(e + 1)]. *)
Definition exponent (q : Q) : Z :=
  let e0 := (Z.log2 (Z.abs (Qnum q)) - Z.log2 (Zpos (Qden q)))%Z in
  if Qle_bool (pow2 e0) (Qabs q) then e0 else (e0 - 1)%Z.

(** The double nearest to [q], a tie going to the even mantissa: a multiple
    of [2^(e - 52)] for the exponent [e] of [q], and of [2^-1074] below
    [2^-1022].  The numbers it is used on are in the range of doubles. *)
Definition roundDouble (q : Q) : Q :=
  let q := Qred q in
  if Qeq_bool q 0 then 0%Q
  else
    let e := Z.max (exponent q) (-1022) in
    let ulp := pow2 (e - 52) in
    let m := (q / ulp)%Q in
    let f := Qfloor m in
    let rest := (m - inject_Z f)%Q in
    let k :=
      if Qle_bool rest (1 # 2)%Q
      then if Qeq_bool rest (1 # 2)%Q then (if Z.even f then f else f + 1)%Z else f
      else (f + 1)%Z in
    Qred (inject_Z k * ulp)%Q.

Definition neg (a : num) : num :=
  match a with
  | Fin x => Fin (- x)
  | Inf s => Inf (negb s)
  | NaN => NaN
  end.

Definition add (a b : num) : num :=
  match a, b with
  | NaN, _ | _, NaN => NaN
  | Fin x, Fin y => fin (x + y)
  | Inf s, Fin _ | Fin _, Inf s => Inf s
  | Inf s, Inf s' => if Bool.eqb s s' then Inf s else NaN
  end.

Definition sub (a b : num) : num := add a (neg b).

Definition mul (a b : num) : num :=
  match a, b with
  | NaN, _ | _, NaN => NaN
  | Fin x, Fin y => fin (x * y)
  | Inf s, Fin y | Fin y, Inf s => if Qzero y then NaN else Inf (xorb s (Qnegative y))
  | Inf s, Inf s' => Inf (xorb s s')
  end.

(** Division: [0 / 0] is [NaN], any other finite value over zero is an
    infinity (zero counts as positive zero). *)
Definition div (a b : num) : num :=
  match a, b with
  | NaN, _ | _, NaN => NaN
  | Fin x, Fin y =>
    if Qzero y then (if Qzero x then NaN else Inf (Qnegative x))
    else fin (x / y)
  | Fin _, Inf _ => Fin 0
  | Inf s, Fin y => Inf (xorb s (Qnegative y))
  | Inf _, Inf _ => NaN
  end.

(** [Math.floor] *)
Definition floor (a : num) : num :=
  match a with
  | Fin x => Fin (inject_Z (Qfloor x))
  | _ => a
  end.

(** The integer part of a finite number, rounded towards zero. *)
Definition truncate (x : Q) : Z := Z.quot (Qnum x) (Zpos (Qden x)).

(** [ToInt32] and [ToUint32] on an integer. *)
Definition wrapInt32 (z : Z) : Z := ((z + 2 ^ 31) mod 2 ^ 32 - 2 ^ 31)%Z.
Definition wrapUint32 (z : Z) : Z := (z mod 2 ^ 32)%Z.

(** [ToInt32] on a number: [NaN] and the infinities give [0]. *)
Definition toInt32 (a : num) : Z :=
  match a with
  | Fin x => wrapInt32 (truncate x)
  | _ => 0%Z
  end.

(** The 32-bit operators, on integer-valued numbers. *)
Definition xor32 (a b : Z) : Z := Z.lxor (wrapInt32 a) (wrapInt32 b).      (* a ^ b *)
Definition or32 (a b : Z) : Z := Z.lor (wrapInt32 a) (wrapInt32 b).        (* a | b *)
Definition and32 (a b : Z) : Z := Z.land (wrapInt32 a) (wrapInt32 b).      (* a & b *)
Definition ushr32 (a n : Z) : Z := Z.shiftr (wrapUint32 a) n.              (* a >>> n *)
Definition imul (a b : Z) : Z := wrapInt32 (wrapInt32 a * wrapInt32 b).    (* Math.imul *)

(** [a <= b], false as soon as an operand is [NaN]. *)
Definition leb (a b : num) : bool :=
  match a, b with
  | NaN, _ | _, NaN => false
  | Fin x, Fin y => Qle_bool x y
  | Inf s, Inf s' => implb s' s
  | Inf s, Fin _ => s
  | Fin _, Inf s => negb s
  end.

End JSNumber.

Declare Scope num_scope.
Delimit Scope num_scope with num.
Bind Scope num_scope with num.
Infix "+" := JSNumber.add : num_scope.
Infix "-" := JSNumber.sub : num_scope.
Infix "*" := JSNumber.mul : num_scope.
Infix "/" := JSNumber.div : num_scope.
Notation "- x" := (JSNumber.neg x) : num_scope.

(** ** Seeded gradient noise ([class NoiseGenerator]) *)

Module NoiseGenerator.

Import JSNumber.

(** A JavaScript array of numbers: a slot holds a number, or nothing
    ([undefined], or a hole of [new Array(n)]). *)
Abbreviation jsarray := (list (option Z)).

(** [p[i]] *)
Definition aget (p : jsarray) (i : nat) : option Z := mjoin (p !! i).

(** The closure [mulberry32(a)] returns, as a function of the captured
    variable [a], a double: the value returned and the new [a].  The sum
    [a += ...] is rounded to a double; [t] enters the 32-bit operators through
    its integer part, and the sum [t + Math.imul(...)] of two 32-bit integers
    is exact. *)
Definition mulberry32 (a : Q) : Q * Q :=
  let a' := roundDouble (a + inject_Z 0x6D2B79F5) in                (* a += 0x6D2B79F5 *)
  let t := truncate a' in                                           (* let t = a *)
  let t := imul (xor32 t (ushr32 t 15)) (or32 t 1) in
  let t := xor32 t (t + imul (xor32 t (ushr32 t 7)) (or32 t 61)) in (* t ^= t + ... *)
  (inject_Z (wrapUint32 (xor32 t (ushr32 t 14))) / inject_Z 4294967296, a')%Q.

(** One turn of the shuffle loop: [j = Math.floor(random() * (i + 1))], then
    [[p[i], p[j]] = [p[j], p[i]]]. *)
Definition shuffleStep (st : jsarray * Q) (i : nat) : jsarray * Q :=
  let rnd := mulberry32 st.2 in
  let j := Z.to_nat (Qfloor (rnd.1 * inject_Z (Z.of_nat i + 1))) in
  let pj := aget st.1 j in
  let pi := aget st.1 i in
  (<[j := pi]> (<[i := pj]> st.1), rnd.2).

(** [generatePermutation()], for [this.seed = seed]. *)
Definition generatePermutation (seed : Q) : jsarray :=
  let p := replicate 512 None in                                            (* new Array(512) *)
  let p := foldl (λ p i, <[i := Some (Z.of_nat i)]> p) p (seq 0 256) in     (* p[i] = i *)
  let p := (foldl shuffleStep (p, seed) (reverse (seq 1 255))).1 in         (* i = 255 .. 1 *)
  foldl (λ p i, <[(i + 256)%nat := aget p i]> p) p (seq 0 256).             (* p[i + 256] = p[i] *)

Record t : Type := mk {
  seed : Q;
  permutation : jsarray
}.

(** [constructor(seed)] *)
Definition new (seed : Q) : t :=
  {| seed := seed; permutation := generatePermutation seed |}.

(** [gradient(hash, x, y)] *)
Definition gradient (hash : Z) (x y : num) : num :=
  let h := Z.land hash 7 in
  let u := if (h <? 4)%Z then x else y in
  let v := if (h <? 4)%Z then y else x in
  ((if (Z.land h 1 =? 0)%Z then u else - u) + (if (Z.land h 2 =? 0)%Z then v else - v))%num.

(** [lerp(a, b, t)] *)
Definition lerp (a b t : num) : num := (a + t * (b - a))%num.

(** [fade(t)] *)
Definition fade (t : num) : num :=
  (t * t * t * (t * (t * Fin 6 - Fin 15) + Fin 10))%num.

(** [noise(x, y)].  A read of the table that finds no number ends the
    computation with [None]. *)
Definition noise (g : t) (x y : num) : option num :=
  let X := Z.land (toInt32 (floor x)) 255 in
  let Y := Z.land (toInt32 (floor y)) 255 in
  let xf := (x - floor x)%num in
  let yf := (y - floor y)%num in
  let u := fade xf in
  let v := fade yf in
  let p := permutation g in
  pX ← aget p (Z.to_nat X);
  pX1 ← aget p (Z.to_nat (X + 1));
  let A := (pX + Y)%Z in
  let B := (pX1 + Y)%Z in
  aa ← aget p (Z.to_nat A);
  ab ← aget p (Z.to_nat (A + 1));
  ba ← aget p (Z.to_nat B);
  bb ← aget p (Z.to_nat (B + 1));
  paa ← aget p (Z.to_nat aa);
  pba ← aget p (Z.to_nat ba);
  pab ← aget p (Z.to_nat ab);
  pbb ← aget p (Z.to_nat bb);
  let g1 := gradient paa xf yf in
  let g2 := gradient pba (xf - Fin 1) yf in
  let g3 := gradient pab xf (yf - Fin 1) in
  let g4 := gradient pbb (xf - Fin 1) (yf - Fin 1) in
  let x1 := lerp g1 g2 u in
  let x2 := lerp g3 g4 u in
  Some (lerp x1 x2 v).

(** The variables of the loop of [fractalNoise]. *)
Record octaves_state : Type := mkOctaves {
  total : num;
  frequency : num;
  amplitude : num;
  maxValue : num
}.

(** [for (let i = 0; i < octaves; i++) { ... }], [octaves] turns. *)
Fixpoint octaveLoop (g : t) (x y persistence : num) (octaves : nat)
    (st : octaves_state) : option octaves_state :=
  match octaves with
  | O => Some st
  | S octaves' =>
    n ← noise g (x * frequency st) (y * frequency st);
    octaveLoop g x y persistence octaves'
      {| total := total st + n * amplitude st;
         maxValue := maxValue st + amplitude st;
         amplitude := amplitude st * persistence;
         frequency := frequency st * Fin 2 |}
  end.

(** [fractalNoise(x, y, octaves, persistence)] *)
Definition fractalNoise (g : t) (x y : num) (octaves : nat) (persistence : num)
    : option num :=
  st ← octaveLoop g x y persistence octaves
         {| total := Fin 0; frequency := Fin 1; amplitude := Fin 1; maxValue := Fin 0 |};
  Some ((total st / maxValue st + Fin 1) / Fin 2)%num.

(** The default values of the parameters: [octaves = 4, persistence = 0.5]. *)
Definition default_octaves : nat := 4.

(** [fade] on a finite number. *)
Definition fadeQ (t : Q) : Q := (t * t * t * (t * (t * 6 + - 15) + 10))%Q.

(** The array during the shuffle: the numbers [l] in the slots [0 .. 255],
    nothing yet in the slots [256 .. 511]. *)
Definition lowerHalf (p : jsarray) (l : list Z) : Prop :=
  p = (Some <$> l) ++ replicate 256 None ∧ length l = 256%nat.

(** A finished table: 512 slots, each of them holding a number of [0 .. 255]. *)
Definition tableReady (p : jsarray) : Prop :=
  ∀ i : nat, (i < 512)%nat → ∃ z : Z, aget p i = Some z ∧ (0 ≤ z < 256)%Z.

End NoiseGenerator.

(** ** The client's mirror of the grid ([class HexGrid], [updateHexState]) *)

Module HexGrid.

Inductive jserror : Type :=
| ReferenceError (identifier : string)
| TypeError (message : string).

(** How a call ends. *)
Inductive outcome : Type :=
| Returned
| Thrown (e : jserror).

(** [ToBoolean] *)
Definition truthy (v : jsval) : bool :=
  match v with
  | JUndefined | JNull => false
  | JBool b => b
  | JNum (Fin x) => negb (Qeq_bool x 0)
  | JNum (Inf _) => true
  | JNum NaN => false
  | JStr s => negb (bool_decide (s = ""))
  | JObj _ => true
  end.

(** [v !== undefined] *)
Definition defined (v : jsval) : bool :=
  match v with
  | JUndefined => false
  | _ => true
  end.

(** [typeof v === 'number'] *)
Definition isNumber (v : jsval) : bool :=
  match v with
  | JNum _ => true
  | _ => false
  end.

(** [a || b] *)
Definition orElse (a b : jsval) : jsval := if truthy a then a else b.

(** [state.name], for the delta object [state]. *)
Definition field (state : gmap string jsval) (name : string) : jsval :=
  default JUndefined (state !! name).

Fixpoint assoc (name : string) (fields : list (string * jsval)) : option jsval :=
  match fields with
  | [] => None
  | (k, v) :: rest =>
    match assoc name rest with
    | Some w => Some w
    | None => if bool_decide (k = name) then Some v else None
    end
  end.

(** [v.name], for a value that is not [null] or [undefined]. *)
Definition member (v : jsval) (name : string) : jsval :=
  match v with
  | JObj fields => default JUndefined (assoc name fields)
  | _ => JUndefined
  end.

(** What the mirror keeps of a cell's mesh: [userData.customColor],
    the colour of the top material, [userData.height], and whether the mesh is
    the extruded column. *)
Record Mesh : Type := mkMesh {
  customColor : option jsval;
  materialColor : jsval;
  height : option jsval;
  extruded : bool
}.

(** An entry of [this.voxelModels]. *)
Record ModelData : Type := mkModelData {
  heightOffset : jsval;
  animate : jsval;
  hoverRange : jsval;
  hoverSpeed : jsval;
  rotateSpeed : jsval;
  hexHeight : jsval
}.

(** The options object [updateHexState] hands to [spawnVoxelModelOnHex]. *)
Record ModelOptions : Type := mkModelOptions {
  o_modelType : jsval;
  o_scale : jsval;
  o_rotation : jsval;
  o_animate : jsval;
  o_hoverRange : jsval;
  o_hoverSpeed : jsval;
  o_rotateSpeed : jsval;
  o_hexHeight : jsval
}.

Record t : Type := mk {
  hexMeshes : gmap string Mesh;
  voxelModels : gmap string ModelData;
  voxelModelManager : bool       (* [this.voxelModelManager] is not [null] *)
}.

Definition set_hexMeshes (m : gmap string Mesh) (g : t) : t :=
  {| hexMeshes := m; voxelModels := voxelModels g; voxelModelManager := voxelModelManager g |}.

Definition set_voxelModels (m : gmap string ModelData) (g : t) : t :=
  {| hexMeshes := hexMeshes g; voxelModels := m; voxelModelManager := voxelModelManager g |}.

(** [extrudeHex(hexMesh, height)]: the mesh of the cell is replaced by a column
    that carries the colour the old mesh showed. *)
Definition extrudeHex (hexId : string) (hexMesh : Mesh) (h : jsval) (g : t) : t :=
  let currentColor := default (materialColor hexMesh) (customColor hexMesh) in
  let newMesh :=
    {| customColor := Some currentColor; materialColor := currentColor;
       height := Some h; extruded := true |} in
  set_hexMeshes (<[hexId := newMesh]> (hexMeshes g)) g.

(** [removeVoxelModel(hexId)] *)
Definition removeVoxelModel (hexId : string) (g : t) : t :=
  set_voxelModels (delete hexId (voxelModels g)) g.

(** [spawnVoxelModelOnHex(hexId, options)], for options without [heightOffset]
    and [modelPath], as [updateHexState] builds them. *)
Definition spawnVoxelModelOnHex (hexId : string) (options : ModelOptions) (g : t) : t :=
  if negb (voxelModelManager g) then g
  else
    match hexMeshes g !! hexId with
    | None => g
    | Some hex =>
      let g := removeVoxelModel hexId g in
      let h := default JUndefined (height hex) in
      let hexHeight := if isNumber h then h else JNum (Fin 0) in
      let heightOffset := JNum (Fin 1) in
      if truthy (o_modelType options)
      then
        set_voxelModels
          (<[hexId := {| heightOffset := heightOffset;
                         animate := if defined (o_animate options) then o_animate options else JBool true;
                         hoverRange := orElse (o_hoverRange options) (JNum (Fin (2 # 10)));
                         hoverSpeed := orElse (o_hoverSpeed options) (JNum (Fin 1));
                         rotateSpeed := orElse (o_rotateSpeed options) (JNum (Fin (5 # 10)));
                         hexHeight := hexHeight |}]> (voxelModels g)) g
      else g
    end.

(** The identifier [heightChanged] is read in [updateHexState], and nothing
    binds it: it is no parameter, no local of the method, no import or
    declaration of the module.  Reading it throws. *)
Definition read_heightChanged : jsval + jserror :=
  inr (ReferenceError "heightChanged").

(** [updateHexState(hexId, state)].  Calls that only move or redraw rendered
    objects ([material.color.copy], [updateVoxelModel],
    [voxelModelManager.removeModel]) leave the mirror as it is.
    [this.hexMeshes[hexId]] is a lookup on a plain object: for an id that
    names no mesh but a property of [Object.prototype] it finds the inherited
    value, which passes [if (!hex) return] and has no [userData]; the first
    access to [hex.userData] then throws a [TypeError], and a delta that
    causes no such access reaches [heightChanged]. *)
Definition updateHexState (hexId : string) (state : gmap string jsval) (g : t)
    : t * outcome :=
  match hexMeshes g !! hexId with
  | None =>
    if inherited hexId
    then
      if truthy (field state "color") || defined (field state "height")
         || truthy (field state "voxelModel")
      then (g, Thrown (TypeError "Cannot read properties of undefined"))
      else
        match read_heightChanged with
        | inr e => (g, Thrown e)
        | inl v => (g, Returned)
        end
    else (g, Returned)                                      (* if (!hex) return *)
  | Some hex =>
    (* if (state.color) *)
    let hex :=
      if truthy (field state "color")
      then {| customColor := Some (field state "color");
              materialColor := field state "color";
              height := height hex; extruded := extruded hex |}
      else hex in
    let g := set_hexMeshes (<[hexId := hex]> (hexMeshes g)) g in
    (* if (state.height !== undefined) *)
    let hex_g :=
      if defined (field state "height")
      then
        let hex := {| customColor := customColor hex; materialColor := materialColor hex;
                      height := Some (field state "height"); extruded := extruded hex |} in
        (hex, extrudeHex hexId hex (field state "height") g)
      else (hex, g) in
    let hex := hex_g.1 in
    let g := hex_g.2 in
    (* if (state.voxelModel) ... else if (heightChanged) ... *)
    if truthy (field state "voxelModel")
    then
      let vm := field state "voxelModel" in
      let modelOptions :=
        {| o_modelType := member vm "type";
           o_scale := orElse (member vm "scale") (JNum (Fin (15 # 10)));
           o_rotation := orElse (member vm "rotation")
                           (JObj [("x", JNum (Fin 0)); ("y", JNum (Fin 0)); ("z", JNum (Fin 0))]);
           o_animate := if defined (member vm "animate") then member vm "animate" else JBool true;
           o_hoverRange := orElse (member vm "hoverRange") (JNum (Fin (2 # 10)));
           o_hoverSpeed := orElse (member vm "hoverSpeed") (JNum (Fin 1));
           o_rotateSpeed := orElse (member vm "rotateSpeed") (JNum (Fin (5 # 10)));
           o_hexHeight := orElse (default JUndefined (height hex)) (JNum (Fin 0)) |} in
      if truthy (o_modelType modelOptions)
      then (spawnVoxelModelOnHex hexId modelOptions g, Returned)
      else (g, Returned)
    else
      match read_heightChanged with
      | inr e => (g, Thrown e)
      | inl v => (g, Returned)
      end
  end.

(** The mesh [createGrid] makes for a cell: flat, [userData.height = 0.01],
    a clone of the top material, whose colour is the default white. *)
Definition createdMesh : Mesh :=
  {| customColor := None; materialColor := JNum (Fin 16777215);
     height := Some (JNum (Fin (1 # 100))); extruded := false |}.

(** A grid just after [createGrid], for the cell ids given. *)
Definition createdGrid (hexIds : list string) (manager : bool) : t :=
  {| hexMeshes := list_to_map ((λ hexId, (hexId, createdMesh)) <$> hexIds);
     voxelModels := ∅;
     voxelModelManager := manager |}.

End HexGrid.

(** ** Everyone leaves ([server.js], [disconnect]) *)

Module Departures.

Import RoomManager.

(** The users [userIds] disconnect one after the other: [removeUserFromRooms]
    for each of them. *)
Definition leaveAll (s : t) (userIds : list string) : t :=
  foldl (λ s userId, (removeUserFromRooms userId s).2) s userIds.

End Departures.

(** ** Sample stores *)

Module Samples.

Import RoomManager.

Definition aliceRoom : Room :=
  {| host := "alice"; users := ["alice"]; hexState := ∅; createdAt := 0 |}.

Definition aliceStore : t :=
  {| rooms := {["I" := aliceRoom]}; userRooms := {["alice" := ["I"]]} |}.

Definition aliceAndBob : list op :=
  [CreateRoom (1 # 2) 0 "alice"; JoinRoom "I" "bob"].

End Samples.

(** ** More of [Math] and of the operators on numbers *)

Module JSMath.

Import JSNumber.

(** [Math.round]: the nearest integer, a half goes up. *)
Definition round (a : num) : num :=
  match a with
  | Fin x => Fin (inject_Z (Qfloor (x + (1 # 2))))
  | _ => a
  end.

(** [Math.abs] *)
Definition abs (a : num) : num :=
  match a with
  | Fin x => Fin (Qabs x)
  | Inf _ => Inf false
  | NaN => NaN
  end.

(** [a > b], false as soon as an operand is [NaN]. *)
Definition gtb (a b : num) : bool :=
  match a, b with
  | NaN, _ | _, NaN => false
  | Fin x, Fin y => negb (Qle_bool x y)
  | Inf s, Inf s' => negb s && s'
  | Inf s, Fin _ => negb s
  | Fin _, Inf s => s
  end.

(** [Math.max(a, b)] *)
Definition max (a b : num) : num :=
  match a, b with
  | NaN, _ | _, NaN => NaN
  | _, _ => if leb a b then b else a
  end.

(** [a !== b] on numbers *)
Definition strictNe (a b : num) : bool :=
  match a, b with
  | Fin x, Fin y => negb (Qeq_bool x y)
  | Inf s, Inf s' => negb (Bool.eqb s s')
  | _, _ => true
  end.

(** [Number.isFinite] *)
Definition isFinite (a : num) : bool :=
  match a with
  | Fin _ => true
  | _ => false
  end.

(** The number [n] is the integer [k]. *)
Definition isInteger (n : num) (k : Z) : Prop :=
  ∃ x, n = Fin x ∧ x == inject_Z k.

End JSMath.

(** ** Cells and positions ([class HexUtils]) *)

Module HexCoordinates.

Import JSNumber JSMath.

(** An object [{ q, r }] of numbers. *)
Record axial : Type := mkAxial { aq : num; ar : num }.

(** A [THREE.Vector3]. *)
Record vector3 : Type := mkVector3 { vx : num; vy : num; vz : num }.

(** [roundAxial(q, r)] *)
Definition roundAxial (q r : num) : axial :=
  let s := (- q - r)%num in
  let rq := round q in
  let rr := round r in
  let rs := round s in
  let qDiff := abs (rq - q) in
  let rDiff := abs (rr - r) in
  let sDiff := abs (rs - s) in
  if gtb qDiff rDiff && gtb qDiff sDiff then {| aq := (- rr - rs)%num; ar := rr |}
  else if gtb rDiff sDiff then {| aq := rq; ar := (- rq - rs)%num |}
  else {| aq := rq; ar := rr |}.

(** [axialToPixel(q, r)], for [this.size = size]; [sqrt3] is the value of
    [Math.sqrt(3)]. *)
Definition axialToPixel (sqrt3 size : num) (q r : num) : vector3 :=
  let x := (size * (Fin 3 / Fin 2 * q))%num in
  let z := (size * (sqrt3 / Fin 2 * q + sqrt3 * r))%num in
  {| vx := x; vy := Fin 0; vz := (- z)%num |}.

(** [getObjectPosition(q, r, height)] *)
Definition getObjectPosition (sqrt3 size : num) (q r height : num) : vector3 :=
  let pos := axialToPixel sqrt3 size q r in
  {| vx := vx pos; vy := height; vz := (- vz pos)%num |}.

(** [pixelToAxial(x, z)] *)
Definition pixelToAxial (sqrt3 size : num) (x z : num) : axial :=
  let q := (Fin 2 / Fin 3 * x / size)%num in
  let r := ((- Fin 1 / Fin 3 * x + sqrt3 / Fin 3 * z) / size)%num in
  roundAxial q r.

(** The double nearest to the square root of three. *)
Definition sqrt3_double : Q := 3900231685776981 # 2251799813685248.

End HexCoordinates.

(** ** Cell ids ([getHexId], [parseHexId]) *)

Module HexIds.

Import JSNumber.

(** *** Numbers to strings *)

Definition digitChar (d : N) : ascii := ascii_of_N (48 + d).

(** The decimal digits of [n], most significant first, in front of [acc]. *)
Fixpoint decimalDigits (fuel : nat) (n : N) (acc : string) : string :=
  match fuel with
  | O => acc
  | S fuel' =>
    let acc' := String (digitChar (n mod 10)) acc in
    if (n / 10 =? 0)%N then acc' else decimalDigits fuel' (n / 10) acc'
  end.

(** The decimal numeral of [n]: no digit more than [n] has bits. *)
Definition printed (n : N) : string :=
  decimalDigits (S (N.to_nat (N.log2 n))) n "".

(** [String(z)] for an integer [z] of magnitude at most [2^53], where the
    result is the decimal numeral of [z] (JavaScript prints a larger number
    with the fewest digits that identify its double, and from [10^21] on with
    an exponent). *)
Definition numberToString (z : Z) : string :=
  if (z <? 0)%Z then String "-" (printed (Z.abs_N z)) else printed (Z.abs_N z).

(** [getHexId(q, r)]: [`${q},${r}`] *)
Definition getHexId (q r : Z) : string :=
  numberToString q +:+ "," +:+ numberToString r.

(** *** Strings to numbers *)

(** White space and line terminators, among the characters below 256. *)
Definition isWhiteSpace (c : ascii) : bool :=
  let n := N_of_ascii c in
  ((9 <=? n) && (n <=? 13) || (n =? 32) || (n =? 160))%N.

Fixpoint trimStart (s : string) : string :=
  match s with
  | EmptyString => EmptyString
  | String c s' => if isWhiteSpace c then trimStart s' else s
  end.

Definition trim (s : string) : string :=
  String.rev (trimStart (String.rev (trimStart s))).

(** The value of [c] as a digit of the given radix, if it is one. *)
Definition digitOf (radix : N) (c : ascii) : option N :=
  let n := N_of_ascii c in
  let d :=
    if ((48 <=? n) && (n <=? 57))%N then Some (n - 48)%N
    else if ((97 <=? n) && (n <=? 122))%N then Some (n - 87)%N
    else if ((65 <=? n) && (n <=? 90))%N then Some (n - 55)%N
    else None in
  d ≫= λ v, if (v <? radix)%N then Some v else None.

(** The value of a run of digits after the value [acc]; [None] when a
    character is no digit. *)
Fixpoint digitsFrom (radix acc : N) (s : string) : option N :=
  match s with
  | EmptyString => Some acc
  | String c s' => d ← digitOf radix c; digitsFrom radix (radix * acc + d) s'
  end.

(** A run of at least one digit. *)
Definition digits (radix : N) (s : string) : option N :=
  match s with
  | EmptyString => None
  | _ => digitsFrom radix 0 s
  end.

(** The part of [s] before the first character that [stop] accepts, and the
    part after it, if there is such a character. *)
Fixpoint splitAt (stop : ascii → bool) (s : string) : string * option string :=
  match s with
  | EmptyString => (EmptyString, None)
  | String c s' =>
    if stop c then (EmptyString, Some s')
    else let rest := splitAt stop s' in (String c rest.1, rest.2)
  end.

Definition isExponentMark (c : ascii) : bool :=
  bool_decide (c = "e"%char) || bool_decide (c = "E"%char).

Definition isPoint (c : ascii) : bool := bool_decide (c = "."%char).

(** [10^e] *)
Definition tenTo (e : Z) : Q := Qpower 10 e.

(** An optional sign in front of a string. *)
Definition signed (s : string) : bool * string :=
  match s with
  | String c s' =>
    if bool_decide (c = "-"%char) then (true, s')
    else if bool_decide (c = "+"%char) then (false, s')
    else (false, s)
  | EmptyString => (false, s)
  end.

(** [StrUnsignedDecimalLiteral] other than [Infinity]: digits, an optional
    point and digits, an optional exponent; the result is exact. *)
Definition unsignedDecimal (s : string) : option Q :=
  let mantissa_exponent := splitAt isExponentMark s in
  let integer_fraction := splitAt isPoint mantissa_exponent.1 in
  let integer := integer_fraction.1 in
  let fraction := default EmptyString integer_fraction.2 in
  exponent ←
    match mantissa_exponent.2 with
    | None => Some 0%Z
    | Some e =>
      let sign_digits := signed e in
      n ← digits 10 sign_digits.2;
      Some (if sign_digits.1 then (- Z.of_N n)%Z else Z.of_N n)
    end;
  n ← digits 10 (integer +:+ fraction);
  Some (inject_Z (Z.of_N n) * tenTo (exponent - Z.of_nat (String.length fraction)))%Q.

(** The radix that the letter after a leading [0] selects. *)
Definition radixOf (c : ascii) : option N :=
  if bool_decide (c = "x"%char) || bool_decide (c = "X"%char) then Some 16%N
  else if bool_decide (c = "o"%char) || bool_decide (c = "O"%char) then Some 8%N
  else if bool_decide (c = "b"%char) || bool_decide (c = "B"%char) then Some 2%N
  else None.

(** [0x], [0o] or [0b] and what follows it. *)
Definition radixPrefix (s : string) : option (N * string) :=
  match s with
  | String c0 (String c rest) =>
    if bool_decide (c0 = "0"%char) then radix ← radixOf c; Some (radix, rest)
    else None
  | _ => None
  end.

(** [Number(s)] for a string of characters below 256. *)
Definition Number (s : string) : num :=
  let t := trim s in
  match t with
  | EmptyString => Fin 0
  | _ =>
    match radixPrefix t with
    | Some (radix, rest) =>
      match digits radix rest with
      | Some n => Fin (inject_Z (Z.of_N n))
      | None => NaN
      end
    | None =>
      let sign_rest := signed t in
      if bool_decide (sign_rest.2 = "Infinity") then Inf sign_rest.1
      else
        match unsignedDecimal sign_rest.2 with
        | Some x => if sign_rest.1 then Fin (- x) else Fin x
        | None => NaN
        end
    end
  end.

(** [s.split(sep)] for a separator of one character: the first piece and the
    pieces after it. *)
Fixpoint splitPieces (sep : ascii) (s : string) : string * list string :=
  match s with
  | EmptyString => (EmptyString, [])
  | String c s' =>
    let pieces := splitPieces sep s' in
    if bool_decide (c = sep) then (EmptyString, pieces.1 :: pieces.2)
    else (String c pieces.1, pieces.2)
  end.

Definition split (sep : ascii) (s : string) : list string :=
  let pieces := splitPieces sep s in pieces.1 :: pieces.2.

(** The object [{ q, r }] of [parseHexId]; a field is [None] for [undefined]. *)
Record parsed : Type := mkParsed { pq : option num; pr : option num }.

(** [parseHexId(id)]: [const [q, r] = id.split(',').map(Number)] *)
Definition parseHexId (id : string) : parsed :=
  let numbers := Number <$> split "," id in
  {| pq := numbers !! 0%nat; pr := numbers !! 1%nat |}.

(** *** Classes of characters *)

Fixpoint allChars (P : ascii → bool) (s : string) : bool :=
  match s with
  | EmptyString => true
  | String c s' => P c && allChars P s'
  end.

Definition isDecimal (c : ascii) : bool :=
  ((48 <=? N_of_ascii c) && (N_of_ascii c <=? 57))%N.

(** A character of a printed integer. *)
Definition idChar (c : ascii) : bool := isDecimal c || bool_decide (c = "-"%char).

End HexIds.

(** ** What [noise] computes from the table entries it has read *)

Module NoiseCells.

Import JSNumber NoiseGenerator.

(** The value [noise(x, y)] blends from its four hashes. *)
Definition blend (paa pba pab pbb : Z) (x y : num) : num :=
  let xf := (x - floor x)%num in
  let yf := (y - floor y)%num in
  lerp (lerp (gradient paa xf yf) (gradient pba (xf - Fin 1) yf) (fade xf))
       (lerp (gradient pab xf (yf - Fin 1)) (gradient pbb (xf - Fin 1) (yf - Fin 1)) (fade xf))
       (fade yf).

(** The column of the table [noise] starts from: [Math.floor(x) & 255]. *)
Definition tableCell (x : num) : Z := Z.land (toInt32 (floor x)) 255.

End NoiseCells.

(** ** The client: the wheel, the snapshot of a room, the new grid *)

Module Client.

Import JSNumber JSMath HexUtils HexIds HexGrid.

(** The payload of a ['hexClicked'] message. *)
Record message : Type := mkMessage {
  m_roomCode : string;
  m_hexId : string;
  m_action : gmap string jsval
}.

(** [SocketManager.sendHexAction(roomCode, hexId, action)]: the messages
    emitted. *)
Definition sendHexAction (isConnected : bool) (roomCode hexId : string)
    (action : gmap string jsval) : list message :=
  if isConnected
  then [{| m_roomCode := roomCode; m_hexId := hexId; m_action := action |}]
  else [].

(** What [handleScroll] reads of [this.selectedHex]: [userData.hexId] and
    [userData.height], a number when it is set, as the heights are that
    [createGrid] and [handleScroll] produce.  A height of another type, which
    a delta that did not come from [handleScroll] can carry, is outside the
    model. *)
Record selection : Type := mkSelection {
  s_hexId : string;
  s_height : option num
}.

(** [handleScroll(event)], for [this.selectedHex], [this.currentRoomCode]
    (a string or [null]), [this.socketManager] (its [isConnected], or [null])
    and [event.deltaY]: the value returned and the messages emitted. *)
Definition handleScroll (selectedHex : option selection)
    (currentRoomCode : option string) (socketManager : option bool)
    (deltaY : num) : bool * list message :=
  match selectedHex, currentRoomCode, socketManager with
  | Some hex, Some roomCode, Some isConnected =>
    if bool_decide (roomCode = "") then (false, [])
    else
      let currentHeight :=
        match s_height hex with
        | Some h => if truthy (JNum h) then h else Fin 1
        | None => Fin 1
        end in
      let direction := if gtb deltaY (Fin 0) then Fin (- (1)) else Fin 1 in
      let heightChange := (Fin (1 # 4) * direction)%num in
      let newHeight := max (Fin (1 # 4)) (currentHeight + heightChange) in
      let newHeight := (round (newHeight * Fin 4) / Fin 4)%num in
      (true,
       if strictNe newHeight currentHeight
       then sendHexAction isConnected roomCode (s_hexId hex)
              {["height" := JNum newHeight]}
       else [])
  | _, _, _ => (false, [])
  end.

(** The height [handleScroll] computes from a finite current height [cur]
    and the direction [d]. *)
Definition scrolled (cur d : Q) : Q :=
  let n0 := (cur + (1 # 4) * d)%Q in
  let n1 := if Qle_bool (1 # 4) n0 then n0 else 1 # 4 in
  (inject_Z (Qfloor (n1 * 4 + (1 # 2))) / 4)%Q.

(** The loop of the [roomJoined] callback of [core/main.js] over entries of
    the snapshot, in the order of [Object.keys(state)]: an exception leaves
    the loop. *)
Fixpoint applyEntries (entries : list (string * gmap string jsval)) (g : t)
    : t * outcome :=
  match entries with
  | [] => (g, Returned)
  | (hexId, hexState) :: rest =>
    let result := updateHexState hexId hexState g in
    match result.2 with
    | Returned => applyEntries rest result.1
    | Thrown e => (result.1, Thrown e)
    end
  end.

Definition batchSize : nat := 10.

(** [processBatch(startIndex)] and the batches it schedules with
    [setTimeout], run one after the other; [fuel] bounds their number.  An
    exception ends the batch before the next one is scheduled. *)
Fixpoint processBatch (fuel : nat) (state : list (string * gmap string jsval))
    (startIndex : nat) (g : t) : t * outcome :=
  match fuel with
  | O => (g, Returned)
  | S fuel' =>
    let endIndex := Nat.min (startIndex + batchSize) (length state) in
    let result := applyEntries (take (endIndex - startIndex) (drop startIndex state)) g in
    match result.2 with
    | Thrown e => result
    | Returned =>
      if (endIndex <? length state)%nat
      then processBatch fuel' state endIndex result.1
      else result
    end
  end.

(** The [roomJoined] callback on the snapshot [state], the entries of the
    object in the order of its keys (the keys of an object are pairwise
    different, so [state[hexIds[i]]] is the value of the [i]-th entry). *)
Definition applyRoomState (state : list (string * gmap string jsval)) (g : t)
    : t * outcome :=
  match state with
  | [] => (g, Returned)
  | _ => processBatch (length state) state 0 g
  end.

(** An entry that [updateHexState] returns from: its id names no property of
    [Object.prototype], and its cell is not on the grid or the entry carries
    a [voxelModel]. *)
Definition returns (g : t) (entry : string * gmap string jsval) : Prop :=
  inherited entry.1 = false
  ∧ (hexMeshes g !! entry.1 = None ∨ truthy (field entry.2 "voxelModel") = true).



End Client.

(** * Properties of the room store *)

Module RoomStore.

Import RoomManager.

(** ** The merge of a delta into a cell *)

Lemma mergeCell_lastUpdated (old : option cell) (action : cell) (now : Z) :
  mergeCell old action now !! "lastUpdated" = Some (JNum (num_of_Z now)).
Proof. unfold mergeCell. apply lookup_insert_eq. Qed.

Lemma mergeCell_present (old : option cell) (action : cell) (now : Z) (name : string) (v : jsval) :
  name ≠ "lastUpdated" → action !! name = Some v →
  mergeCell old action now !! name = Some v.
Proof.
  intros Hne Hin. unfold mergeCell.
  rewrite lookup_insert_ne by congruence.
  by apply lookup_union_Some_l.
Qed.

Lemma mergeCell_absent (old : option cell) (action : cell) (now : Z) (name : string) :
  name ≠ "lastUpdated" → action !! name = None →
  mergeCell old action now !! name = default ∅ old !! name.
Proof.
  intros Hne Hout. unfold mergeCell.
  rewrite lookup_insert_ne by congruence.
  by rewrite lookup_union_r.
Qed.


Lemma updateHexState_missing (now : Z) (roomCode hexId : string) (action : cell) (s : t) :
  rooms s !! roomCode = None →
  updateHexState now roomCode hexId action s = (false, s).
Proof. intros H. unfold updateHexState. by rewrite H. Qed.

Lemma cellOf_updateHexState (now : Z) (roomCode hexId : string) (action : cell)
    (s : t) (room : Room) :
  rooms s !! roomCode = Some room →
  cellOf (updateHexState now roomCode hexId action s).2 roomCode hexId
  = Some (mergeCell (hexState room !! hexId) action now).
Proof.
  intros H. unfold updateHexState, cellOf. rewrite H. simpl.
  rewrite lookup_insert_eq. simpl. by rewrite lookup_insert_eq.
Qed.

(** ** What [updateHexState] does to the stored cell *)

(** C1, as the code has it.  When the room exists, [updateHexState] stores for
    the cell the shallow merge of the delta into the old state: every field of
    the delta replaces the stored field by the delta's value as a whole (for
    [voxelModel]: the whole object, no merge of its sub-fields), every field
    the delta does not have keeps its stored value, except [lastUpdated], which
    is set to the time of the write whatever the delta holds.  In particular
    [{height: 2}] applied to a cell holding [{color: "#00ff00"}] (and a stamp)
    gives [{color: "#00ff00", height: 2, lastUpdated: now}].  The cell id is
    not ["__proto__"], and no write has been made to the room under that id:
    an assignment to [hexState["__proto__"]] stores no cell and replaces the
    prototype of [hexState], from which later reads of unwritten ids
    inherit. *)
Theorem updateHexState_shallow_merge (now : Z) (roomCode hexId : string)
    (action : cell) (s : t) (room : Room) :
  rooms s !! roomCode = Some room →
  hexId ≠ "__proto__" →
  hexState room !! "__proto__" = None →
  let old := default ∅ (hexState room !! hexId) in
  ∃ merged,
    (updateHexState now roomCode hexId action s).1 = true ∧
    cellOf (updateHexState now roomCode hexId action s).2 roomCode hexId = Some merged ∧
    (∀ name v, name ≠ "lastUpdated" → action !! name = Some v → merged !! name = Some v) ∧
    (∀ name, name ≠ "lastUpdated" → action !! name = None → merged !! name = old !! name) ∧
    merged !! "lastUpdated" = Some (JNum (num_of_Z now)) ∧
    (action = {["height" := JNum (Fin 2)]} →
     delete "lastUpdated" old = {["color" := JStr "#00ff00"]} →
     merged = {["color" := JStr "#00ff00"; "height" := JNum (Fin 2);
                "lastUpdated" := JNum (num_of_Z now)]}).
Proof.
  intros Hroom _ _ old.
  exists (mergeCell (hexState room !! hexId) action now).
  split; [by unfold updateHexState; rewrite Hroom|].
  split; [by apply cellOf_updateHexState|].
  split; [intros name v Hne Hin; by apply mergeCell_present|].
  split; [intros name Hne Hout; by apply mergeCell_absent|].
  split; [apply mergeCell_lastUpdated|].
  intros -> Hold. apply map_eq. intros name.
  destruct (decide (name = "lastUpdated")) as [->|Hne].
  { by rewrite mergeCell_lastUpdated. }
  destruct (decide (name = "height")) as [->|Hh].
  { by rewrite (mergeCell_present _ _ _ "height" (JNum (Fin 2))). }
  rewrite mergeCell_absent by (done || by rewrite lookup_singleton_ne).
  fold old. rewrite <- (lookup_delete_ne old "lastUpdated" name) by done.
  rewrite Hold.
  destruct (decide (name = "color")) as [->|Hc]; [done|].
  rewrite !lookup_insert_ne by congruence.
  by rewrite !lookup_singleton_ne by congruence.
Qed.

Lemma updateHexState_shallow_merge_witness :
  rooms (run [CreateRoom (2049 # 4096) 0 "alice";
              UpdateHexState 5 "I0BE29" "0,0" {["color" := JStr "#00ff00"]}])
    !! "I0BE29"
  = Some {| host := "alice"; users := ["alice"];
            hexState := {["0,0" := {["color" := JStr "#00ff00";
                                     "lastUpdated" := JNum (num_of_Z 5)]}]};
            createdAt := 0 |}
  ∧ cellOf (updateHexState 9 "I0BE29" "0,0" {["height" := JNum (Fin 2)]}
              (run [CreateRoom (2049 # 4096) 0 "alice";
                    UpdateHexState 5 "I0BE29" "0,0" {["color" := JStr "#00ff00"]}])).2
      "I0BE29" "0,0"
    = Some {["color" := JStr "#00ff00"; "height" := JNum (Fin 2);
             "lastUpdated" := JNum (num_of_Z 9)]}.
Proof.
  split; [vm_compute; reflexivity|].
  destruct (updateHexState_shallow_merge 9 "I0BE29" "0,0" {["height" := JNum (Fin 2)]}
              (run [CreateRoom (2049 # 4096) 0 "alice";
                    UpdateHexState 5 "I0BE29" "0,0" {["color" := JStr "#00ff00"]}])
              {| host := "alice"; users := ["alice"];
                 hexState := {["0,0" := {["color" := JStr "#00ff00";
                                          "lastUpdated" := JNum (num_of_Z 5)]}]};
                 createdAt := 0 |})
    as (merged & _ & Hcell & _ & _ & _ & Hexample).
  - vm_compute; reflexivity.
  - discriminate.
  - vm_compute; reflexivity.
  - rewrite Hcell. f_equal. apply Hexample; vm_compute; reflexivity.
Defined.

(** C1, as it is worded, fails on the stamp: [lastUpdated] is not a field of
    the delta [{height: 2}], and the write changes it from [5] to [9]; the cell
    that results is not [{color: "#00ff00", height: 2}]. *)
Lemma updateHexState_rewrites_lastUpdated :
  ({["height" := JNum (Fin 2)]} : cell) !! "lastUpdated" = None
  ∧ (cellOf (run [CreateRoom (2049 # 4096) 0 "alice";
                  UpdateHexState 5 "I0BE29" "0,0" {["color" := JStr "#00ff00"]}])
       "I0BE29" "0,0" ≫= (.!! "lastUpdated"))
    = Some (JNum (num_of_Z 5))
  ∧ (cellOf (run [CreateRoom (2049 # 4096) 0 "alice";
                  UpdateHexState 5 "I0BE29" "0,0" {["color" := JStr "#00ff00"]};
                  UpdateHexState 9 "I0BE29" "0,0" {["height" := JNum (Fin 2)]}])
       "I0BE29" "0,0" ≫= (.!! "lastUpdated"))
    = Some (JNum (num_of_Z 9))
  ∧ cellOf (run [CreateRoom (2049 # 4096) 0 "alice";
                 UpdateHexState 5 "I0BE29" "0,0" {["color" := JStr "#00ff00"]};
                 UpdateHexState 9 "I0BE29" "0,0" {["height" := JNum (Fin 2)]}])
      "I0BE29" "0,0"
    ≠ Some {["color" := JStr "#00ff00"; "height" := JNum (Fin 2)]}.
Proof.
  repeat split; try (vm_compute; reflexivity).
  intros H. apply (f_equal (λ c, c ≫= (.!! "lastUpdated"))) in H.
  vm_compute in H. discriminate H.
Qed.



(** ** [joinRoom] *)

Lemma joinRoom_missing (roomCode userId : string) (s : t) :
  rooms s !! roomCode = None →
  joinRoom roomCode userId s
  = (if inherited roomCode
     then JoinTypeError "Cannot read properties of undefined (reading 'push')"
     else JoinFailure "Room not found", s).
Proof. intros H. unfold joinRoom. rewrite H. by destruct (inherited roomCode). Qed.

(** C3.  Under a code that names no room and no property of
    [Object.prototype], [joinRoom] answers
    [{success: false, error: "Room not found"}] and leaves the store as it
    was.  Under ["constructor"], which names no room in any store the server
    can reach, the test [!this.rooms[roomCode]] finds the inherited
    constructor, and the call throws a [TypeError] instead of answering; the
    store is left as it was there too. *)
Theorem joinRoom_constructor_throws :
  (∀ (roomCode userId : string) (s : t),
     rooms s !! roomCode = None → inherited roomCode = false →
     joinRoom roomCode userId s = (JoinFailure "Room not found", s))
  ∧ rooms new !! "constructor" = None
  ∧ joinRoom "constructor" "bob" new
    = (JoinTypeError "Cannot read properties of undefined (reading 'push')", new)
  ∧ rooms (run [CreateRoom (2049 # 4096) 0 "alice"]) !! "constructor" = None
  ∧ joinRoom "constructor" "bob" (run [CreateRoom (2049 # 4096) 0 "alice"])
    = (JoinTypeError "Cannot read properties of undefined (reading 'push')",
       run [CreateRoom (2049 # 4096) 0 "alice"]).
Proof.
  split.
  { intros roomCode userId s Hroom Hkey. by rewrite joinRoom_missing, Hkey. }
  split; [done|]. split; [done|].
  assert (H : rooms (run [CreateRoom (2049 # 4096) 0 "alice"]) !! "constructor" = None)
    by (vm_compute; reflexivity).
  split; [exact H|]. by rewrite (joinRoom_missing _ _ _ H).
Qed.

(** ** [generateRoomCode] *)

(** C5 at [Math.random() = 0.5]: [(0.5).toString(36)] is ["0.i"], the code
    [createRoom] mints and returns is ["I"], one character long. *)
Theorem createRoom_code_of_one_half (now : Z) (userId : string) (s : t) :
  toString36 (1 # 2) = "0.i"
  ∧ (createRoom (1 # 2) now userId s).1 = "I"
  ∧ String.length (createRoom (1 # 2) now userId s).1 = 1%nat.
Proof. repeat split. Qed.

(** What [generateRoomCode] does keep for every draw in [[0, 1)]: at most six
    characters, each of them [A-Z] or [0-9]. *)

Lemma upper_digit36 (d : Z) : (0 ≤ d < 36)%Z → upperAlnum (upper_ascii (digit36 d)).
Proof.
  intros Hd. unfold upperAlnum, upper_ascii, digit36.
  destruct (d <? 10)%Z eqn:Hlt.
  - apply Z.ltb_lt in Hlt.
    rewrite (N_ascii_embedding (Z.to_N (48 + d))) by lia.
    destruct (_ && _)%N eqn:Hrange.
    + apply andb_true_iff in Hrange as [H1 _]. apply N.leb_le in H1. lia.
    + rewrite N_ascii_embedding by lia. lia.
  - apply Z.ltb_ge in Hlt.
    rewrite (N_ascii_embedding (Z.to_N (87 + d))) by lia.
    destruct (_ && _)%N eqn:Hrange.
    + rewrite N_ascii_embedding by lia. lia.
    + apply andb_false_iff in Hrange as [H1|H1]; apply N.leb_gt in H1; lia.
Qed.

Lemma fraction36_digits (fuel : nat) (x : Q) :
  (0 <= x < 1)%Q →
  Forall (λ c, upperAlnum (upper_ascii c)) (fraction36 fuel x).
Proof.
  revert x. induction fuel as [|fuel IH]; intros x Hx; cbn [fraction36]; [done|].
  destruct (Qeq_bool x 0); [done|]. cbv zeta.
  pose proof (Qfloor_le (x * 36)) as Hlo.
  pose proof (Qlt_floor (x * 36)) as Hhi.
  rewrite inject_Z_plus in Hhi. change (inject_Z 1) with 1%Q in Hhi.
  assert (Hd : (0 ≤ Qfloor (x * 36) < 36)%Z).
  { split.
    - change 0%Z with (Qfloor 0). apply Qfloor_resp_le. lra.
    - rewrite Zlt_Qlt. change (inject_Z 36) with 36%Q. lra. }
  constructor.
  - by apply upper_digit36.
  - apply IH. unfold Qminus. lra.
Qed.

Lemma toUpperCase_chars (P : ascii → Prop) (s : string) :
  Forall (λ c, P (upper_ascii c)) (list_ascii_of_string s) →
  Forall P (list_ascii_of_string (toUpperCase s)).
Proof.
  induction s as [|c s IH]; simpl; [done|].
  intros H. apply Forall_cons in H as [Hc Hs]. constructor; [done|by apply IH].
Qed.

Lemma toUpperCase_length (s : string) : String.length (toUpperCase s) = String.length s.
Proof. induction s as [|c s IH]; simpl; [done|]. by rewrite IH. Qed.

Lemma substring_prefix (P : ascii → Prop) (m : nat) (s : string) :
  Forall P (list_ascii_of_string s) →
  (String.length (String.substring 0 m s) ≤ m)%nat
  ∧ Forall P (list_ascii_of_string (String.substring 0 m s)).
Proof.
  revert s. induction m as [|m IH]; intros s Hs.
  - by destruct s.
  - destruct s as [|c s]; simpl; [split; [lia|done]|].
    apply Forall_cons in Hs as [Hc Hs].
    destruct (IH s Hs) as [Hlen Hall]. split; [lia|by constructor].
Qed.

Lemma js_substring_fraction (s : string) :
  js_substring 2 8 ("0." +:+ s) = String.substring 0 6 s.
Proof. reflexivity. Qed.

(** X11.  For every draw of [Math.random()] in [[0, 1)] the code
    [generateRoomCode] mints has at most six characters, each of them a digit
    or an upper-case letter. *)
Lemma generateRoomCode_shape (rnd : Q) :
  (0 <= rnd < 1)%Q →
  (String.length (generateRoomCode rnd) ≤ 6)%nat
  ∧ Forall upperAlnum (list_ascii_of_string (generateRoomCode rnd)).
Proof.
  intros Hrnd. unfold generateRoomCode, toString36.
  rewrite toUpperCase_length.
  destruct (Qeq_bool rnd 0).
  { split; [cbn; lia|constructor]. }
  rewrite js_substring_fraction.
  pose proof (fraction36_digits 27 rnd Hrnd) as Hdigits.
  rewrite <- (list_ascii_of_string_of_list_ascii (fraction36 27 rnd)) in Hdigits.
  destruct (substring_prefix _ 6 _ Hdigits) as [Hlen Hall].
  split; [done|]. by apply toUpperCase_chars.
Qed.

(** ** Membership *)

(** C4 on a collision: two [createRoom] calls whose random draws agree mint the
    same code; the second room replaces the first, and the first creator keeps
    the code in the user index without being a member of the room. *)
Theorem createRoom_collision_breaks_membership :
  reachable (run [CreateRoom (2049 # 4096) 0 "alice"; CreateRoom (2049 # 4096) 1 "bob"])
  ∧ rooms (run [CreateRoom (2049 # 4096) 0 "alice"; CreateRoom (2049 # 4096) 1 "bob"])
      !! "I0BE29"
    = Some {| host := "bob"; users := ["bob"]; hexState := ∅; createdAt := 1 |}
  ∧ roomsOf (run [CreateRoom (2049 # 4096) 0 "alice"; CreateRoom (2049 # 4096) 1 "bob"])
      "alice" = ["I0BE29"]
  ∧ ¬ consistent (run [CreateRoom (2049 # 4096) 0 "alice"; CreateRoom (2049 # 4096) 1 "bob"]).
Proof.
  split; [by eexists|].
  split; [vm_compute; reflexivity|].
  split; [vm_compute; reflexivity|].
  intros Hc.
  destruct (Hc "I0BE29" {| host := "bob"; users := ["bob"]; hexState := ∅; createdAt := 1 |})
    as [_ Hiff]; [vm_compute; reflexivity|].
  assert (Hin : "alice" ∈ ["bob"]).
  { apply (Hiff "alice"). vm_compute. apply list_elem_of_here. }
  apply list_elem_of_singleton in Hin. discriminate Hin.
Qed.

(** ** Membership along runs without collisions

    The invariant of C4 is what the code keeps as long as [createRoom] never
    mints the code of an existing room. *)

Lemma roomsOf_insert (s : t) (rs : gmap string Room) (userId other : string) (l : list string) :
  roomsOf {| rooms := rs; userRooms := <[userId := l]> (userRooms s) |} other
  = if decide (userId = other) then l else roomsOf s other.
Proof.
  unfold roomsOf. simpl. rewrite lookup_insert.
  by destruct (decide (userId = other)).
Qed.

Lemma roomsOf_delete (s : t) (rs : gmap string Room) (userId other : string) :
  roomsOf {| rooms := rs; userRooms := delete userId (userRooms s) |} other
  = if decide (userId = other) then [] else roomsOf s other.
Proof.
  unfold roomsOf. simpl. rewrite lookup_delete.
  by destruct (decide (userId = other)).
Qed.

Lemma withoutUser_users (userId : string) (room room' : Room) :
  withoutUser userId room = Some room' →
  users room' = filter (λ id, id ≠ userId) (users room) ∧ users room' ≠ [].
Proof.
  unfold withoutUser.
  destruct (filter _ (users room)) as [|x l] eqn:Hf; simpl; [done|].
  by intros [= <-].
Qed.

Lemma withoutUser_member (userId other : string) (room : Room) :
  other ≠ userId → other ∈ users room → is_Some (withoutUser userId room).
Proof.
  intros Hne Hin. unfold withoutUser.
  assert (Hf : other ∈ filter (λ id, id ≠ userId) (users room)).
  { by apply list_elem_of_filter. }
  destruct (filter _ (users room)) as [|x l]; simpl; [|by eexists].
  by apply not_elem_of_nil in Hf.
Qed.

Lemma withoutUser_twice (userId : string) (o : option Room) :
  (o ≫= withoutUser userId) ≫= withoutUser userId = o ≫= withoutUser userId.
Proof.
  destruct o as [room|]; simpl; [|done].
  destruct (withoutUser userId room) as [room'|] eqn:Hw; simpl; [|done].
  destruct (withoutUser_users _ _ _ Hw) as [Hus Hne].
  unfold withoutUser in *.
  destruct (filter _ (users room)) as [|x l] eqn:Hf; simpl in *; [done|].
  injection Hw as <-. simpl.
  assert (Hidem : filter (λ id, id ≠ userId) (x :: l) = x :: l).
  { rewrite <- Hf. apply list_filter_filter_l. done. }
  by rewrite Hidem.
Qed.

Lemma leaveRoom_lookup (userId : string) (acc : gmap string Room * list string)
    (roomCode other : string) :
  (leaveRoom userId acc roomCode).1 !! other
  = if decide (other = roomCode) then acc.1 !! other ≫= withoutUser userId
    else acc.1 !! other.
Proof.
  unfold leaveRoom, withoutUser.
  destruct (decide (other = roomCode)) as [->|Hne].
  - destruct (acc.1 !! roomCode) as [room|] eqn:Hroom; simpl; [|done].
    destruct (length _ =? 0)%nat; simpl.
    + apply lookup_delete_eq.
    + apply lookup_insert_eq.
  - destruct (acc.1 !! roomCode) as [room|] eqn:Hroom; simpl; [|done].
    destruct (length _ =? 0)%nat; simpl.
    + by apply lookup_delete_ne.
    + by apply lookup_insert_ne.
Qed.

(** The room table after the loop of [removeUserFromRooms]. *)
Lemma leaveRooms_lookup (userId : string) (codes : list string)
    (acc : gmap string Room * list string) (other : string) :
  (foldl (leaveRoom userId) acc codes).1 !! other
  = if decide (other ∈ codes) then acc.1 !! other ≫= withoutUser userId
    else acc.1 !! other.
Proof.
  revert acc. induction codes as [|code codes IH]; intros acc; simpl.
  - destruct (decide (other ∈ [])) as [Hin|_]; [|done].
    by apply not_elem_of_nil in Hin.
  - rewrite IH, leaveRoom_lookup.
    destruct (decide (other = code)) as [->|Hne].
    + rewrite withoutUser_twice.
      destruct (decide (code ∈ codes)), (decide (code ∈ code :: codes)) as [|Hn];
        try done; exfalso; apply Hn; apply list_elem_of_here.
    + destruct (decide (other ∈ codes)) as [Hin|Hout],
               (decide (other ∈ code :: codes)) as [Hin'|Hout']; try done.
      * exfalso. apply Hout'. by apply list_elem_of_further.
      * exfalso. apply elem_of_cons in Hin' as [?|?]; done.
Qed.

Lemma createRoom_keeps (rnd : Q) (now : Z) (userId : string) (s : t) :
  rooms s !! generateRoomCode rnd = None →
  consistent s → indexed s →
  consistent (createRoom rnd now userId s).2 ∧ indexed (createRoom rnd now userId s).2.
Proof.
  intros Hfresh Hc Hi. unfold createRoom. set (code := generateRoomCode rnd) in *.
  simpl. split.
  - intros code' room' Hroom'. simpl in Hroom'.
    rewrite lookup_insert in Hroom'.
    destruct (decide (code = code')) as [<-|Hne].
    + injection Hroom' as <-. simpl. split; [done|].
      intros other. rewrite roomsOf_insert, list_elem_of_singleton.
      destruct (decide (userId = other)) as [<-|Hother].
      * rewrite elem_of_app, list_elem_of_singleton. naive_solver.
      * split; [congruence|]. intros Hin.
        apply Hi in Hin as [room Hroom]. congruence.
    + destruct (Hc code' room' Hroom') as [Hne' Hiff]. split; [done|].
      intros other. rewrite Hiff, roomsOf_insert.
      destruct (decide (userId = other)) as [<-|Hother]; [|done].
      rewrite elem_of_app, list_elem_of_singleton. naive_solver.
  - intros other code'. rewrite roomsOf_insert. simpl. intros Hin.
    rewrite lookup_insert.
    destruct (decide (code = code')) as [<-|Hne]; [by eexists|].
    apply (Hi other).
    destruct (decide (userId = other)) as [<-|Hother]; [|done].
    apply elem_of_app in Hin as [Hin|Hin]; [done|].
    apply list_elem_of_singleton in Hin. congruence.
Qed.

Lemma joinRoom_keeps (roomCode userId : string) (s : t) :
  consistent s → indexed s →
  consistent (joinRoom roomCode userId s).2 ∧ indexed (joinRoom roomCode userId s).2.
Proof.
  intros Hc Hi. unfold joinRoom.
  destruct (rooms s !! roomCode) as [room|] eqn:Hroom;
    [|by destruct (inherited roomCode)].
  simpl. split.
  - intros code' room' Hroom'. simpl in Hroom'.
    rewrite lookup_insert in Hroom'.
    destruct (Hc roomCode room Hroom) as [_ Hiff].
    destruct (decide (roomCode = code')) as [<-|Hne].
    + injection Hroom' as <-. simpl. split.
      { intros Hnil. by apply app_eq_nil in Hnil as [_ ?]. }
      intros other. rewrite roomsOf_insert, elem_of_app, list_elem_of_singleton, Hiff.
      destruct (decide (userId = other)) as [<-|Hother].
      * rewrite elem_of_app, list_elem_of_singleton. naive_solver.
      * naive_solver.
    + destruct (Hc code' room' Hroom') as [Hne' Hiff']. split; [done|].
      intros other. rewrite Hiff', roomsOf_insert.
      destruct (decide (userId = other)) as [<-|Hother]; [|done].
      rewrite elem_of_app, list_elem_of_singleton. naive_solver.
  - intros other code'. rewrite roomsOf_insert. simpl. intros Hin.
    rewrite lookup_insert.
    destruct (decide (roomCode = code')) as [<-|Hne]; [by eexists|].
    apply (Hi other).
    destruct (decide (userId = other)) as [<-|Hother]; [|done].
    apply elem_of_app in Hin as [Hin|Hin]; [done|].
    apply list_elem_of_singleton in Hin. congruence.
Qed.

Lemma updateHexState_keeps (now : Z) (roomCode hexId : string) (action : cell) (s : t) :
  consistent s → indexed s →
  consistent (updateHexState now roomCode hexId action s).2
  ∧ indexed (updateHexState now roomCode hexId action s).2.
Proof.
  intros Hc Hi. unfold updateHexState.
  destruct (rooms s !! roomCode) as [room|] eqn:Hroom; [|done].
  simpl. split.
  - intros code' room' Hroom'. simpl in Hroom'.
    rewrite lookup_insert in Hroom'.
    destruct (decide (roomCode = code')) as [<-|Hne].
    + injection Hroom' as <-. simpl. apply (Hc roomCode room Hroom).
    + apply (Hc code' room' Hroom').
  - intros other code' Hin. simpl. rewrite lookup_insert.
    destruct (decide (roomCode = code')) as [<-|Hne]; [by eexists|].
    by apply (Hi other).
Qed.

Lemma removeUserFromRooms_keeps (userId : string) (s : t) :
  consistent s → indexed s →
  consistent (removeUserFromRooms userId s).2 ∧ indexed (removeUserFromRooms userId s).2.
Proof.
  intros Hc Hi. unfold removeUserFromRooms.
  destruct (userRooms s !! userId) as [codes|] eqn:Hcodes; [|done].
  assert (Hof : roomsOf s userId = codes) by (unfold roomsOf; by rewrite Hcodes).
  simpl. split.
  - intros code room' Hroom'. simpl in Hroom'.
    rewrite leaveRooms_lookup in Hroom'. simpl in Hroom'.
    destruct (decide (code ∈ codes)) as [Hin|Hout].
    + destruct (rooms s !! code) as [room|] eqn:Hroom; [|done]. simpl in Hroom'.
      destruct (withoutUser_users _ _ _ Hroom') as [Hus Hne].
      destruct (Hc code room Hroom) as [_ Hiff].
      split; [done|]. intros other.
      rewrite roomsOf_delete, Hus, list_elem_of_filter, Hiff.
      destruct (decide (userId = other)) as [<-|Hother].
      * split; [naive_solver|]. intros Hnil. by apply not_elem_of_nil in Hnil.
      * naive_solver.
    + destruct (Hc code room' Hroom') as [Hne Hiff]. split; [done|].
      intros other. rewrite roomsOf_delete, Hiff.
      destruct (decide (userId = other)) as [<-|Hother]; [|done].
      rewrite Hof. split; [done|]. intros Hnil. by apply not_elem_of_nil in Hnil.
  - intros other code. rewrite roomsOf_delete. simpl.
    destruct (decide (userId = other)) as [<-|Hother].
    { intros Hnil. by apply not_elem_of_nil in Hnil. }
    intros Hin. rewrite leaveRooms_lookup. simpl.
    destruct (Hi other code Hin) as [room Hroom].
    destruct (decide (code ∈ codes)); rewrite Hroom; [|by eexists].
    simpl. apply (withoutUser_member userId other); [congruence|].
    by apply (Hc code room Hroom).
Qed.

Lemma step_keeps (s : t) (o : op) :
  mintsFreshCode s o → consistent s → indexed s →
  consistent (step s o) ∧ indexed (step s o).
Proof.
  destruct o; simpl; intros Hfresh Hc Hi.
  - by apply createRoom_keeps.
  - by apply joinRoom_keeps.
  - by apply updateHexState_keeps.
  - by apply removeUserFromRooms_keeps.
Qed.

Lemma run_keeps (ops : list op) (s : t) :
  collisionFree s ops → consistent s → indexed s →
  consistent (foldl step s ops) ∧ indexed (foldl step s ops).
Proof.
  revert s. induction ops as [|o ops IH]; intros s; simpl; [done|].
  intros [Hfresh Hrest] Hc Hi.
  destruct (step_keeps s o Hfresh Hc Hi) as [Hc' Hi'].
  by apply IH.
Qed.

(** X12.  Every run from the empty store whose [createRoom] calls mint codes
    that are not in use ends in a store with no empty room and with member
    lists and user index in agreement. *)
Theorem collisionFree_consistent (ops : list op) :
  collisionFree new ops → consistent (run ops).
Proof.
  intros Hfree. apply (run_keeps ops new Hfree).
  - intros code room Hroom. simpl in Hroom. by rewrite lookup_empty in Hroom.
  - intros userId code Hin. unfold roomsOf in Hin. simpl in Hin.
    rewrite lookup_empty in Hin. by apply not_elem_of_nil in Hin.
Qed.

End RoomStore.

(** * Properties of the hexagonal region *)

Module HexRegion.

Import HexUtils.

Local Open Scope Z_scope.










(** ** Sums that are exact *)








End HexRegion.

(** * Results that stay in the range of doubles *)

Module Doubles.

Import JSNumber.

Local Open Scope Q_scope.

Lemma fin_finite (q : Q) : Qabs q < overflowThreshold → fin q = Fin q.
Proof.
  intros H. unfold fin.
  destruct (Qle_bool overflowThreshold (Qabs q)) eqn:E; [|done].
  apply Qle_bool_iff in E. exfalso. by apply (Qlt_not_le _ _ H).
Qed.

(** A result whose magnitude is at most [c], a number below the threshold. *)
Lemma fin_within (c q : Q) :
  Qabs q <= c → Qle_bool overflowThreshold c = false → fin q = Fin q.
Proof.
  intros Hq Hc. apply fin_finite.
  apply (Qle_lt_trans _ c); [done|].
  apply Qnot_le_lt. intros H. apply Qle_bool_iff in H. congruence.
Qed.

Lemma fin_overflow (q : Q) :
  overflowThreshold <= Qabs q → fin q = Inf (Qnegative q).
Proof. intros H. unfold fin. apply Qle_bool_iff in H. by rewrite H. Qed.

Lemma add_Fin (x y : Q) : (Fin x + Fin y)%num = fin (x + y).
Proof. reflexivity. Qed.

Lemma sub_Fin (x y : Q) : (Fin x - Fin y)%num = fin (x + - y).
Proof. reflexivity. Qed.

Lemma mul_Fin (x y : Q) : (Fin x * Fin y)%num = fin (x * y).
Proof. reflexivity. Qed.

Lemma neg_Fin (x : Q) : (- Fin x)%num = Fin (- x).
Proof. reflexivity. Qed.

Lemma div_Fin (x y : Q) : ¬ y == 0 → (Fin x / Fin y)%num = fin (x / y).
Proof.
  intros Hy. unfold div, Qzero.
  destruct (Qeq_bool y 0) eqn:E; [|done]. by apply Qeq_bool_iff in E.
Qed.

Lemma Qfloor_unique (y : Q) (k : Z) :
  inject_Z k <= y < inject_Z k + 1 → Qfloor y = k.
Proof.
  intros [Hlo Hhi].
  pose proof (Qfloor_le y) as Hfl. pose proof (Qlt_floor y) as Hfu.
  rewrite inject_Z_plus in Hfu. change (inject_Z 1) with 1 in Hfu.
  assert (H1 : (Qfloor y < k + 1)%Z).
  { rewrite Zlt_Qlt, inject_Z_plus. change (inject_Z 1) with 1. lra. }
  assert (H2 : (k < Qfloor y + 1)%Z).
  { rewrite Zlt_Qlt, inject_Z_plus. change (inject_Z 1) with 1. lra. }
  lia.
Qed.

(** ** Sums that are rounded *)

(** Numbers that are equal are rounded to the same double. *)
Lemma roundDouble_comp (q q' : Q) : q == q' → roundDouble q = roundDouble q'.
Proof. intros H. unfold roundDouble. by rewrite (Qred_complete q q' H). Qed.

Lemma Qred_integer (z : Z) : Qred (inject_Z z) = inject_Z z.
Proof.
  pose proof (gcd_Qred (inject_Z z)) as G.
  pose proof (Qred_correct (inject_Z z)) as E.
  destruct (Qred (inject_Z z)) as [n d].
  unfold Qeq in E. cbn [Qnum Qden inject_Z] in *.
  rewrite Z.mul_1_r in E. subst n.
  rewrite Z.gcd_comm, Z.mul_comm, Z.gcd_mul_diag_l in G by lia.
  assert (d = 1%positive) as -> by lia.
  unfold inject_Z. f_equal. lia.
Qed.

Lemma pow2_shift (e : Z) :
  (0 ≤ e)%Z → / pow2 (- e) == inject_Z (2 ^ e).
Proof.
  intros He. unfold pow2. destruct (Z.leb_spec 0 (- e)) as [H|H].
  - assert (e = 0%Z) as -> by lia. reflexivity.
  - rewrite Z.opp_involutive. apply Qinv_involutive.
Qed.

(** An integer below [2^53] in magnitude is a double. *)
Lemma roundDouble_integer (q : Q) (z : Z) :
  q == inject_Z z → (Z.abs z < 2 ^ 53)%Z → roundDouble q == inject_Z z.
Proof.
  intros Hq Hz. rewrite (roundDouble_comp q (inject_Z z) Hq). unfold roundDouble.
  rewrite Qred_integer.
  destruct (Qeq_bool (inject_Z z) 0) eqn:E0.
  { apply Qeq_bool_iff in E0. by rewrite E0. }
  assert (Hnz : z ≠ 0%Z).
  { intros ->. discriminate E0. }
  cbv zeta. rewrite Qred_correct.
  set (a := Z.log2 (Z.abs z)).
  assert (Ha : (0 ≤ a < 53)%Z).
  { split; [apply Z.log2_nonneg|]. apply Z.log2_lt_pow2; lia. }
  assert (Hspec : (2 ^ a ≤ Z.abs z)%Z) by (apply Z.log2_spec; lia).
  assert (Eexp : exponent (inject_Z z) = a).
  { unfold exponent. cbn [Qnum Qden inject_Z]. change (Z.log2 1) with 0%Z.
    rewrite Z.sub_0_r. fold a.
    assert (Qle_bool (pow2 a) (Qabs (inject_Z z)) = true) as ->; [|done].
    apply Qle_bool_iff. unfold pow2.
    destruct (Z.leb_spec 0 a); [|lia].
    assert (Qabs (inject_Z z) == inject_Z (Z.abs z)) as -> by reflexivity.
    by rewrite <- Zle_Qle. }
  rewrite Eexp, Z.max_l by lia.
  set (s := (52 - a)%Z).
  replace (a - 52)%Z with (- s)%Z by lia.
  assert (Hs : (0 ≤ s)%Z) by lia.
  pose proof (pow2_shift s Hs) as Hp.
  assert (Hpos : 0 < inject_Z (2 ^ s)) by (rewrite <- (Zlt_Qlt 0); lia).
  assert (Hm : inject_Z z / pow2 (- s) == inject_Z (z * 2 ^ s)).
  { unfold Qdiv. by rewrite Hp, inject_Z_mult. }
  assert (Ef : Qfloor (inject_Z z / pow2 (- s)) = (z * 2 ^ s)%Z).
  { apply Qfloor_unique. rewrite Hm. lra. }
  rewrite Ef.
  set (rest := inject_Z z / pow2 (- s) - inject_Z (z * 2 ^ s)).
  assert (Hrest : rest == 0) by (unfold rest; rewrite Hm; ring).
  assert (Qle_bool rest (1 # 2) = true) as ->.
  { apply Qle_bool_iff. rewrite Hrest. discriminate. }
  assert (Qeq_bool rest (1 # 2) = false) as ->.
  { destruct (Qeq_bool rest (1 # 2)) eqn:E; [|done].
    apply Qeq_bool_iff in E. rewrite Hrest in E. discriminate E. }
  rewrite <- Hm. unfold Qdiv. rewrite <- Qmult_assoc, (Qmult_comm (/ _)).
  rewrite Qmult_inv_r, Qmult_1_r; [reflexivity|].
  intros Ez. rewrite Ez in Hp. change (/ 0) with 0 in Hp. lra.
Qed.

(** ** Bounds of magnitudes *)

Lemma bound_add (a b A B : Q) : Qabs a <= A → Qabs b <= B → Qabs (a + b) <= A + B.
Proof.
  intros Ha Hb. apply (Qle_trans _ (Qabs a + Qabs b)); [apply Qabs_triangle|].
  by apply Qplus_le_compat.
Qed.

Lemma bound_opp (a A : Q) : Qabs a <= A → Qabs (- a) <= A.
Proof. by rewrite Qabs_opp. Qed.

Lemma bound_sub (a b A B : Q) : Qabs a <= A → Qabs b <= B → Qabs (a - b) <= A + B.
Proof. intros Ha Hb. apply bound_add; [done|by apply bound_opp]. Qed.

Lemma bound_mul (a b A B : Q) : Qabs a <= A → Qabs b <= B → Qabs (a * b) <= A * B.
Proof.
  intros Ha Hb. rewrite Qabs_Qmult.
  apply Qmult_le_compat_nonneg; split; (apply Qabs_nonneg || assumption).
Qed.

(** The magnitude of a quotient by a number of magnitude at least [L]. *)
Lemma bound_div (a b A L : Q) :
  Qabs a <= A → 0 < L → L <= Qabs b → Qabs (a / b) <= A / L.
Proof.
  intros Ha HL Hb.
  assert (Hbpos : 0 < Qabs b) by (by apply (Qlt_le_trans _ L)).
  assert (Hbnz : ¬ b == 0).
  { intros E. rewrite E in Hbpos. by apply (Qlt_irrefl 0). }
  assert (HA : 0 <= A) by (apply (Qle_trans _ (Qabs a)); [apply Qabs_nonneg|done]).
  unfold Qdiv. rewrite Qabs_Qmult.
  assert (Hinv : Qabs (/ b) <= / L).
  { rewrite Qabs_Qinv. apply Qle_shift_inv_l; [done|].
    assert (Hi : 0 < / Qabs b) by (by apply Qinv_lt_0_compat).
    apply (Qle_trans _ (/ Qabs b * Qabs b)).
    - by apply (proj2 (Qmult_le_l L (Qabs b) (/ Qabs b) Hi)).
    - rewrite Qmult_comm, Qmult_inv_r; [apply Qle_refl|].
      intros E. rewrite E in Hbpos. by apply (Qlt_irrefl 0). }
  apply Qmult_le_compat_nonneg; split;
    (apply Qabs_nonneg || assumption).
Qed.

(** [Math.floor] and [Math.round] move a number by less than one. *)
Lemma bound_floor (a A : Q) : Qabs a <= A → Qabs (inject_Z (Qfloor a)) <= A + 1.
Proof.
  intros H. apply Qabs_Qle_condition in H. apply Qabs_Qle_condition.
  pose proof (Qfloor_le a) as Hlo. pose proof (Qlt_floor a) as Hhi.
  rewrite inject_Z_plus in Hhi. change (inject_Z 1) with 1 in Hhi. lra.
Qed.

Lemma bound_range (a A : Q) : - A <= a <= A → Qabs a <= A.
Proof. intros H. by apply Qabs_Qle_condition. Qed.

Lemma bound_unit (a : Q) : 0 <= a <= 1 → Qabs a <= 1.
Proof. intros [H0 H1]. apply Qabs_Qle_condition. split; [|done]. lra. Qed.

(** The magnitude of an expression, from the magnitudes of its variables. *)
Ltac bound :=
  first
    [ eassumption
    | lazymatch goal with
      | |- Qabs (?a + ?b) <= _ => eapply (bound_add a b); bound
      | |- Qabs (?a - ?b) <= _ => eapply (bound_sub a b); bound
      | |- Qabs (?a * ?b) <= _ => eapply (bound_mul a b); bound
      | |- Qabs (?a / ?b) <= _ =>
        change (a / b) with (a * / b); eapply (bound_mul a (/ b)); bound
      | |- Qabs (- ?a) <= _ => eapply (bound_opp a); bound
      | |- Qabs (inject_Z (Qfloor ?a)) <= _ => eapply (bound_floor a); bound
      | |- Qabs _ <= _ => apply Qle_refl
      end ].

(** [fin q] is [Fin q] when the bound of [q] is below the threshold. *)
Ltac finite :=
  match goal with
  | |- context [fin ?q] =>
    let H := fresh in
    assert (H : fin q = Fin q)
      by (eapply (fin_within _ q); [bound|vm_compute; reflexivity]);
    rewrite H; clear H
  end.

(** A quotient by a number that is not zero. *)
Ltac quotient :=
  match goal with
  | |- context [(Fin ?x / Fin ?y)%num] =>
    rewrite (div_Fin x y) by (discriminate || assumption)
  end.

Ltac arith :=
  repeat first [rewrite add_Fin | rewrite sub_Fin | rewrite mul_Fin | rewrite neg_Fin
               | quotient | finite].

End Doubles.

(** * Properties of the noise generator *)

Module Noise.

Import JSNumber NoiseGenerator Doubles.

Local Arguments mulberry32 : simpl never.
Local Arguments generatePermutation : simpl never.

(** ** The random generator *)

Lemma truncate_comp (x y : Q) : x == y → truncate x = truncate y.
Proof.
  unfold Qeq, truncate. intros H.
  rewrite <- (Z.quot_mul_cancel_r (Qnum x) (Zpos (Qden x)) (Zpos (Qden y))) by done.
  rewrite H.
  rewrite (Z.mul_comm (Zpos (Qden x)) (Zpos (Qden y))).
  by rewrite Z.quot_mul_cancel_r.
Qed.

(** The value [random()] returns depends on the number held in [a], not on
    the way the rational is written. *)
Lemma mulberry32_comp (a b : Q) :
  a == b → (mulberry32 a).1 = (mulberry32 b).1 ∧ (mulberry32 a).2 == (mulberry32 b).2.
Proof.
  intros H. unfold mulberry32. cbn [fst snd].
  assert (Hsum : (a + inject_Z 1831565813 == b + inject_Z 1831565813)%Q) by (by rewrite H).
  by rewrite (roundDouble_comp _ _ Hsum).
Qed.

(** [random()] returns a number in [[0, 1)]. *)
Lemma mulberry32_range (a : Q) : (0 <= (mulberry32 a).1 < 1)%Q.
Proof.
  unfold mulberry32. cbn [fst snd].
  set (u := wrapUint32 _).
  assert (Hu : (0 ≤ u < 4294967296)%Z).
  { subst u. unfold wrapUint32. apply Z.mod_pos_bound. done. }
  unfold Qdiv, Qle, Qlt. simpl. lia.
Qed.

(** The index [j] the shuffle draws for [i] is at most [i]. *)
Lemma shuffle_index_bound (a : Q) (i : nat) :
  (Z.to_nat (Qfloor ((mulberry32 a).1 * inject_Z (Z.of_nat i + 1))) ≤ i)%nat.
Proof.
  destruct (mulberry32_range a) as [H0 H1].
  set (v := (mulberry32 a).1) in *.
  assert (Hi : (0 < inject_Z (Z.of_nat i + 1))%Q).
  { change 0%Q with (inject_Z 0). rewrite <- Zlt_Qlt. lia. }
  assert (Hlt : (v * inject_Z (Z.of_nat i + 1) < inject_Z (Z.of_nat i + 1))%Q) by nra.
  pose proof (Qfloor_le (v * inject_Z (Z.of_nat i + 1))) as Hfl.
  assert (Hz : (Qfloor (v * inject_Z (Z.of_nat i + 1)) < Z.of_nat i + 1)%Z).
  { rewrite Zlt_Qlt. lra. }
  lia.
Qed.

(** ** The permutation table *)

Lemma shuffleStep_comp (p : jsarray) (a b : Q) (i : nat) :
  a == b →
  (shuffleStep (p, a) i).1 = (shuffleStep (p, b) i).1
  ∧ (shuffleStep (p, a) i).2 == (shuffleStep (p, b) i).2.
Proof.
  intros H. destruct (mulberry32_comp a b H) as [Hv Ha].
  unfold shuffleStep. cbn [fst snd]. rewrite Hv. split; [reflexivity|exact Ha].
Qed.

Lemma shuffle_comp (indices : list nat) (p : jsarray) (a b : Q) :
  a == b →
  (foldl shuffleStep (p, a) indices).1 = (foldl shuffleStep (p, b) indices).1.
Proof.
  revert p a b. induction indices as [|i indices IH]; intros p a b H; simpl; [done|].
  destruct (shuffleStep_comp p a b i H) as [Hp Ha].
  destruct (shuffleStep (p, a) i) as [p1 a1], (shuffleStep (p, b) i) as [p2 b1].
  simpl in *. subst p2. by apply IH.
Qed.

(** Seeds that are the same number give the same table. *)
Lemma generatePermutation_comp (seed1 seed2 : Q) :
  seed1 == seed2 → generatePermutation seed1 = generatePermutation seed2.
Proof.
  intros H. unfold generatePermutation.
  by rewrite (shuffle_comp _ _ seed1 seed2 H).
Qed.

Lemma lowerHalf_aget (p : jsarray) (l : list Z) (i : nat) (z : Z) :
  lowerHalf p l → l !! i = Some z → aget p i = Some z.
Proof.
  intros [-> Hlen] Hi. unfold aget.
  rewrite lookup_app_l by (rewrite length_fmap; by eapply lookup_lt_Some).
  by rewrite list_lookup_fmap, Hi.
Qed.

(** A turn of the shuffle exchanges two of the numbers. *)
Lemma shuffleStep_lowerHalf (p : jsarray) (l : list Z) (a : Q) (i : nat) :
  lowerHalf p l → (i < 256)%nat →
  ∃ l', lowerHalf (shuffleStep (p, a) i).1 l' ∧ l' ≡ₚ l.
Proof.
  intros Hp Hi. pose proof Hp as [Heq Hlen].
  pose proof (shuffle_index_bound a i) as Hj.
  unfold shuffleStep. cbn [fst snd].
  set (j := Z.to_nat _) in *.
  destruct (lookup_lt_is_Some_2 l i) as [li Hli]; [lia|].
  destruct (lookup_lt_is_Some_2 l j) as [lj Hlj]; [lia|].
  rewrite (lowerHalf_aget p l i li), (lowerHalf_aget p l j lj) by done.
  exists (<[j := li]> (<[i := lj]> l)). split.
  - split; [|by rewrite !length_insert].
    rewrite Heq.
    rewrite insert_app_l by (rewrite length_fmap; lia).
    rewrite insert_app_l by (rewrite length_insert, length_fmap; lia).
    by rewrite !list_fmap_insert.
  - by apply Permutation_insert_swap.
Qed.

Lemma shuffle_lowerHalf (indices : list nat) (p : jsarray) (l : list Z) (a : Q) :
  Forall (λ i, (i < 256)%nat) indices → lowerHalf p l →
  ∃ l', lowerHalf (foldl shuffleStep (p, a) indices).1 l' ∧ l' ≡ₚ l.
Proof.
  revert p l a. induction indices as [|i indices IH]; intros p l a Hall Hp; simpl.
  - by exists l.
  - apply Forall_cons in Hall as [Hi Hall].
    destruct (shuffleStep_lowerHalf p l a i Hp Hi) as (l1 & Hp1 & Hperm1).
    destruct (shuffleStep (p, a) i) as [p1 a1]. simpl in Hp1.
    destruct (IH p1 l1 a1 Hall Hp1) as (l2 & Hp2 & Hperm2).
    exists l2. split; [done|]. by etrans.
Qed.

(** The last loop, [k] turns in: the first [k] numbers are copied. *)
Lemma copy_lowerHalf (p : jsarray) (l : list Z) (k : nat) :
  lowerHalf p l → (k ≤ 256)%nat →
  foldl (λ p i, <[(i + 256)%nat := aget p i]> p) p (seq 0 k)
  = (Some <$> l) ++ (Some <$> take k l) ++ replicate (256 - k) None.
Proof.
  intros [-> Hlen]. induction k as [|k IH]; intros Hk.
  - by rewrite take_0.
  - rewrite seq_S, foldl_app, IH by lia. simpl.
    destruct (lookup_lt_is_Some_2 l k) as [lk Hlk]; [lia|].
    unfold aget. rewrite lookup_app_l by (rewrite length_fmap; lia).
    rewrite list_lookup_fmap, Hlk. simpl.
    rewrite insert_app_r_alt by (rewrite length_fmap; lia).
    rewrite length_fmap, Hlen.
    replace (k + 256 - 256)%nat with k by lia.
    rewrite insert_app_r_alt by (rewrite length_fmap, length_take; lia).
    rewrite length_fmap, length_take.
    replace (k - k `min` length l)%nat with 0%nat by lia.
    replace (256 - k)%nat with (S (256 - S k)) by lia. simpl.
    rewrite (take_S_r l k lk) by done.
    rewrite fmap_app. simpl. by rewrite <- !app_assoc.
Qed.

(** The table [generatePermutation] builds: a rearrangement of [0 .. 255],
    twice. *)
Lemma generatePermutation_shape (seed : Q) :
  ∃ l : list Z,
    generatePermutation seed = (Some <$> l) ++ (Some <$> l)
    ∧ l ≡ₚ seqZ 0 256.
Proof.
  unfold generatePermutation.
  set (p0 := foldl _ (replicate 512 None) (seq 0 256)).
  assert (H0 : lowerHalf p0 (seqZ 0 256)) by (split; vm_compute; reflexivity).
  destruct (shuffle_lowerHalf (reverse (seq 1 255)) p0 (seqZ 0 256) seed) as (l & Hl & Hperm);
    [|done|].
  { apply Forall_forall. intros i Hi.
    apply elem_of_reverse, elem_of_seq in Hi. lia. }
  exists l. split; [|done].
  rewrite (copy_lowerHalf _ l 256 Hl) by lia.
  destruct Hl as [_ Hlen].
  rewrite firstn_all2 by lia. simpl. by rewrite app_nil_r.
Qed.

Lemma generatePermutation_ready (seed : Q) : tableReady (generatePermutation seed).
Proof.
  destruct (generatePermutation_shape seed) as (l & -> & Hperm).
  assert (Hlen : length l = 256%nat).
  { by rewrite Hperm, length_seqZ. }
  assert (Hval : ∀ i z, l !! i = Some z → (0 ≤ z < 256)%Z).
  { intros i z Hi. apply list_elem_of_lookup_2 in Hi.
    rewrite Hperm in Hi. apply elem_of_seqZ in Hi. lia. }
  intros i Hi. unfold aget.
  destruct (decide (i < 256)%nat) as [Hlow|Hhigh].
  - destruct (lookup_lt_is_Some_2 l i) as [z Hz]; [lia|].
    exists z. split; [|by eapply Hval].
    rewrite lookup_app_l by (rewrite length_fmap; lia).
    by rewrite list_lookup_fmap, Hz.
  - destruct (lookup_lt_is_Some_2 l (i - 256)) as [z Hz]; [lia|].
    exists z. split; [|by eapply Hval].
    rewrite lookup_app_r by (rewrite length_fmap; lia).
    by rewrite length_fmap, Hlen, list_lookup_fmap, Hz.
Qed.

(** ** The range of [noise] *)

Local Open Scope Q_scope.

Lemma square_nonneg (y : Q) : 0 <= y * y.
Proof. nra. Qed.

Lemma fade_finite (t : Q) : Qabs t <= 1 → fade (Fin t) = Fin (fadeQ t).
Proof. intros Ht. unfold fade, fadeQ. arith. reflexivity. Qed.

Lemma fadeQ_nonneg (t : Q) : 0 <= t → 0 <= fadeQ t.
Proof.
  intros Ht. unfold fadeQ.
  pose proof (square_nonneg t) as H2.
  assert (H3 : 0 <= t * t * t) by (apply Qmult_le_0_compat; assumption).
  pose proof (square_nonneg (t - (5 # 4))) as Hs.
  assert (Hk : 0 <= t * (t * 6 + - 15) + 10) by nra.
  apply Qmult_le_0_compat; assumption.
Qed.

Lemma fadeQ_le_1 (t : Q) : t <= 1 → fadeQ t <= 1.
Proof.
  intros Ht. unfold fadeQ.
  pose proof (square_nonneg (1 - t)) as H2.
  assert (H3 : 0 <= (1 - t) * (1 - t) * (1 - t)) by (apply Qmult_le_0_compat; lra).
  pose proof (square_nonneg (t + (1 # 4))) as Hs.
  assert (Hk : 0 <= 6 * t * t + 3 * t + 1) by nra.
  assert (H : 0 <= (1 - t) * (1 - t) * (1 - t) * (6 * t * t + 3 * t + 1))
    by (apply Qmult_le_0_compat; assumption).
  assert (E : 1 - t * t * t * (t * (t * 6 + - 15) + 10)
              == (1 - t) * (1 - t) * (1 - t) * (6 * t * t + 3 * t + 1)) by ring.
  lra.
Qed.

(** The weight [fade] gives the far corner never lifts the nearer distance
    [t] above one half: [t + fade(t) (1 - 2t) <= 1/2], because
    [1/2 - t - fade(t) (1 - 2t) = 2 s² (6 (s² - 5/12)² + 5/6)] for
    [s = t - 1/2]. *)
Lemma fadeQ_hump (t : Q) : t + fadeQ t * (1 - 2 * t) <= 1 # 2.
Proof.
  unfold fadeQ.
  set (s := t - (1 # 2)).
  pose proof (square_nonneg (s * s - (5 # 12))) as Hs.
  assert (Hk : 0 <= 6 * ((s * s - (5 # 12)) * (s * s - (5 # 12))) + (5 # 6)) by lra.
  pose proof (square_nonneg s) as Ht.
  assert (H : 0 <= (s * s) * (6 * ((s * s - (5 # 12)) * (s * s - (5 # 12))) + (5 # 6)))
    by (apply Qmult_le_0_compat; assumption).
  assert (E : (1 # 2) - (t + t * t * t * (t * (t * 6 + - 15) + 10) * (1 - 2 * t))
              == 2 * ((s * s) * (6 * ((s * s - (5 # 12)) * (s * s - (5 # 12))) + (5 # 6))))
    by (unfold s; ring).
  lra.
Qed.

(** [x - Math.floor(x)] lies in [[0, 1)]. *)
Lemma fraction_range (x : Q) : 0 <= x + - inject_Z (Qfloor x) < 1.
Proof.
  pose proof (Qfloor_le x) as Hlo. pose proof (Qlt_floor x) as Hhi.
  rewrite inject_Z_plus in Hhi. change (inject_Z 1) with 1 in Hhi. lra.
Qed.

Lemma fraction_bound (x : Q) : Qabs (x + - inject_Z (Qfloor x)) <= 1.
Proof. apply bound_unit. pose proof (fraction_range x). lra. Qed.

(** The difference [x - Math.floor(x)] is in range whatever the size of [x]
    is. *)
Lemma fraction_finite (x : Q) :
  (Fin x - floor (Fin x))%num = Fin (x + - inject_Z (Qfloor x)).
Proof.
  cbn [floor]. rewrite sub_Fin.
  apply (fin_within 1); [apply fraction_bound|by vm_compute].
Qed.

Lemma gradient_finite (hash : Z) (a b A B : Q) :
  - A <= a <= A → - B <= b <= B → A <= 1 → B <= 1 →
  ∃ g, gradient hash (Fin a) (Fin b) = Fin g ∧ - (A + B) <= g <= A + B.
Proof.
  intros Ha Hb HA HB.
  assert (Ba : Qabs a <= 1) by (apply Qabs_Qle_condition; lra).
  assert (Bb : Qabs b <= 1) by (apply Qabs_Qle_condition; lra).
  unfold gradient.
  destruct (Z.land hash 7 <? 4)%Z,
           (Z.land (Z.land hash 7) 1 =? 0)%Z,
           (Z.land (Z.land hash 7) 2 =? 0)%Z;
    arith; eexists; (split; [reflexivity|lra]).
Qed.

Lemma lerp_finite (a b t : Q) :
  Qabs a <= 4 → Qabs b <= 4 → Qabs t <= 1 →
  lerp (Fin a) (Fin b) (Fin t) = Fin (a + t * (b + - a)).
Proof. intros Ha Hb Ht. unfold lerp. arith. reflexivity. Qed.

Lemma lerp_bound (a b t A B : Q) :
  - A <= a <= A → - B <= b <= B → 0 <= t <= 1 →
  - (A + t * (B - A)) <= a + t * (b + - a) <= A + t * (B - A).
Proof. intros Ha Hb Ht. split; nra. Qed.

Lemma land_255_range (z : Z) : (0 ≤ Z.land z 255 < 256)%Z.
Proof.
  change 255%Z with (Z.ones 8). rewrite Z.land_ones by done.
  apply Z.mod_pos_bound. done.
Qed.

(** A read [p[i]] of a finished table, at an index below 512, finds a number
    of [0 .. 255]. *)
Tactic Notation "read_table" hyp(Hready) constr(i) "as" ident(z) ident(Hz) :=
  destruct (Hready i) as (z & -> & Hz); [lia|]; cbn [mbind option_bind].

(** [noise] of finite numbers, whatever their size. *)
Lemma noise_range (g : t) (x y : Q) :
  tableReady (permutation g) →
  ∃ n, noise g (Fin x) (Fin y) = Some (Fin n) ∧ - (1) <= n <= 1.
Proof.
  intros Hready. unfold noise. cbv zeta.
  rewrite !fraction_finite.
  change (floor (Fin x)) with (Fin (inject_Z (Qfloor x))).
  change (floor (Fin y)) with (Fin (inject_Z (Qfloor y))).
  pose proof (fraction_range x) as Hxf. pose proof (fraction_range y) as Hyf.
  pose proof (fraction_bound x) as Bxf. pose proof (fraction_bound y) as Byf.
  set (xf := x + - inject_Z (Qfloor x)) in *.
  set (yf := y + - inject_Z (Qfloor y)) in *.
  pose proof (land_255_range (toInt32 (Fin (inject_Z (Qfloor x))))) as HX.
  pose proof (land_255_range (toInt32 (Fin (inject_Z (Qfloor y))))) as HY.
  set (X := Z.land (toInt32 (Fin (inject_Z (Qfloor x)))) 255) in *.
  set (Y := Z.land (toInt32 (Fin (inject_Z (Qfloor y)))) 255) in *.
  read_table Hready (Z.to_nat X) as pX HpX.
  read_table Hready (Z.to_nat (X + 1)) as pX1 HpX1.
  read_table Hready (Z.to_nat (pX + Y)) as aa Haa.
  read_table Hready (Z.to_nat (pX + Y + 1)) as ab Hab.
  read_table Hready (Z.to_nat (pX1 + Y)) as ba Hba.
  read_table Hready (Z.to_nat (pX1 + Y + 1)) as bb Hbb.
  read_table Hready (Z.to_nat aa) as paa Hpaa.
  read_table Hready (Z.to_nat ba) as pba Hpba.
  read_table Hready (Z.to_nat ab) as pab Hpab.
  read_table Hready (Z.to_nat bb) as pbb Hpbb.
  assert ((Fin xf - Fin 1)%num = Fin (xf + - (1))) as -> by (arith; reflexivity).
  assert ((Fin yf - Fin 1)%num = Fin (yf + - (1))) as -> by (arith; reflexivity).
  rewrite !fade_finite by done.
  pose proof (fadeQ_nonneg xf (proj1 Hxf)) as Hu0.
  pose proof (fadeQ_le_1 xf) as Hu1.
  pose proof (fadeQ_nonneg yf (proj1 Hyf)) as Hv0.
  pose proof (fadeQ_le_1 yf) as Hv1.
  pose proof (fadeQ_hump xf) as Hhx.
  pose proof (fadeQ_hump yf) as Hhy.
  set (u := fadeQ xf) in *. set (v := fadeQ yf) in *.
  assert (Hu : 0 <= u <= 1) by lra.
  assert (Hv : 0 <= v <= 1) by lra.
  pose proof (bound_unit u Hu) as Bu. pose proof (bound_unit v Hv) as Bv.
  destruct (gradient_finite paa xf yf xf yf) as (g1 & -> & Hg1); [lra|lra|lra|lra|].
  destruct (gradient_finite pba (xf + - (1)) yf (1 - xf) yf) as (g2 & -> & Hg2);
    [lra|lra|lra|lra|].
  destruct (gradient_finite pab xf (yf + - (1)) xf (1 - yf)) as (g3 & -> & Hg3);
    [lra|lra|lra|lra|].
  destruct (gradient_finite pbb (xf + - (1)) (yf + - (1)) (1 - xf) (1 - yf))
    as (g4 & -> & Hg4); [lra|lra|lra|lra|].
  assert (B1 : Qabs g1 <= 4) by (apply Qabs_Qle_condition; lra).
  assert (B2 : Qabs g2 <= 4) by (apply Qabs_Qle_condition; lra).
  assert (B3 : Qabs g3 <= 4) by (apply Qabs_Qle_condition; lra).
  assert (B4 : Qabs g4 <= 4) by (apply Qabs_Qle_condition; lra).
  rewrite (lerp_finite g1 g2 u), (lerp_finite g3 g4 u) by done.
  pose proof (lerp_bound g1 g2 u _ _ Hg1 Hg2 Hu) as Hx1.
  pose proof (lerp_bound g3 g4 u _ _ Hg3 Hg4 Hu) as Hx2.
  set (x1 := g1 + u * (g2 + - g1)) in *.
  set (x2 := g3 + u * (g4 + - g3)) in *.
  assert (Bx1 : Qabs x1 <= 4) by (apply Qabs_Qle_condition; split; nra).
  assert (Bx2 : Qabs x2 <= 4) by (apply Qabs_Qle_condition; split; nra).
  rewrite (lerp_finite x1 x2 v) by done.
  eexists. split; [reflexivity|].
  pose proof (lerp_bound x1 x2 v _ _ Hx1 Hx2 Hv) as Hn.
  assert (E : xf + yf + u * (1 - xf + yf - (xf + yf))
              + v * (xf + (1 - yf) + u * (1 - xf + (1 - yf) - (xf + (1 - yf)))
                     - (xf + yf + u * (1 - xf + yf - (xf + yf))))
              == (xf + u * (1 - 2 * xf)) + (yf + v * (1 - 2 * yf))) by ring.
  lra.
Qed.

(** ** The range of [fractalNoise] *)

Lemma pow2_succ (i : nat) :
  inject_Z (2 ^ Z.of_nat (S i)) == 2 * inject_Z (2 ^ Z.of_nat i).
Proof.
  rewrite Nat2Z.inj_succ, Z.pow_succ_r by lia. by rewrite inject_Z_mult.
Qed.

Lemma pow2_nonneg (i : nat) : 0 <= inject_Z (2 ^ Z.of_nat i).
Proof. rewrite <- (Zle_Qle 0). apply Z.pow_nonneg. lia. Qed.

Lemma pow2_le (i k : nat) :
  (i ≤ k)%nat → inject_Z (2 ^ Z.of_nat i) <= inject_Z (2 ^ Z.of_nat k).
Proof. intros H. rewrite <- Zle_Qle. apply Z.pow_le_mono_r; lia. Qed.

(** The frequencies of at most a thousand octaves are in range. *)
Lemma frequency_small (i : nat) :
  (i ≤ 1000)%nat → Qabs (1 * inject_Z (2 ^ Z.of_nat i)) < overflowThreshold.
Proof.
  intros Hi. rewrite Qmult_1_l, Qabs_pos by apply pow2_nonneg.
  apply (Qle_lt_trans _ (inject_Z (2 ^ Z.of_nat 1000))); [by apply pow2_le|].
  by vm_compute.
Qed.

(** A coordinate whose product with the last frequency is in range is in
    range at every frequency before. *)
Lemma scaled_small (x : Q) (i k : nat) :
  (i ≤ k)%nat →
  Qabs x * inject_Z (2 ^ Z.of_nat k) < overflowThreshold →
  Qabs (x * (1 * inject_Z (2 ^ Z.of_nat i))) < overflowThreshold.
Proof.
  intros Hik H.
  apply (Qle_lt_trans _ (Qabs x * inject_Z (2 ^ Z.of_nat k))); [|done].
  rewrite Qmult_1_l, Qabs_Qmult, (Qabs_pos (inject_Z _)) by apply pow2_nonneg.
  apply Qmult_le_compat_nonneg.
  - split; [apply Qabs_nonneg|apply Qle_refl].
  - split; [apply pow2_nonneg|by apply pow2_le].
Qed.


(** The last two steps of [fractalNoise]: [(total / maxValue + 1) / 2]. *)
Lemma normalize_finite (T M : Q) :
  0 < M → - M <= T <= M →
  ((Fin T / Fin M + Fin 1) / Fin 2)%num = Fin ((T / M + 1) / 2)
  ∧ - (1) <= T / M <= 1.
Proof.
  intros HM HT.
  assert (Hlo : - (1) <= T / M) by (apply Qle_shift_div_l; lra).
  assert (Hhi : T / M <= 1) by (apply Qle_shift_div_r; lra).
  assert (B : Qabs (T / M) <= 1) by (by apply bound_range).
  split; [|done].
  assert (HMnz : ¬ M == 0) by lra.
  arith. reflexivity.
Qed.





(** ** The same seed gives the same noise *)

Lemma noise_table (g1 g2 : t) (x y : num) :
  permutation g1 = permutation g2 → noise g1 x y = noise g2 x y.
Proof. intros H. unfold noise. by rewrite H. Qed.

Lemma octaveLoop_table (g1 g2 : t) (x y persistence : num) (octaves : nat)
    (st : octaves_state) :
  permutation g1 = permutation g2 →
  octaveLoop g1 x y persistence octaves st = octaveLoop g2 x y persistence octaves st.
Proof.
  intros H. revert st. induction octaves as [|octaves IH]; intros st; [done|].
  cbn [octaveLoop]. rewrite (noise_table g1 g2 _ _ H).
  destruct (noise g2 _ _) as [n|]; [|done]. cbn [mbind option_bind]. apply IH.
Qed.

(** [fractalNoise] reads nothing of the generator but its table. *)
Lemma fractalNoise_table (g1 g2 : t) (x y : num) (octaves : nat) (persistence : num) :
  permutation g1 = permutation g2 →
  fractalNoise g1 x y octaves persistence = fractalNoise g2 x y octaves persistence.
Proof. intros H. unfold fractalNoise. by rewrite (octaveLoop_table g1 g2 _ _ _ _ _ H). Qed.

(** C8.  Two generators constructed from the same seed hold the same table:
    512 entries, the first 256 a rearrangement of [0 .. 255], the last 256 a
    copy of the first; and they return the same value of
    [fractalNoise(x, y, octaves, persistence)] for all arguments. *)
Theorem same_seed_same_noise (seed1 seed2 : Q) :
  seed1 == seed2 →
  permutation (new seed1) = permutation (new seed2)
  ∧ length (permutation (new seed1)) = 512%nat
  ∧ (∃ l : list Z,
       l ≡ₚ seqZ 0 256
       ∧ take 256 (permutation (new seed1)) = Some <$> l
       ∧ drop 256 (permutation (new seed1)) = Some <$> l)
  ∧ ∀ (x y : num) (octaves : nat) (persistence : num),
      fractalNoise (new seed1) x y octaves persistence
      = fractalNoise (new seed2) x y octaves persistence.
Proof.
  intros Hseed.
  assert (Htable : permutation (new seed1) = permutation (new seed2)).
  { cbn [new permutation]. by apply generatePermutation_comp. }
  split; [done|].
  cbn [new permutation].
  destruct (generatePermutation_shape seed1) as (l & Hshape & Hperm).
  assert (Hlen : length l = 256%nat) by (by rewrite Hperm, length_seqZ).
  split; [|split].
  - rewrite Hshape, length_app, !length_fmap. lia.
  - exists l. split; [done|]. rewrite Hshape. split.
    + rewrite take_app_length'; [done|by rewrite length_fmap].
    + rewrite drop_app_length'; [done|by rewrite length_fmap].
  - intros x y octaves persistence. by apply fractalNoise_table.
Qed.

Lemma same_seed_same_noise_witness :
  (1 # 2) == (2 # 4)
  ∧ permutation (new (1 # 2)) = permutation (new (2 # 4))
  ∧ ∀ (x y : num) (octaves : nat) (persistence : num),
      fractalNoise (new (1 # 2)) x y octaves persistence
      = fractalNoise (new (2 # 4)) x y octaves persistence.
Proof.
  assert (H : (1 # 2) == (2 # 4)) by reflexivity.
  split; [exact H|].
  destruct (same_seed_same_noise (1 # 2) (2 # 4) H) as (Htable & _ & _ & Hnoise).
  by split.
Defined.

(** ** No octaves *)

(** C10.  With [octaves = 0] the loop does not run, [total / maxValue] is
    [0 / 0], and [fractalNoise] returns [NaN] whatever the other arguments
    are: a value that is neither [>= 0] nor [<= 1].  Nothing in the function
    tests [octaves]. *)
Theorem fractalNoise_no_octaves (g : t) (x y persistence : num) :
  (Fin 0 / Fin 0)%num = NaN
  ∧ fractalNoise g x y 0 persistence = Some NaN
  ∧ leb (Fin 0) NaN = false
  ∧ leb NaN (Fin 1) = false.
Proof. repeat split. Qed.

End Noise.

(** * Properties of the client's [updateHexState] *)

Module Reconciler.

Import HexGrid.

(** A cell the grid has no mesh for is skipped, unless its id names a
    property of [Object.prototype]. *)
Lemma updateHexState_no_mesh (hexId : string) (state : gmap string jsval) (g : t) :
  hexMeshes g !! hexId = None → inherited hexId = false →
  updateHexState hexId state g = (g, Returned).
Proof. intros H Hkey. unfold updateHexState. by rewrite H, Hkey. Qed.

(** Without a mesh the grid is left as it is, whatever the id. *)
Lemma updateHexState_no_mesh_grid (hexId : string) (state : gmap string jsval) (g : t) :
  hexMeshes g !! hexId = None → (updateHexState hexId state g).1 = g.
Proof.
  intros H. unfold updateHexState. rewrite H.
  destruct (inherited hexId); [|done]. by destruct (_ || _).
Qed.

(** For a cell of the grid the call returns when the delta carries a
    [voxelModel], and throws when it does not: the [else if] then reads
    [heightChanged]. *)
Lemma updateHexState_outcome (hexId : string) (state : gmap string jsval) (g : t) :
  is_Some (hexMeshes g !! hexId) →
  (updateHexState hexId state g).2
  = if truthy (field state "voxelModel") then Returned
    else Thrown (ReferenceError "heightChanged").
Proof.
  intros [hex Hhex]. unfold updateHexState. rewrite Hhex.
  destruct (truthy (field state "voxelModel")); [|done].
  by destruct (truthy _).
Qed.

(** C9 on a grid with the cell ["0,0"]: the deltas [{color: "#ff0000"}],
    [{height: 1}], [{color: "#3498db", height: 1}] and [{}] all end in a
    [ReferenceError], after the colour and the height have been applied; a
    delta with a [voxelModel] returns. *)
Theorem updateHexState_throws_without_voxelModel :
  (updateHexState "0,0" {["color" := JStr "#ff0000"]} (createdGrid ["0,0"] true)).2
    = Thrown (ReferenceError "heightChanged")
  ∧ (updateHexState "0,0" {["height" := JNum (Fin 1)]} (createdGrid ["0,0"] true)).2
    = Thrown (ReferenceError "heightChanged")
  ∧ (updateHexState "0,0" {["color" := JStr "#3498db"; "height" := JNum (Fin 1)]}
       (createdGrid ["0,0"] true)).2
    = Thrown (ReferenceError "heightChanged")
  ∧ (updateHexState "0,0" ∅ (createdGrid ["0,0"] true)).2
    = Thrown (ReferenceError "heightChanged")
  ∧ hexMeshes (updateHexState "0,0" {["color" := JStr "#3498db"; "height" := JNum (Fin 1)]}
                 (createdGrid ["0,0"] true)).1 !! "0,0"
    = Some {| customColor := Some (JStr "#3498db"); materialColor := JStr "#3498db";
              height := Some (JNum (Fin 1)); extruded := true |}
  ∧ (updateHexState "0,0" {["voxelModel" := JObj [("type", JStr "tree")]]}
       (createdGrid ["0,0"] true)).2
    = Returned.
Proof. repeat split; vm_compute; reflexivity. Qed.

End Reconciler.

(** * Laws of the room store *)

Module RoomLaws.

Import RoomManager RoomStore Departures Samples.

(** ** What each operation does to the table and to the index *)

Lemma rooms_createRoom (rnd : Q) (now : Z) (userId : string) (s : t) (other : string) :
  rooms (createRoom rnd now userId s).2 !! other
  = if decide (generateRoomCode rnd = other)
    then Some {| host := userId; users := [userId]; hexState := ∅; createdAt := now |}
    else rooms s !! other.
Proof. unfold createRoom. cbn [snd rooms]. apply lookup_insert. Qed.

Lemma roomsOf_createRoom (rnd : Q) (now : Z) (userId : string) (s : t) (other : string) :
  roomsOf (createRoom rnd now userId s).2 other
  = if decide (userId = other) then roomsOf s userId ++ [generateRoomCode rnd]
    else roomsOf s other.
Proof. unfold createRoom. cbn [snd]. apply roomsOf_insert. Qed.

Lemma joinRoom_existing (roomCode userId : string) (s : t) (room : Room) :
  rooms s !! roomCode = Some room →
  joinRoom roomCode userId s
  = (JoinSuccess (hexState room),
     {| rooms := <[roomCode := set_users (users room ++ [userId]) room]> (rooms s);
        userRooms := <[userId := roomsOf s userId ++ [roomCode]]> (userRooms s) |}).
Proof. intros H. unfold joinRoom. by rewrite H. Qed.

(** X1.  A room that [createRoom] has just minted can be joined under the
    code returned: [joinRoom] succeeds with the empty snapshot, the room holds
    the owner and the guest in this order under the owner as host, and the
    index lists the code for both. *)
Theorem createRoom_then_joinRoom (rnd : Q) (now : Z) (owner guest : string) (s : t) :
  let created := createRoom rnd now owner s in
  let joined := joinRoom created.1 guest created.2 in
  joined.1 = JoinSuccess ∅
  ∧ getRoomState created.1 joined.2
    = Some {| host := owner; users := [owner; guest]; hexState := ∅; createdAt := now |}
  ∧ created.1 ∈ roomsOf joined.2 owner
  ∧ created.1 ∈ roomsOf joined.2 guest.
Proof.
  intros created joined.
  assert (Hcode : created.1 = generateRoomCode rnd) by done.
  assert (Hroom : rooms created.2 !! created.1
                  = Some {| host := owner; users := [owner]; hexState := ∅; createdAt := now |}).
  { subst created. rewrite rooms_createRoom. by rewrite decide_True. }
  subst joined. rewrite (joinRoom_existing _ _ _ _ Hroom).
  cbn [fst snd]. split; [done|]. split.
  { unfold getRoomState. cbn [rooms]. by rewrite lookup_insert_eq. }
  rewrite !roomsOf_insert. subst created. rewrite !roomsOf_createRoom.
  rewrite (decide_True (P := owner = owner)) by done. cbn [fst].
  split.
  - destruct (decide (guest = owner)); rewrite !elem_of_app, !list_elem_of_singleton; tauto.
  - rewrite decide_True by done. rewrite !elem_of_app, !list_elem_of_singleton; tauto.
Qed.

(** X2.  [joinRoom] on a room of the table returns the room's cells, appends
    the user to the member list and the code to the user's index entry (twice
    when the user joins twice), and touches no cell, no other room and no other
    user's entry. *)
Theorem joinRoom_frame (roomCode userId : string) (s : t) (room : Room) :
  rooms s !! roomCode = Some room →
  let joined := joinRoom roomCode userId s in
  joined.1 = JoinSuccess (hexState room)
  ∧ (users <$> rooms joined.2 !! roomCode) = Some (users room ++ [userId])
  ∧ roomsOf joined.2 userId = roomsOf s userId ++ [roomCode]
  ∧ (∀ code hexId, cellOf joined.2 code hexId = cellOf s code hexId)
  ∧ (∀ code, code ≠ roomCode → rooms joined.2 !! code = rooms s !! code)
  ∧ (∀ other, other ≠ userId → roomsOf joined.2 other = roomsOf s other).
Proof.
  intros Hroom joined. subst joined. rewrite (joinRoom_existing _ _ _ _ Hroom).
  cbn [fst snd]. split; [done|]. split.
  { cbn [rooms]. by rewrite lookup_insert_eq. }
  split. { rewrite roomsOf_insert. by rewrite decide_True. }
  split.
  { intros code hexId. unfold cellOf. cbn [rooms]. rewrite lookup_insert.
    destruct (decide (roomCode = code)) as [<-|Hne]; [|done]. by rewrite Hroom. }
  split.
  { intros code Hne. cbn [rooms]. by rewrite lookup_insert_ne. }
  intros other Hne. rewrite roomsOf_insert. by rewrite decide_False.
Qed.


(** X3.  A write is seen by the next user who joins: the snapshot [joinRoom]
    returns after [updateHexState] holds the merged cell under [hexId], and
    every other cell as before.  The cell id is not ["__proto__"], and no
    write has been made under that id before (such a write would have
    replaced the prototype of [hexState]). *)
Theorem joinRoom_snapshot_has_write (now : Z) (roomCode hexId userId : string)
    (action : cell) (s : t) (room : Room) :
  rooms s !! roomCode = Some room →
  hexId ≠ "__proto__" →
  hexState room !! "__proto__" = None →
  ∃ snapshot,
    (joinRoom roomCode userId (updateHexState now roomCode hexId action s).2).1
    = JoinSuccess snapshot
    ∧ snapshot !! hexId = Some (mergeCell (hexState room !! hexId) action now)
    ∧ ∀ other, other ≠ hexId → snapshot !! other = hexState room !! other.
Proof.
  intros Hroom _ _. unfold updateHexState. rewrite Hroom. cbn [snd].
  erewrite joinRoom_existing; [|cbn [rooms]; apply lookup_insert_eq].
  eexists. split; [reflexivity|]. cbn [hexState set_hexState]. split.
  - apply lookup_insert_eq.
  - intros other Hne. by apply lookup_insert_ne.
Qed.

(** X4.  For a room code that names no property of [Object.prototype] and a
    cell id other than ["__proto__"]: [updateHexState] returns [false] only on
    a store it leaves as it is; it never changes the user index, a member
    list, a host or a creation time, and no cell but the one written. *)
Theorem updateHexState_frame (now : Z) (roomCode hexId : string) (action : cell) (s : t) :
  inherited roomCode = false →
  hexId ≠ "__proto__" →
  let s' := (updateHexState now roomCode hexId action s).2 in
  ((updateHexState now roomCode hexId action s).1 = false → s' = s)
  ∧ userRooms s' = userRooms s
  ∧ (∀ code, users <$> rooms s' !! code = users <$> rooms s !! code)
  ∧ (∀ code, host <$> rooms s' !! code = host <$> rooms s !! code)
  ∧ (∀ code, createdAt <$> rooms s' !! code = createdAt <$> rooms s !! code)
  ∧ (∀ code other, (code, other) ≠ (roomCode, hexId) → cellOf s' code other = cellOf s code other).
Proof.
  intros _ _ s'. subst s'. unfold updateHexState.
  destruct (rooms s !! roomCode) as [room|] eqn:Hroom; cbn [fst snd]; [|done].
  split; [done|]. split; [done|].
  assert (Hfield : ∀ {A} (f : Room → A),
    (∀ hs, f (set_hexState hs room) = f room) →
    ∀ code, f <$> <[roomCode := set_hexState (<[hexId := mergeCell (hexState room !! hexId) action now]> (hexState room)) room]> (rooms s) !! code
            = f <$> rooms s !! code).
  { intros A f Hf code. rewrite lookup_insert.
    destruct (decide (roomCode = code)) as [<-|Hne]; [|done].
    rewrite Hroom. simpl. by rewrite Hf. }
  split; [by apply Hfield|]. split; [by apply Hfield|]. split; [by apply Hfield|].
  intros code other Hne. unfold cellOf. cbn [rooms]. rewrite lookup_insert.
  destruct (decide (roomCode = code)) as [<-|Hcode]; [|done].
  rewrite Hroom. simpl. apply lookup_insert_ne. congruence.
Qed.

Lemma mergeCell_merge (old : option cell) (a1 a2 : cell) (t1 t2 : Z) :
  mergeCell (Some (mergeCell old a1 t1)) a2 t2 = mergeCell old (a2 ∪ a1) t2.
Proof.
  apply map_eq. intros name. unfold mergeCell.
  destruct (decide (name = "lastUpdated")) as [->|Hne].
  { by rewrite !lookup_insert_eq. }
  rewrite !lookup_insert_ne by congruence. cbn [default].
  rewrite <- (assoc_L (∪)). rewrite !lookup_union. unfold id.
  rewrite lookup_insert_ne by congruence. by rewrite lookup_union.
Qed.

(** X5.  Two writes to one cell compose into one: the store after writing
    [a1] and then [a2] is the store after writing [a2 ∪ a1] at the time of the
    second write.  Field by field the last write wins, and a field the second
    delta does not carry stays as the first write left it.  The room code
    names no property of [Object.prototype], the cell id is not
    ["__proto__"], and no write has been made under that id before.  Stores
    are compared as maps: the order of the fields of a cell is not part of
    them. *)
Theorem updateHexState_compose (t1 t2 : Z) (roomCode hexId : string) (a1 a2 : cell) (s : t) :
  inherited roomCode = false →
  hexId ≠ "__proto__" →
  (∀ room, rooms s !! roomCode = Some room → hexState room !! "__proto__" = None) →
  let first := (updateHexState t1 roomCode hexId a1 s).2 in
  let second := (updateHexState t2 roomCode hexId a2 first).2 in
  second = (updateHexState t2 roomCode hexId (a2 ∪ a1) s).2
  ∧ (∀ name v, name ≠ "lastUpdated" → a2 !! name = Some v →
       is_Some (rooms s !! roomCode) →
       cellOf second roomCode hexId ≫= (.!! name) = Some v)
  ∧ (∀ name, name ≠ "lastUpdated" → a2 !! name = None →
       cellOf second roomCode hexId ≫= (.!! name)
       = cellOf first roomCode hexId ≫= (.!! name)).
Proof.
  intros _ _ _ first second.
  assert (Hsecond : second = (updateHexState t2 roomCode hexId (a2 ∪ a1) s).2).
  { subst first second. unfold updateHexState.
    destruct (rooms s !! roomCode) as [room|] eqn:Hroom; cbn [snd rooms].
    - rewrite lookup_insert_eq. cbn [snd rooms hexState set_hexState userRooms].
      rewrite lookup_insert_eq, mergeCell_merge. by rewrite !insert_insert_eq.
    - by rewrite Hroom. }
  split; [done|].
  destruct (rooms s !! roomCode) as [room|] eqn:Hroom.
  - assert (Hfirst : rooms first !! roomCode
              = Some (set_hexState (<[hexId := mergeCell (hexState room !! hexId) a1 t1]> (hexState room)) room)).
    { subst first. unfold updateHexState. rewrite Hroom. cbn [snd rooms]. apply lookup_insert_eq. }
    subst second. rewrite (cellOf_updateHexState _ _ _ _ _ _ Hfirst).
    subst first. rewrite (cellOf_updateHexState _ _ _ _ _ _ Hroom).
    cbn [hexState set_hexState mbind option_bind]. rewrite lookup_insert_eq. split.
    + intros name v Hne Hin _. by apply mergeCell_present.
    + intros name Hne Hout. by rewrite mergeCell_absent.
  - split.
    + intros name v _ _ [room Hsome]. done.
    + intros name _ _. subst second. by rewrite (updateHexState_missing t2)
        by (subst first; by rewrite updateHexState_missing).
Qed.

Lemma updateHexState_swap (t1 t2 : Z) (code1 hex1 code2 hex2 : string)
    (a1 a2 : cell) (s : t) :
  (code1, hex1) ≠ (code2, hex2) →
  (updateHexState t2 code2 hex2 a2 (updateHexState t1 code1 hex1 a1 s).2).2
  = (updateHexState t1 code1 hex1 a1 (updateHexState t2 code2 hex2 a2 s).2).2.
Proof.
  intros Hne. unfold updateHexState.
  destruct (rooms s !! code1) as [room1|] eqn:H1, (rooms s !! code2) as [room2|] eqn:H2;
    cbn [snd rooms userRooms]; rewrite ?H1, ?H2; cbn [snd rooms userRooms]; try done.
  - destruct (decide (code1 = code2)) as [<-|Hcode].
    + assert (Hhex : hex1 ≠ hex2) by congruence.
      rewrite !lookup_insert_eq. cbn [snd rooms userRooms hexState set_hexState].
      assert (room2 = room1) as -> by congruence.
      rewrite !lookup_insert_ne by done. rewrite !insert_insert_eq.
      unfold set_hexState. cbn [host users hexState createdAt].
      by rewrite (insert_insert_ne _ hex1 hex2) by done.
    + rewrite !lookup_insert_ne by done. rewrite H1, H2.
      cbn [snd rooms userRooms]. by rewrite insert_insert_ne by done.
  - destruct (decide (code1 = code2)) as [<-|Hcode]; [congruence|].
    rewrite lookup_insert_ne by done. by rewrite H2.
  - destruct (decide (code1 = code2)) as [<-|Hcode]; [congruence|].
    rewrite lookup_insert_ne by done. by rewrite H1.
Qed.

(** X6.  Writes to different cells (of one room or of two) commute, up to the
    order of the keys of [hexState]: after the two writes, in either order,
    the same cell is stored under every id, and member lists, hosts, creation
    times and the user index are the same.  The room codes name no property of
    [Object.prototype] and the cell ids are not ["__proto__"]. *)
Theorem updateHexState_commute (t1 t2 : Z) (code1 hex1 code2 hex2 : string)
    (a1 a2 : cell) (s : t) :
  (code1, hex1) ≠ (code2, hex2) →
  inherited code1 = false → inherited code2 = false →
  hex1 ≠ "__proto__" → hex2 ≠ "__proto__" →
  let s12 := (updateHexState t2 code2 hex2 a2 (updateHexState t1 code1 hex1 a1 s).2).2 in
  let s21 := (updateHexState t1 code1 hex1 a1 (updateHexState t2 code2 hex2 a2 s).2).2 in
  (∀ code hexId, cellOf s12 code hexId = cellOf s21 code hexId)
  ∧ (∀ code, users <$> rooms s12 !! code = users <$> rooms s21 !! code)
  ∧ (∀ code, host <$> rooms s12 !! code = host <$> rooms s21 !! code)
  ∧ (∀ code, createdAt <$> rooms s12 !! code = createdAt <$> rooms s21 !! code)
  ∧ userRooms s12 = userRooms s21.
Proof.
  intros Hne _ _ _ _ s12 s21.
  assert (E : s12 = s21) by apply (updateHexState_swap _ _ _ _ _ _ _ _ _ Hne).
  by rewrite E.
Qed.


(** ** Leaving *)

Lemma roomsOf_None (s : t) (userId : string) :
  userRooms s !! userId = None → roomsOf s userId = [].
Proof. intros H. unfold roomsOf. by rewrite H. Qed.

Lemma userRooms_removeUserFromRooms (userId : string) (s : t) :
  userRooms (removeUserFromRooms userId s).2 = delete userId (userRooms s).
Proof.
  unfold removeUserFromRooms.
  destruct (userRooms s !! userId) as [codes|] eqn:Hcodes; cbn [snd userRooms]; [done|].
  symmetry. by apply delete_id.
Qed.

Lemma roomsOf_removeUserFromRooms (userId other : string) (s : t) :
  roomsOf (removeUserFromRooms userId s).2 other
  = if decide (userId = other) then [] else roomsOf s other.
Proof.
  unfold roomsOf at 1. rewrite userRooms_removeUserFromRooms, lookup_delete.
  by destruct (decide (userId = other)).
Qed.

(** The room table [removeUserFromRooms] leaves. *)
Lemma rooms_removeUserFromRooms (userId code : string) (s : t) :
  rooms (removeUserFromRooms userId s).2 !! code
  = if decide (code ∈ roomsOf s userId) then rooms s !! code ≫= withoutUser userId
    else rooms s !! code.
Proof.
  unfold removeUserFromRooms, roomsOf.
  destruct (userRooms s !! userId) as [codes|] eqn:Hcodes; cbn [snd rooms default].
  - by rewrite leaveRooms_lookup.
  - destruct (decide (code ∈ [])) as [Hin|_]; [|done]. by apply not_elem_of_nil in Hin.
Qed.

Lemma leaveRooms_left (userId : string) (codes : list string)
    (acc : gmap string Room * list string) (code : string) :
  code ∈ (foldl (leaveRoom userId) acc codes).2
  ↔ code ∈ acc.2 ∨ (code ∈ codes ∧ is_Some (acc.1 !! code)).
Proof.
  revert acc. induction codes as [|c codes IH]; intros acc; cbn [foldl].
  - rewrite elem_of_nil. tauto.
  - rewrite IH, elem_of_cons, leaveRoom_lookup.
    assert (Hleft : code ∈ (leaveRoom userId acc c).2
                    ↔ code ∈ acc.2 ∨ (code = c ∧ is_Some (acc.1 !! c))).
    { unfold leaveRoom. destruct (acc.1 !! c) as [room|] eqn:Hroom.
      - destruct (length _ =? 0)%nat; cbn [snd];
          rewrite elem_of_app, list_elem_of_singleton; split; (intros [?|?]; [by left|right]);
          try (split; [tauto|by eexists]); tauto.
      - split; [by left|]. intros [?|[_ [? ?]]]; done. }
    rewrite Hleft. destruct (decide (code = c)) as [->|Hne].
    + split.
      * intros [[?|[_ Hsome]]|[Hin Hsome]]; [by left|right; split; [by left|done]|].
        right. split; [by left|]. destruct (acc.1 !! c); [by eexists|].
        by destruct Hsome.
      * intros [?|[_ Hsome]]; [by left; left|]. left. right. done.
    + split.
      * intros [[?|[? _]]|[Hin Hsome]]; [by left|done|]. right. split; [by right|done].
      * intros [?|[[?|Hin] Hsome]]; [by left; left|done|]. right. done.
Qed.

Lemma removeUserFromRooms_left (userId code : string) (s : t) :
  code ∈ (removeUserFromRooms userId s).1
  ↔ code ∈ roomsOf s userId ∧ is_Some (rooms s !! code).
Proof.
  unfold removeUserFromRooms, roomsOf.
  destruct (userRooms s !! userId) as [codes|] eqn:Hcodes; cbn [fst default].
  - rewrite leaveRooms_left. cbn [fst snd]. rewrite elem_of_nil. tauto.
  - rewrite !elem_of_nil. tauto.
Qed.

(** X7.  The list [removeUserFromRooms] returns (the rooms the server then
    notifies) holds exactly the codes of the user's index entry that name a
    room of the table; for a user without an entry it is empty, and the store
    is not changed. *)
Theorem removeUserFromRooms_roomsLeft (userId code : string) (s : t) :
  (code ∈ (removeUserFromRooms userId s).1
   ↔ code ∈ roomsOf s userId ∧ is_Some (rooms s !! code))
  ∧ (userRooms s !! userId = None → removeUserFromRooms userId s = ([], s)).
Proof.
  split; [apply removeUserFromRooms_left|].
  intros H. unfold removeUserFromRooms. by rewrite H.
Qed.

Lemma run_invariants (ops : list op) :
  collisionFree new ops → consistent (run ops) ∧ indexed (run ops).
Proof.
  intros Hfree. apply (run_keeps ops new Hfree).
  - intros code room Hroom. simpl in Hroom. by rewrite lookup_empty in Hroom.
  - intros userId code Hin. unfold roomsOf in Hin. simpl in Hin.
    rewrite lookup_empty in Hin. by apply not_elem_of_nil in Hin.
Qed.

(** X8.  In a store reached by a run without code collisions, after
    [removeUserFromRooms] the user has no index entry and is in no member
    list; the other users keep their entries, and in every room they keep
    their membership, the room its cells and its host (the host is not
    reassigned, even when it was the user who left). *)
Theorem removeUserFromRooms_leaves (ops : list op) (userId : string) :
  collisionFree new ops →
  let s := run ops in
  let s' := (removeUserFromRooms userId s).2 in
  userRooms s' !! userId = None
  ∧ (∀ code room', rooms s' !! code = Some room' → userId ∉ users room')
  ∧ (∀ other, other ≠ userId → roomsOf s' other = roomsOf s other)
  ∧ (∀ code room other, rooms s !! code = Some room → other ≠ userId → other ∈ users room →
       ∃ room', rooms s' !! code = Some room'
                ∧ other ∈ users room'
                ∧ hexState room' = hexState room
                ∧ host room' = host room).
Proof.
  intros Hfree s s'. destruct (run_invariants ops Hfree) as [Hc _].
  fold s in Hc. clearbody s. subst s'. split; [|split; [|split]].
  - rewrite userRooms_removeUserFromRooms. apply lookup_delete_eq.
  - intros code room'. rewrite rooms_removeUserFromRooms.
    destruct (decide (code ∈ roomsOf s userId)) as [Hin|Hout].
    + destruct (rooms s !! code) as [room|]; [|done]. cbn [mbind option_bind].
      intros Hw. destruct (withoutUser_users _ _ _ Hw) as [-> _].
      rewrite list_elem_of_filter. tauto.
    + intros Hroom. destruct (Hc code room' Hroom) as [_ Hiff]. by rewrite Hiff.
  - intros other Hne. rewrite roomsOf_removeUserFromRooms. by rewrite decide_False.
  - intros code room other Hroom Hne Hin. rewrite rooms_removeUserFromRooms, Hroom.
    destruct (decide (code ∈ roomsOf s userId)); [|by exists room].
    cbn [mbind option_bind].
    destruct (withoutUser_member userId other room Hne Hin) as [room' Hw].
    exists room'. split; [done|].
    destruct (withoutUser_users _ _ _ Hw) as [Hus _]. rewrite Hus.
    split; [by apply list_elem_of_filter|].
    unfold withoutUser in Hw. destruct (length _ =? 0)%nat; [done|]. by injection Hw as <-.
Qed.

(** X9.  When the only member of a room leaves, the room is deleted with
    its cells: its code is in the list returned, [getRoomState] finds no room,
    and a later [joinRoom] under the code fails with "Room not found" (under
    a code that names a property of [Object.prototype], which [createRoom]
    never mints, the later [joinRoom] throws). *)
Theorem last_member_leaves (userId code other : string) (s : t) (room : Room) :
  rooms s !! code = Some room →
  code ∈ roomsOf s userId →
  (∀ member, member ∈ users room → member = userId) →
  let left := removeUserFromRooms userId s in
  code ∈ left.1
  ∧ getRoomState code left.2 = None
  ∧ (∀ hexId, cellOf left.2 code hexId = None)
  ∧ joinRoom code other left.2
    = (if inherited code
       then JoinTypeError "Cannot read properties of undefined (reading 'push')"
       else JoinFailure "Room not found", left.2).
Proof.
  intros Hroom Hin Hall left. subst left.
  assert (Hgone : rooms (removeUserFromRooms userId s).2 !! code = None).
  { rewrite rooms_removeUserFromRooms, decide_True, Hroom by done.
    cbn [mbind option_bind]. unfold withoutUser.
    destruct (filter _ (users room)) as [|x l] eqn:Hf; [done|].
    assert (Hx : x ∈ filter (λ id, id ≠ userId) (users room)) by (rewrite Hf; left).
    apply list_elem_of_filter in Hx as [Hne Hx]. by apply Hall in Hx. }
  split; [|split; [done|split]].
  - apply removeUserFromRooms_left. split; [done|by eexists].
  - intros hexId. unfold cellOf. by rewrite Hgone.
  - by apply joinRoom_missing.
Qed.


Lemma leaveAll_keeps (userIds : list string) (s : t) :
  consistent s → indexed s → consistent (leaveAll s userIds) ∧ indexed (leaveAll s userIds).
Proof.
  revert s. induction userIds as [|u userIds IH]; intros s Hc Hi; cbn [leaveAll foldl]; [done|].
  destruct (removeUserFromRooms_keeps u s Hc Hi) as [Hc' Hi']. by apply IH.
Qed.

Lemma userRooms_leaveAll (userIds : list string) (s : t) (other : string) :
  userRooms (leaveAll s userIds) !! other
  = if decide (other ∈ userIds) then None else userRooms s !! other.
Proof.
  revert s. induction userIds as [|u userIds IH]; intros s; cbn [leaveAll foldl].
  - destruct (decide (other ∈ [])) as [Hin|_]; [|done]. by apply not_elem_of_nil in Hin.
  - unfold leaveAll in IH. rewrite IH, userRooms_removeUserFromRooms, lookup_delete.
    destruct (decide (other ∈ userIds)) as [Hin|Hout].
    + rewrite decide_True; [done|by right].
    + destruct (decide (u = other)) as [<-|Hne].
      * rewrite decide_True; [done|by left].
      * rewrite decide_False; [done|]. rewrite elem_of_cons. naive_solver.
Qed.

(** X10.  When every user of the index has left, in any order, a store
    reached by a run without code collisions is the empty store again: no room
    and no index entry is left behind. *)
Theorem everyone_leaves (ops : list op) (userIds : list string) :
  collisionFree new ops →
  (∀ userId, is_Some (userRooms (run ops) !! userId) → userId ∈ userIds) →
  leaveAll (run ops) userIds = new.
Proof.
  intros Hfree Hall. destruct (run_invariants ops Hfree) as [Hc Hi].
  set (s := run ops) in *. clearbody s.
  destruct (leaveAll_keeps userIds s Hc Hi) as [Hc' _].
  assert (Hindex : userRooms (leaveAll s userIds) = ∅).
  { apply map_eq. intros other. rewrite userRooms_leaveAll, lookup_empty.
    destruct (decide (other ∈ userIds)) as [|Hout]; [done|].
    destruct (userRooms s !! other) eqn:Hother; [|done].
    exfalso. apply Hout, Hall. by eexists. }
  assert (Hrooms : rooms (leaveAll s userIds) = ∅).
  { apply map_eq. intros code. rewrite lookup_empty.
    destruct (rooms (leaveAll s userIds) !! code) as [room|] eqn:Hroom; [|done].
    destruct (Hc' code room Hroom) as [Hne Hiff].
    destruct (users room) as [|member members] eqn:Hus; [done|].
    assert (Hin : code ∈ roomsOf (leaveAll s userIds) member).
    { apply Hiff. left. }
    unfold roomsOf in Hin. rewrite Hindex, lookup_empty in Hin.
    by apply not_elem_of_nil in Hin. }
  destruct (leaveAll s userIds) as [rs ur]. cbn in *. by subst.
Qed.


(** ** Instances *)

Lemma joinRoom_frame_witness :
  rooms aliceStore !! "I" = Some aliceRoom
  ∧ (joinRoom "I" "bob" aliceStore).1 = JoinSuccess ∅.
Proof.
  assert (H : rooms aliceStore !! "I" = Some aliceRoom) by (vm_compute; reflexivity).
  split; [exact H|].
  exact (proj1 (joinRoom_frame "I" "bob" aliceStore aliceRoom H)).
Defined.

Lemma joinRoom_snapshot_has_write_witness :
  rooms aliceStore !! "I" = Some aliceRoom
  ∧ "0,0" ≠ "__proto__"
  ∧ hexState aliceRoom !! "__proto__" = None
  ∧ ∃ snapshot,
      (joinRoom "I" "bob"
         (updateHexState 7 "I" "0,0" {["color" := JStr "#ff0000"]} aliceStore).2).1
      = JoinSuccess snapshot
      ∧ snapshot !! "0,0"
        = Some (mergeCell (hexState aliceRoom !! "0,0") {["color" := JStr "#ff0000"]} 7).
Proof.
  assert (H1 : rooms aliceStore !! "I" = Some aliceRoom) by (vm_compute; reflexivity).
  assert (H2 : "0,0" ≠ "__proto__") by discriminate.
  assert (H3 : hexState aliceRoom !! "__proto__" = None) by (vm_compute; reflexivity).
  split; [exact H1|]. split; [exact H2|]. split; [exact H3|].
  destruct (joinRoom_snapshot_has_write 7 "I" "0,0" "bob" {["color" := JStr "#ff0000"]}
              aliceStore aliceRoom H1 H2 H3) as (snapshot & E1 & E2 & _).
  exists snapshot. split; [exact E1|exact E2].
Defined.

Lemma updateHexState_frame_witness :
  inherited "I" = false
  ∧ "0,0" ≠ "__proto__"
  ∧ userRooms (updateHexState 7 "I" "0,0" {["color" := JStr "#ff0000"]} aliceStore).2
    = userRooms aliceStore
  ∧ (updateHexState 7 "ZZZZZZ" "0,0" {["color" := JStr "#ff0000"]} aliceStore).1 = false.
Proof.
  assert (H1 : inherited "I" = false) by (vm_compute; reflexivity).
  assert (H2 : "0,0" ≠ "__proto__") by discriminate.
  split; [exact H1|]. split; [exact H2|].
  split; [|vm_compute; reflexivity].
  exact (proj1 (proj2 (updateHexState_frame 7 "I" "0,0" {["color" := JStr "#ff0000"]}
                         aliceStore H1 H2))).
Defined.

Lemma updateHexState_compose_witness :
  inherited "I" = false
  ∧ "0,0" ≠ "__proto__"
  ∧ (updateHexState 2 "I" "0,0" {["height" := JNum (Fin 2)]}
       (updateHexState 1 "I" "0,0" {["color" := JStr "#ff0000"]} aliceStore).2).2
    = (updateHexState 2 "I" "0,0"
         ({["height" := JNum (Fin 2)]} ∪ {["color" := JStr "#ff0000"]}) aliceStore).2.
Proof.
  assert (H1 : inherited "I" = false) by (vm_compute; reflexivity).
  assert (H2 : "0,0" ≠ "__proto__") by discriminate.
  assert (H3 : ∀ room, rooms aliceStore !! "I" = Some room →
                       hexState room !! "__proto__" = None).
  { intros room Hroom.
    assert (E : rooms aliceStore !! "I" = Some aliceRoom) by (vm_compute; reflexivity).
    rewrite E in Hroom. injection Hroom as <-. vm_compute. reflexivity. }
  split; [exact H1|]. split; [exact H2|].
  exact (proj1 (updateHexState_compose 1 2 "I" "0,0" {["color" := JStr "#ff0000"]}
                  {["height" := JNum (Fin 2)]} aliceStore H1 H2 H3)).
Defined.

Lemma updateHexState_commute_witness :
  ("I", "0,0") ≠ ("I", "1,0")
  ∧ inherited "I" = false
  ∧ "0,0" ≠ "__proto__" ∧ "1,0" ≠ "__proto__"
  ∧ ∀ code hexId,
      cellOf (updateHexState 2 "I" "1,0" {["height" := JNum (Fin 2)]}
                (updateHexState 1 "I" "0,0" {["color" := JStr "#ff0000"]} aliceStore).2).2
        code hexId
      = cellOf (updateHexState 1 "I" "0,0" {["color" := JStr "#ff0000"]}
                  (updateHexState 2 "I" "1,0" {["height" := JNum (Fin 2)]} aliceStore).2).2
          code hexId.
Proof.
  assert (H : ("I", "0,0") ≠ ("I", "1,0")) by discriminate.
  assert (H1 : inherited "I" = false) by (vm_compute; reflexivity).
  assert (H2 : "0,0" ≠ "__proto__") by discriminate.
  assert (H3 : "1,0" ≠ "__proto__") by discriminate.
  split; [exact H|]. split; [exact H1|]. split; [exact H2|]. split; [exact H3|].
  exact (proj1 (updateHexState_commute 1 2 "I" "0,0" "I" "1,0" _ _ aliceStore
                  H H1 H1 H2 H3)).
Defined.

Lemma removeUserFromRooms_leaves_witness :
  collisionFree new aliceAndBob
  ∧ userRooms (removeUserFromRooms "alice" (run aliceAndBob)).2 !! "alice" = None.
Proof.
  assert (H : collisionFree new aliceAndBob) by (vm_compute; auto).
  split; [exact H|].
  exact (proj1 (removeUserFromRooms_leaves aliceAndBob "alice" H)).
Defined.

Lemma last_member_leaves_witness :
  rooms aliceStore !! "I" = Some aliceRoom
  ∧ "I" ∈ roomsOf aliceStore "alice"
  ∧ getRoomState "I" (removeUserFromRooms "alice" aliceStore).2 = None.
Proof.
  assert (H1 : rooms aliceStore !! "I" = Some aliceRoom) by (vm_compute; reflexivity).
  assert (H2 : "I" ∈ roomsOf aliceStore "alice") by (vm_compute; left).
  assert (H3 : ∀ member, member ∈ users aliceRoom → member = "alice").
  { intros member Hin. simpl in Hin. by apply list_elem_of_singleton in Hin. }
  split; [exact H1|]. split; [exact H2|].
  destruct (last_member_leaves "alice" "I" "bob" aliceStore aliceRoom H1 H2 H3)
    as (_ & Hgone & _).
  exact Hgone.
Defined.

Lemma everyone_leaves_witness :
  collisionFree new aliceAndBob
  ∧ leaveAll (run aliceAndBob) ["bob"; "alice"] = new.
Proof.
  assert (H : collisionFree new aliceAndBob) by (vm_compute; auto).
  split; [exact H|].
  apply (everyone_leaves aliceAndBob ["bob"; "alice"] H).
  intros userId [codes Hcodes].
  destruct (decide (userId = "alice")) as [->|Ha]; [set_solver|].
  destruct (decide (userId = "bob")) as [->|Hb]; [set_solver|].
  assert (E : userRooms (run aliceAndBob)
              = <["bob" := ["I"]]> (<["alice" := ["I"]]> ∅)) by (vm_compute; reflexivity).
  rewrite E, !lookup_insert_ne, lookup_empty in Hcodes by done. discriminate.
Defined.

Lemma generateRoomCode_shape_witness :
  (0 <= 1 # 3 < 1)%Q
  ∧ (String.length (generateRoomCode (1 # 3)) ≤ 6)%nat.
Proof.
  assert (H : (0 <= 1 # 3 < 1)%Q) by (split; [by vm_compute|reflexivity]).
  split; [exact H|].
  exact (proj1 (generateRoomCode_shape (1 # 3) H)).
Defined.

Lemma collisionFree_consistent_witness :
  collisionFree new aliceAndBob ∧ consistent (run aliceAndBob).
Proof.
  assert (H : collisionFree new aliceAndBob) by (vm_compute; auto).
  split; [exact H|].
  exact (collisionFree_consistent aliceAndBob H).
Defined.

End RoomLaws.

(** * The region as a ball *)

Module HexBall.

Import HexUtils HexRegion.

Local Open Scope Z_scope.




End HexBall.

(** * Rounding to cells *)

Module HexRounding.

Import JSNumber JSMath HexCoordinates Doubles.

Local Open Scope Q_scope.

(** [Math.round] of a number less than one half away from an integer. *)
Lemma round_near (x : Q) (k : Z) :
  - (1 # 2) <= x - inject_Z k < 1 # 2 → Qfloor (x + (1 # 2)) = k.
Proof. intros H. apply Qfloor_unique. lra. Qed.

Lemma inject_Z_bound (a c : Z) : (Z.abs a ≤ c)%Z → Qabs (inject_Z a) <= inject_Z c.
Proof.
  intros H. apply Qabs_Qle_condition.
  rewrite <- inject_Z_opp, <- !Zle_Qle. lia.
Qed.

(** A point less than one half away from a cell in [q], in [r] and in
    [s = -q - r] is rounded to that cell, whichever coordinate is recomputed. *)
Lemma roundAxial_snap (q r : Q) (a b : Z) :
  (Z.abs a ≤ 2 ^ 40)%Z → (Z.abs b ≤ 2 ^ 40)%Z →
  Qabs (q - inject_Z a) < 1 # 2 →
  Qabs (r - inject_Z b) < 1 # 2 →
  Qabs (q + r - inject_Z a - inject_Z b) < 1 # 2 →
  isInteger (aq (roundAxial (Fin q) (Fin r))) a
  ∧ isInteger (ar (roundAxial (Fin q) (Fin r))) b.
Proof.
  intros Ha Hb Hq Hr Hs.
  apply Qabs_Qlt_condition in Hq, Hr, Hs.
  assert (Eq : Qfloor (q + (1 # 2)) = a) by (apply round_near; lra).
  assert (Er : Qfloor (r + (1 # 2)) = b) by (apply round_near; lra).
  assert (Es : Qfloor (- q + - r + (1 # 2)) = (- a - b)%Z).
  { apply round_near. unfold Zminus. rewrite inject_Z_plus, !inject_Z_opp. lra. }
  pose proof (inject_Z_bound a _ Ha) as Ba.
  pose proof (inject_Z_bound b _ Hb) as Bb.
  assert (Bs : Qabs (inject_Z (- a - b)) <= inject_Z (2 ^ 41)) by (apply inject_Z_bound; lia).
  assert (Bq : Qabs q <= inject_Z (2 ^ 41)).
  { apply Qabs_Qle_condition in Ba. apply Qabs_Qle_condition.
    change (inject_Z (2 ^ 40)) with 1099511627776 in Ba.
    change (inject_Z (2 ^ 41)) with 2199023255552. lra. }
  assert (Br : Qabs r <= inject_Z (2 ^ 41)).
  { apply Qabs_Qle_condition in Bb. apply Qabs_Qle_condition.
    change (inject_Z (2 ^ 40)) with 1099511627776 in Bb.
    change (inject_Z (2 ^ 41)) with 2199023255552. lra. }
  unfold roundAxial. cbv zeta.
  assert ((- Fin q - Fin r)%num = Fin (- q + - r)) as -> by (arith; reflexivity).
  cbn [round]. rewrite Eq, Er, Es. arith.
  assert (Hsum : - inject_Z b + - inject_Z (- a - b) == inject_Z a).
  { unfold Zminus. rewrite inject_Z_plus, !inject_Z_opp. ring. }
  assert (Hsum' : - inject_Z a + - inject_Z (- a - b) == inject_Z b).
  { unfold Zminus. rewrite inject_Z_plus, !inject_Z_opp. ring. }
  destruct (gtb _ _ && gtb _ _); [|destruct (gtb _ _)]; cbn [aq ar];
    split; eexists; (split; [reflexivity|]); done.
Qed.

(** X14.  [roundAxial] sends a point that is at most [3/8] away from a cell
    [(a, b)] in each of the three cube coordinates [q], [r] and [s = -q - r]
    to that cell, for cells with [|a|, |b| <= 2^40]; in particular it returns
    integer coordinates of that size as they are. *)
Theorem roundAxial_nearest_cell (q r : Q) (a b : Z) :
  (Z.abs a ≤ 2 ^ 40)%Z → (Z.abs b ≤ 2 ^ 40)%Z →
  Qabs (q - inject_Z a) <= 3 # 8 →
  Qabs (r - inject_Z b) <= 3 # 8 →
  Qabs (q + r - inject_Z a - inject_Z b) <= 3 # 8 →
  isInteger (aq (roundAxial (Fin q) (Fin r))) a
  ∧ isInteger (ar (roundAxial (Fin q) (Fin r))) b.
Proof.
  intros Ha Hb Hq Hr Hs.
  apply roundAxial_snap; try done;
    (eapply Qle_lt_trans; [eassumption|reflexivity]).
Qed.

Lemma roundAxial_nearest_cell_witness :
  Qabs ((29 # 10) - inject_Z 3) <= 3 # 8
  ∧ isInteger (aq (roundAxial (Fin (29 # 10)) (Fin (- (38 # 10))))) 3
  ∧ isInteger (ar (roundAxial (Fin (29 # 10)) (Fin (- (38 # 10))))) (-4).
Proof.
  assert (A1 : (Z.abs 3 ≤ 2 ^ 40)%Z) by (by vm_compute).
  assert (A2 : (Z.abs (-4) ≤ 2 ^ 40)%Z) by (by vm_compute).
  assert (H1 : Qabs ((29 # 10) - inject_Z 3) <= 3 # 8) by (by vm_compute).
  assert (H2 : Qabs (- (38 # 10) - inject_Z (-4)) <= 3 # 8) by (by vm_compute).
  assert (H3 : Qabs ((29 # 10) + - (38 # 10) - inject_Z 3 - inject_Z (-4)) <= 3 # 8)
    by (by vm_compute).
  split; [exact H1|].
  exact (roundAxial_nearest_cell (29 # 10) (- (38 # 10)) 3 (-4) A1 A2 H1 H2 H3).
Defined.

(** The size of a [sqrt3] whose square is near three. *)
Lemma sqrt3_bound (s3 : Q) :
  Qabs (s3 * s3 - 3) <= 1 # 1000000000000000 → Qabs s3 <= 2.
Proof.
  intros H. apply Qabs_Qle_condition in H. apply Qabs_Qle_condition.
  split; nra.
Qed.

Lemma size_bounds (sz : Q) :
  / inject_Z (2 ^ 100) <= Qabs sz <= inject_Z (2 ^ 100) →
  ¬ sz == 0 ∧ Qabs sz <= inject_Z (2 ^ 100) ∧ Qabs (/ sz) <= inject_Z (2 ^ 100).
Proof.
  intros [Hlo Hhi].
  assert (Hpos : 0 < Qabs sz) by (eapply Qlt_le_trans; [|exact Hlo]; reflexivity).
  split; [|split; [done|]].
  - intros E. rewrite E in Hpos. by apply (Qlt_irrefl 0).
  - rewrite Qabs_Qinv. apply Qle_shift_inv_r; [done|].
    apply (Qmult_le_r _ _ (/ inject_Z (2 ^ 100))); [reflexivity|].
    rewrite <- Qmult_assoc, (Qmult_comm (Qabs sz)), Qmult_assoc.
    assert (E : inject_Z (2 ^ 100) * / inject_Z (2 ^ 100) == 1) by reflexivity.
    rewrite E, !Qmult_1_l. done.
Qed.

(** The positions and the fractional cells computed from them stay in the
    range of doubles. *)
Lemma pixelToAxial_position (s3 sz : Q) (a b : Z) :
  / inject_Z (2 ^ 100) <= Qabs sz <= inject_Z (2 ^ 100) →
  Qabs (s3 * s3 - 3) <= 1 # 1000000000000000 →
  (Z.abs a ≤ 2 ^ 20)%Z → (Z.abs b ≤ 2 ^ 20)%Z →
  axialToPixel (Fin s3) (Fin sz) (Fin (inject_Z a)) (Fin (inject_Z b))
  = {| vx := Fin (sz * (3 / 2 * inject_Z a)); vy := Fin 0;
       vz := Fin (- (sz * (s3 / 2 * inject_Z a + s3 * inject_Z b))) |}
  ∧ ∀ sign : Q,
      Qabs sign <= 1 →
      pixelToAxial (Fin s3) (Fin sz) (Fin (sz * (3 / 2 * inject_Z a)))
        (Fin (sign * (sz * (s3 / 2 * inject_Z a + s3 * inject_Z b))))
      = roundAxial (Fin (2 / 3 * (sz * (3 / 2 * inject_Z a)) / sz))
          (Fin ((- (1) / 3 * (sz * (3 / 2 * inject_Z a))
                 + s3 / 3 * (sign * (sz * (s3 / 2 * inject_Z a + s3 * inject_Z b))))
                / sz)).
Proof.
  intros Hsz Hs Ha Hb.
  destruct (size_bounds sz Hsz) as (Hnz & Bsz & Bi).
  pose proof (sqrt3_bound s3 Hs) as Bs3.
  pose proof (inject_Z_bound a _ Ha) as Ba.
  pose proof (inject_Z_bound b _ Hb) as Bb.
  split.
  - unfold axialToPixel. cbv zeta. arith. reflexivity.
  - intros sign Bsign. unfold pixelToAxial. cbv zeta. arith. reflexivity.
Qed.

(** The error of [sqrt3 * sqrt3] against three, over the cells at hand. *)
Lemma sqrt3_error (s3 : Q) (a b : Z) :
  Qabs (s3 * s3 - 3) <= 1 # 1000000000000000 →
  (Z.abs (a + 2 * b) ≤ 1000000000000000)%Z →
  Qabs ((s3 * s3 - 3) * inject_Z (a + 2 * b) / 6) < 1 # 2.
Proof.
  intros Hs Hab.
  assert (Hm : Qabs (inject_Z (a + 2 * b)) <= 1000000000000000).
  { apply Qabs_Qle_condition.
    change 1000000000000000 with (inject_Z 1000000000000000).
    rewrite <- inject_Z_opp, <- !Zle_Qle. lia. }
  set (d := s3 * s3 - 3) in *. set (m := inject_Z (a + 2 * b)) in *.
  assert (Hdm : Qabs (d * m) <= 1).
  { rewrite Qabs_Qmult.
    apply (Qle_trans _ ((1 # 1000000000000000) * 1000000000000000)).
    - apply Qmult_le_compat_nonneg; split; (apply Qabs_nonneg || assumption).
    - by vm_compute. }
  apply Qabs_Qle_condition in Hdm. apply Qabs_Qlt_condition.
  clearbody d m. set (p := d * m) in *. clearbody p.
  unfold Qdiv. change (/ 6) with (1 # 6). split; lra.
Qed.

(** X15.  On the grid [pixelToAxial] undoes [getObjectPosition]: from the
    [x] and [z] of the position of the cell [(a, b)] it returns [(a, b)], for
    cells with [|a|, |b| <= 2^20], a size of magnitude between [2^-100] and
    [2^100], and every value of [Math.sqrt(3)] whose square is within
    [10^-15] of three. *)
Theorem pixelToAxial_getObjectPosition (s3 sz : Q) (a b : Z) (height : num) :
  / inject_Z (2 ^ 100) <= Qabs sz <= inject_Z (2 ^ 100) →
  Qabs (s3 * s3 - 3) <= 1 # 1000000000000000 →
  (Z.abs a ≤ 2 ^ 20)%Z → (Z.abs b ≤ 2 ^ 20)%Z →
  let position :=
    getObjectPosition (Fin s3) (Fin sz) (Fin (inject_Z a)) (Fin (inject_Z b)) height in
  let cell := pixelToAxial (Fin s3) (Fin sz) (vx position) (vz position) in
  isInteger (aq cell) a ∧ isInteger (ar cell) b.
Proof.
  intros Hsz Hs Ha Hb position cell. subst position cell.
  destruct (pixelToAxial_position s3 sz a b Hsz Hs Ha Hb) as [Epos Ecell].
  destruct (size_bounds sz Hsz) as (Hnz & _ & _).
  unfold getObjectPosition. rewrite Epos. cbn [vx vy vz neg].
  assert (E1 : - - (sz * (s3 / 2 * inject_Z a + s3 * inject_Z b))
               = 1 * (sz * (s3 / 2 * inject_Z a + s3 * inject_Z b))).
  { unfold Qopp, Qmult, Qden, Qnum.
    destruct (sz * (s3 / 2 * inject_Z a + s3 * inject_Z b)) as [n d].
    unfold Qmult, Qopp, Qnum, Qden. f_equal. lia. }
  rewrite E1, (Ecell 1) by (by vm_compute).
  assert (Hab : (Z.abs (a + 2 * b) ≤ 1000000000000000)%Z) by lia.
  pose proof (sqrt3_error s3 a b Hs Hab) as Herr.
  set (e := (s3 * s3 - 3) * inject_Z (a + 2 * b) / 6) in *.
  assert (He : e == (s3 * s3 - 3) * (inject_Z a + 2 * inject_Z b) / 6).
  { subst e. rewrite inject_Z_plus, inject_Z_mult. reflexivity. }
  assert (Eq : 2 / 3 * (sz * (3 / 2 * inject_Z a)) / sz == inject_Z a) by (field; done).
  assert (Er : (- (1) / 3 * (sz * (3 / 2 * inject_Z a))
                + s3 / 3 * (1 * (sz * (s3 / 2 * inject_Z a + s3 * inject_Z b)))) / sz
               == inject_Z b + e).
  { rewrite He. field. done. }
  apply Qabs_Qlt_condition in Herr.
  apply roundAxial_snap; [lia|lia|..]; apply Qabs_Qlt_condition; rewrite ?Eq, ?Er; lra.
Qed.

(** X16.  [pixelToAxial] does not undo [axialToPixel]: from the [x] and [z]
    of the vector [axialToPixel] returns for the cell [(a, b)] it returns the
    cell [(a, -a - b)], because [axialToPixel] returns [z] negated; for cells
    with [|a|, |b| <= 2^20], a size of magnitude between [2^-100] and [2^100],
    and every value of [Math.sqrt(3)] whose square is within [10^-15] of
    three. *)
Theorem pixelToAxial_axialToPixel (s3 sz : Q) (a b : Z) :
  / inject_Z (2 ^ 100) <= Qabs sz <= inject_Z (2 ^ 100) →
  Qabs (s3 * s3 - 3) <= 1 # 1000000000000000 →
  (Z.abs a ≤ 2 ^ 20)%Z → (Z.abs b ≤ 2 ^ 20)%Z →
  let position := axialToPixel (Fin s3) (Fin sz) (Fin (inject_Z a)) (Fin (inject_Z b)) in
  let cell := pixelToAxial (Fin s3) (Fin sz) (vx position) (vz position) in
  isInteger (aq cell) a ∧ isInteger (ar cell) (- a - b).
Proof.
  intros Hsz Hs Ha Hb position cell. subst position cell.
  destruct (pixelToAxial_position s3 sz a b Hsz Hs Ha Hb) as [Epos Ecell].
  destruct (size_bounds sz Hsz) as (Hnz & _ & _).
  rewrite Epos. cbn [vx vy vz].
  assert (E1 : - (sz * (s3 / 2 * inject_Z a + s3 * inject_Z b))
               = - (1) * (sz * (s3 / 2 * inject_Z a + s3 * inject_Z b))).
  { destruct (sz * (s3 / 2 * inject_Z a + s3 * inject_Z b)) as [n d].
    unfold Qmult, Qopp, Qnum, Qden. f_equal. }
  rewrite E1, (Ecell (- (1))) by (by vm_compute).
  assert (Hab : (Z.abs (a + 2 * b) ≤ 1000000000000000)%Z) by lia.
  pose proof (sqrt3_error s3 a b Hs Hab) as Herr.
  set (e := (s3 * s3 - 3) * inject_Z (a + 2 * b) / 6) in *.
  assert (He : e == (s3 * s3 - 3) * (inject_Z a + 2 * inject_Z b) / 6).
  { subst e. rewrite inject_Z_plus, inject_Z_mult. reflexivity. }
  assert (Eq : 2 / 3 * (sz * (3 / 2 * inject_Z a)) / sz == inject_Z a) by (field; done).
  assert (Er : (- (1) / 3 * (sz * (3 / 2 * inject_Z a))
                + s3 / 3 * (- (1) * (sz * (s3 / 2 * inject_Z a + s3 * inject_Z b)))) / sz
               == inject_Z (- a - b) - e).
  { rewrite He. unfold Zminus. rewrite inject_Z_plus, !inject_Z_opp. field. done. }
  apply Qabs_Qlt_condition in Herr.
  apply roundAxial_snap; [lia|lia|..]; apply Qabs_Qlt_condition; rewrite ?Eq, ?Er;
    unfold Zminus; rewrite ?inject_Z_plus, ?inject_Z_opp; lra.
Qed.

Lemma pixelToAxial_getObjectPosition_witness :
  / inject_Z (2 ^ 100) <= Qabs 1 <= inject_Z (2 ^ 100)
  ∧ Qabs (sqrt3_double * sqrt3_double - 3) <= 1 # 1000000000000000
  ∧ isInteger
      (aq (pixelToAxial (Fin sqrt3_double) (Fin 1)
             (vx (getObjectPosition (Fin sqrt3_double) (Fin 1) (Fin (inject_Z 7))
                    (Fin (inject_Z (-3))) (Fin 2)))
             (vz (getObjectPosition (Fin sqrt3_double) (Fin 1) (Fin (inject_Z 7))
                    (Fin (inject_Z (-3))) (Fin 2)))))
      7.
Proof.
  assert (H1 : / inject_Z (2 ^ 100) <= Qabs 1 <= inject_Z (2 ^ 100))
    by (split; by vm_compute).
  assert (H2 : Qabs (sqrt3_double * sqrt3_double - 3) <= 1 # 1000000000000000)
    by (by vm_compute).
  assert (H3 : (Z.abs 7 ≤ 2 ^ 20)%Z) by (by vm_compute).
  assert (H4 : (Z.abs (-3) ≤ 2 ^ 20)%Z) by (by vm_compute).
  split; [exact H1|]. split; [exact H2|].
  exact (proj1 (pixelToAxial_getObjectPosition sqrt3_double 1 7 (-3) (Fin 2) H1 H2 H3 H4)).
Defined.

Lemma pixelToAxial_axialToPixel_witness :
  / inject_Z (2 ^ 100) <= Qabs 1 <= inject_Z (2 ^ 100)
  ∧ Qabs (sqrt3_double * sqrt3_double - 3) <= 1 # 1000000000000000
  ∧ isInteger
      (ar (pixelToAxial (Fin sqrt3_double) (Fin 1)
             (vx (axialToPixel (Fin sqrt3_double) (Fin 1) (Fin (inject_Z 7))
                    (Fin (inject_Z (-3)))))
             (vz (axialToPixel (Fin sqrt3_double) (Fin 1) (Fin (inject_Z 7))
                    (Fin (inject_Z (-3)))))))
      (- 7 - -3).
Proof.
  assert (H1 : / inject_Z (2 ^ 100) <= Qabs 1 <= inject_Z (2 ^ 100))
    by (split; by vm_compute).
  assert (H2 : Qabs (sqrt3_double * sqrt3_double - 3) <= 1 # 1000000000000000)
    by (by vm_compute).
  assert (H3 : (Z.abs 7 ≤ 2 ^ 20)%Z) by (by vm_compute).
  assert (H4 : (Z.abs (-3) ≤ 2 ^ 20)%Z) by (by vm_compute).
  split; [exact H1|]. split; [exact H2|].
  exact (proj2 (pixelToAxial_axialToPixel sqrt3_double 1 7 (-3) H1 H2 H3 H4)).
Defined.

End HexRounding.

(** * Cell ids *)

Module HexIdFacts.
Import JSNumber JSMath HexIds.

Ltac each_ascii c :=
  destruct c as [[] [] [] [] [] [] [] []]; vm_compute; try reflexivity; try discriminate; intuition congruence.

Lemma app_String c s1 s2 : String c s1 +:+ s2 = String c (s1 +:+ s2).
Proof. reflexivity. Qed.

Lemma app_empty_r s : s +:+ "" = s.
Proof. induction s as [|c s IH]; [done|]. by rewrite app_String, IH. Qed.

Lemma allChars_app P s1 s2 :
  allChars P (s1 +:+ s2) = allChars P s1 && allChars P s2.
Proof.
  induction s1 as [|c s1 IH]; [done|].
  rewrite app_String. cbn [allChars]. by rewrite IH, andb_assoc.
Qed.

Lemma allChars_mono (P P' : ascii → bool) s :
  (∀ c, P c = true → P' c = true) → allChars P s = true → allChars P' s = true.
Proof.
  intros HP. induction s as [|c s IH]; cbn [allChars]; [done|].
  rewrite !andb_true_iff. naive_solver.
Qed.

Lemma rev_app_app s1 s2 s3 :
  String.rev_app (String.rev_app s1 s2) s3 = String.rev_app s2 (s1 +:+ s3).
Proof.
  revert s2 s3. induction s1 as [|c s1 IH]; intros s2 s3; [done|].
  cbn [String.rev_app]. rewrite IH. reflexivity.
Qed.

Lemma rev_rev s : String.rev (String.rev s) = s.
Proof. unfold String.rev. rewrite rev_app_app. cbn. apply app_empty_r. Qed.

Lemma allChars_rev_app P s1 s2 :
  allChars P (String.rev_app s1 s2) = allChars P s1 && allChars P s2.
Proof.
  revert s2. induction s1 as [|c s1 IH]; intros s2; [done|].
  cbn [String.rev_app allChars]. rewrite IH. cbn [allChars].
  destruct (P c), (allChars P s1), (allChars P s2); reflexivity.
Qed.

Lemma trimStart_id s :
  allChars (λ c, negb (isWhiteSpace c)) s = true → trimStart s = s.
Proof.
  destruct s as [|c s]; [done|]. cbn [allChars trimStart].
  intros [Hc _]%andb_true_iff. by destruct (isWhiteSpace c).
Qed.

Lemma trim_id s :
  allChars (λ c, negb (isWhiteSpace c)) s = true → trim s = s.
Proof.
  intros Hs. unfold trim. rewrite (trimStart_id s Hs).
  rewrite trimStart_id; [apply rev_rev|].
  unfold String.rev. rewrite allChars_rev_app, Hs. reflexivity.
Qed.

Lemma splitAt_none stop s :
  allChars (λ c, negb (stop c)) s = true → splitAt stop s = (s, None).
Proof.
  induction s as [|c s IH]; [done|]. cbn [allChars splitAt].
  intros [Hc Hs]%andb_true_iff. destruct (stop c); [done|].
  by rewrite (IH Hs).
Qed.

Lemma splitPieces_none sep s :
  allChars (λ c, negb (bool_decide (c = sep))) s = true →
  splitPieces sep s = (s, []).
Proof.
  induction s as [|c s IH]; [done|]. cbn [allChars splitPieces].
  intros [Hc Hs]%andb_true_iff. destruct (bool_decide (c = sep)); [done|].
  by rewrite (IH Hs).
Qed.

Lemma splitPieces_at sep s1 s2 :
  allChars (λ c, negb (bool_decide (c = sep))) s1 = true →
  splitPieces sep (s1 +:+ String sep s2)
  = (s1, (splitPieces sep s2).1 :: (splitPieces sep s2).2).
Proof.
  induction s1 as [|c s1 IH].
  - intros _. cbn [String.app splitPieces]. change ("" +:+ String sep s2) with (String sep s2).
    cbn [splitPieces]. by rewrite bool_decide_true.
  - cbn [allChars]. intros [Hc Hs]%andb_true_iff. rewrite app_String.
    cbn [splitPieces]. destruct (bool_decide (c = sep)); [done|].
    by rewrite (IH Hs).
Qed.

(** *** The characters of a printed integer *)

Lemma N_of_digitChar d : (d < 10)%N → N_of_ascii (digitChar d) = (48 + d)%N.
Proof. intros Hd. unfold digitChar. apply N_ascii_embedding. lia. Qed.

Lemma isDecimal_digitChar d : (d < 10)%N → isDecimal (digitChar d) = true.
Proof.
  intros Hd. unfold isDecimal. rewrite (N_of_digitChar d Hd).
  apply andb_true_iff. split; apply N.leb_le; lia.
Qed.

Lemma digitOf_digitChar d : (d < 10)%N → digitOf 10 (digitChar d) = Some d.
Proof.
  intros Hd. unfold digitOf. rewrite (N_of_digitChar d Hd).
  replace (48 <=? 48 + d)%N with true by (symmetry; apply N.leb_le; lia).
  replace (48 + d <=? 57)%N with true by (symmetry; apply N.leb_le; lia).
  cbn [andb mbind option_bind]. replace (48 + d - 48)%N with d by lia.
  cbn. replace (d <? 10)%N with true by (symmetry; apply N.ltb_lt; lia).
  reflexivity.
Qed.

Lemma decimalDigits_chars fuel n acc :
  allChars isDecimal acc = true →
  allChars isDecimal (decimalDigits fuel n acc) = true.
Proof.
  revert n acc. induction fuel as [|fuel IH]; intros n acc Hacc; [done|].
  cbn [decimalDigits].
  assert (allChars isDecimal (String (digitChar (n mod 10)) acc) = true) as H'.
  { cbn [allChars]. rewrite Hacc, isDecimal_digitChar; [done|].
    apply N.mod_lt. lia. }
  destruct (n / 10 =? 0)%N; [done|]. by apply IH.
Qed.

Lemma decimalDigits_nonempty fuel n acc :
  acc ≠ "" → decimalDigits fuel n acc ≠ "".
Proof.
  revert n acc. induction fuel as [|fuel IH]; intros n acc Hacc; [done|].
  cbn [decimalDigits]. destruct (n / 10 =? 0)%N; [done|]. by apply IH.
Qed.

Lemma decimalDigits_value fuel n acc :
  (n < 2 ^ N.of_nat fuel)%N →
  ∃ k, ∀ a, digitsFrom 10 a (decimalDigits fuel n acc)
            = digitsFrom 10 (a * 10 ^ k + n) acc.
Proof.
  revert n acc. induction fuel as [|fuel IH]; intros n acc Hn.
  - exists 0%N. intros a. cbn [decimalDigits]. f_equal.
    change (2 ^ N.of_nat 0)%N with 1%N in Hn. lia.
  - cbn [decimalDigits].
    assert (n mod 10 < 10)%N as Hd by (apply N.mod_lt; lia).
    pose proof (N.div_mod n 10 ltac:(lia)) as Hdiv.
    destruct (N.eqb_spec (n / 10) 0) as [H0|H0].
    + exists 1%N. intros a. cbn [digitsFrom]. rewrite (digitOf_digitChar _ Hd).
      cbn [mbind option_bind]. f_equal. lia.
    + destruct (IH (n / 10)%N (String (digitChar (n mod 10)) acc)) as [k Hk].
      { rewrite Nat2N.inj_succ, N.pow_succ_r' in Hn.
        apply N.Div0.div_lt_upper_bound. lia. }
      exists (N.succ k). intros a. rewrite Hk. cbn [digitsFrom].
      rewrite (digitOf_digitChar _ Hd). cbn [mbind option_bind]. f_equal.
      rewrite N.pow_succ_r'. lia.
Qed.

Lemma printed_chars n : allChars isDecimal (printed n) = true.
Proof. by apply decimalDigits_chars. Qed.

Lemma printed_nonempty n : printed n ≠ "".
Proof.
  unfold printed. cbn [decimalDigits]. destruct (n / 10 =? 0)%N; [done|].
  by apply decimalDigits_nonempty.
Qed.

Lemma printed_value n : digits 10 (printed n) = Some n.
Proof.
  pose proof (printed_nonempty n) as Hne.
  destruct (decimalDigits_value (S (N.to_nat (N.log2 n))) n "") as [k Hk].
  { rewrite Nat2N.inj_succ, N2Nat.id.
    destruct (N.eq_dec n 0%N) as [->|Hn]; [done|].
    apply N.log2_spec. lia. }
  fold (printed n) in Hk. unfold digits.
  destruct (printed n) as [|c s] eqn:E; [done|].
  rewrite Hk. reflexivity.
Qed.

Lemma numberToString_spec z :
  numberToString z
  = if (z <? 0)%Z then String "-" (printed (Z.abs_N z)) else printed (Z.abs_N z).
Proof. reflexivity. Qed.

Lemma decimal_no_space c : isDecimal c = true → negb (isWhiteSpace c) = true.
Proof. each_ascii c. Qed.
Lemma decimal_no_mark c : isDecimal c = true → negb (isExponentMark c) = true.
Proof. each_ascii c. Qed.
Lemma decimal_no_point c : isDecimal c = true → negb (isPoint c) = true.
Proof. each_ascii c. Qed.
Lemma idChar_no_comma c :
  idChar c = true → negb (bool_decide (c = ","%char)) = true.
Proof. each_ascii c. Qed.
Lemma idChar_no_space c : idChar c = true → negb (isWhiteSpace c) = true.
Proof. each_ascii c. Qed.
Lemma decimal_idChar c : isDecimal c = true → idChar c = true.
Proof. each_ascii c. Qed.
Lemma decimal_no_radix c : isDecimal c = true → radixOf c = None.
Proof. each_ascii c. Qed.
Lemma decimal_no_sign c :
  isDecimal c = true →
  bool_decide (c = "-"%char) = false ∧ bool_decide (c = "+"%char) = false
  ∧ c ≠ "I"%char.
Proof. each_ascii c. Qed.

Lemma numberToString_chars z : allChars idChar (numberToString z) = true.
Proof.
  rewrite numberToString_spec.
  pose proof (allChars_mono _ _ _ decimal_idChar (printed_chars (Z.abs_N z))).
  destruct (z <? 0)%Z; [|done]. cbn [allChars]. by rewrite H.
Qed.

(** A printed natural number reads as itself. *)
Lemma unsignedDecimal_printed n :
  ∃ x, unsignedDecimal (printed n) = Some x ∧ x == inject_Z (Z.of_N n).
Proof.
  unfold unsignedDecimal.
  rewrite (splitAt_none isExponentMark (printed n))
    by apply (allChars_mono _ _ _ decimal_no_mark), printed_chars.
  cbn [fst snd].
  rewrite (splitAt_none isPoint (printed n))
    by apply (allChars_mono _ _ _ decimal_no_point), printed_chars.
  cbn [fst snd default mbind option_bind]. rewrite app_empty_r, printed_value.
  cbn [mbind option_bind]. eexists. split; [reflexivity|].
  change (tenTo _) with 1%Q. ring.
Qed.

Lemma printed_signed n : signed (printed n) = (false, printed n).
Proof.
  pose proof (printed_chars n) as Hc. destruct (printed n) as [|c s]; [done|].
  cbn [allChars] in Hc. apply andb_true_iff in Hc as [Hc _].
  destruct (decimal_no_sign c Hc) as (H1 & H2 & _).
  cbn [signed]. by rewrite H1, H2.
Qed.

Lemma printed_not_Infinity n : printed n ≠ "Infinity".
Proof.
  pose proof (printed_chars n) as Hc. intros E. rewrite E in Hc. done.
Qed.

Lemma printed_radixPrefix n : radixPrefix (printed n) = None.
Proof.
  pose proof (printed_chars n) as Hc.
  destruct (printed n) as [|c0 [|c s]]; [done..|].
  cbn [allChars] in Hc. apply andb_true_iff in Hc as [_ [Hc _]%andb_true_iff].
  cbn [radixPrefix]. rewrite (decimal_no_radix c Hc).
  by destruct (bool_decide _).
Qed.

Lemma Number_numberToString z :
  ∃ x, Number (numberToString z) = Fin x ∧ x == inject_Z z.
Proof.
  unfold Number.
  rewrite (trim_id (numberToString z))
    by apply (allChars_mono _ _ _ idChar_no_space), numberToString_chars.
  rewrite numberToString_spec.
  destruct (unsignedDecimal_printed (Z.abs_N z)) as (x & Hx & Hv).
  pose proof (printed_nonempty (Z.abs_N z)) as Hne.
  destruct (Z.ltb_spec z 0) as [Hz|Hz].
  - assert (radixPrefix (String "-" (printed (Z.abs_N z))) = None) as ->.
    { by destruct (printed (Z.abs_N z)). }
    cbn [signed fst snd]. rewrite (bool_decide_true (_ = "-"%char)) by done.
    cbn [fst snd]. rewrite bool_decide_false by apply printed_not_Infinity.
    rewrite Hx. exists (- x)%Q. split; [done|].
    rewrite Hv, N2Z.inj_abs_N, <- inject_Z_opp. f_equiv. lia.
  - rewrite printed_radixPrefix, printed_signed. cbn [fst snd].
    rewrite bool_decide_false by apply printed_not_Infinity.
    rewrite Hx. destruct (printed (Z.abs_N z)); [done|].
    exists x. split; [done|]. rewrite Hv, N2Z.inj_abs_N. f_equiv. lia.
Qed.

Lemma split_getHexId q r :
  split "," (getHexId q r) = [numberToString q; numberToString r].
Proof.
  unfold split, getHexId.
  change ("," +:+ numberToString r) with (String "," (numberToString r)).
  rewrite splitPieces_at
    by apply (allChars_mono _ _ _ idChar_no_comma), numberToString_chars.
  rewrite splitPieces_none
    by apply (allChars_mono _ _ _ idChar_no_comma), numberToString_chars.
  reflexivity.
Qed.

Lemma parseHexId_getHexId_any (q r : Z) :
  ∃ x y, parseHexId (getHexId q r) = {| pq := Some (Fin x); pr := Some (Fin y) |}
         ∧ x == inject_Z q ∧ y == inject_Z r.
Proof.
  destruct (Number_numberToString q) as (x & Hx & Hxq).
  destruct (Number_numberToString r) as (y & Hy & Hyr).
  exists x, y. unfold parseHexId. rewrite split_getHexId.
  cbn [fmap list_fmap lookup list_lookup]. by rewrite Hx, Hy.
Qed.

Lemma getHexId_inj (q1 r1 q2 r2 : Z) :
  getHexId q1 r1 = getHexId q2 r2 → q1 = q2 ∧ r1 = r2.
Proof.
  intros E.
  destruct (parseHexId_getHexId_any q1 r1) as (x1 & y1 & E1 & Hx1 & Hy1).
  destruct (parseHexId_getHexId_any q2 r2) as (x2 & y2 & E2 & Hx2 & Hy2).
  rewrite E, E2 in E1. injection E1 as -> ->.
  split; apply inject_Z_injective; [by rewrite <- Hx1, <- Hx2|by rewrite <- Hy1, <- Hy2].
Qed.

(** X17.  [parseHexId] undoes [getHexId]: for integers [q] and [r] of
    magnitude at most [2^53] (the integers a number holds exactly),
    [parseHexId(getHexId(q, r))] is [{ q, r }]. *)
Theorem parseHexId_getHexId (q r : Z) :
  (Z.abs q ≤ 2 ^ 53)%Z → (Z.abs r ≤ 2 ^ 53)%Z →
  ∃ nq nr,
    parseHexId (getHexId q r) = {| pq := Some nq; pr := Some nr |}
    ∧ isInteger nq q ∧ isInteger nr r.
Proof.
  intros _ _. destruct (parseHexId_getHexId_any q r) as (x & y & E & Hx & Hy).
  exists (Fin x), (Fin y). split; [exact E|]. split; by eexists.
Qed.

Lemma parseHexId_getHexId_witness :
  (Z.abs (-12) ≤ 2 ^ 53)%Z
  ∧ ∃ nq nr,
      parseHexId (getHexId (-12) 305) = {| pq := Some nq; pr := Some nr |}
      ∧ isInteger nq (-12) ∧ isInteger nr 305.
Proof.
  assert (H1 : (Z.abs (-12) ≤ 2 ^ 53)%Z) by (by vm_compute).
  assert (H2 : (Z.abs 305 ≤ 2 ^ 53)%Z) by (by vm_compute).
  split; [exact H1|].
  exact (parseHexId_getHexId (-12) 305 H1 H2).
Defined.

(** X18.  Different cells have different ids: [getHexId] is injective on the
    integers of magnitude at most [2^53]. *)
Theorem getHexId_injective (q1 r1 q2 r2 : Z) :
  (Z.abs q1 ≤ 2 ^ 53)%Z → (Z.abs r1 ≤ 2 ^ 53)%Z →
  (Z.abs q2 ≤ 2 ^ 53)%Z → (Z.abs r2 ≤ 2 ^ 53)%Z →
  getHexId q1 r1 = getHexId q2 r2 → q1 = q2 ∧ r1 = r2.
Proof. intros _ _ _ _. apply getHexId_inj. Qed.

Lemma getHexId_injective_witness :
  (Z.abs 1 ≤ 2 ^ 53)%Z ∧ getHexId 1 (-1) = "1,-1" ∧ (1 = 1 ∧ -1 = -1)%Z.
Proof.
  assert (H1 : (Z.abs 1 ≤ 2 ^ 53)%Z) by (by vm_compute).
  assert (H2 : (Z.abs (-1) ≤ 2 ^ 53)%Z) by (by vm_compute).
  split; [exact H1|]. split; [reflexivity|].
  exact (getHexId_injective 1 (-1) 1 (-1) H1 H2 H1 H2 eq_refl).
Defined.

End HexIdFacts.

(** * Laws of the noise *)

Module NoiseLaws.

Import JSNumber JSMath NoiseGenerator NoiseCells Doubles Noise.
Import HexRounding.

Local Arguments mulberry32 : simpl never.
Local Arguments generatePermutation : simpl never.
Local Open Scope Q_scope.

(** ** Every read of the table is in bounds *)

Lemma tableCell_range (x : num) : (0 ≤ tableCell x < 256)%Z.
Proof. apply land_255_range. Qed.

(** With a finished table, the ten reads of [noise] find a number each, and
    the four hashes depend on the cell of [x] and [y] alone. *)
Lemma noise_reads (g : t) (X Y : Z) :
  tableReady (permutation g) → (0 ≤ X < 256)%Z → (0 ≤ Y < 256)%Z →
  ∃ paa pba pab pbb : Z, ∀ x y : num,
    tableCell x = X → tableCell y = Y →
    noise g x y = Some (blend paa pba pab pbb x y).
Proof.
  intros Hready HX HY.
  destruct (Hready (Z.to_nat X)) as (pX & EpX & HpX); [lia|].
  destruct (Hready (Z.to_nat (X + 1))) as (pX1 & EpX1 & HpX1); [lia|].
  destruct (Hready (Z.to_nat (pX + Y))) as (aa & Eaa & Haa); [lia|].
  destruct (Hready (Z.to_nat (pX + Y + 1))) as (ab & Eab & Hab); [lia|].
  destruct (Hready (Z.to_nat (pX1 + Y))) as (ba & Eba & Hba); [lia|].
  destruct (Hready (Z.to_nat (pX1 + Y + 1))) as (bb & Ebb & Hbb); [lia|].
  destruct (Hready (Z.to_nat aa)) as (paa & Epaa & Hpaa); [lia|].
  destruct (Hready (Z.to_nat ba)) as (pba & Epba & Hpba); [lia|].
  destruct (Hready (Z.to_nat ab)) as (pab & Epab & Hpab); [lia|].
  destruct (Hready (Z.to_nat bb)) as (pbb & Epbb & Hpbb); [lia|].
  exists paa, pba, pab, pbb. intros x y Ex Ey.
  unfold tableCell in Ex, Ey. unfold noise. cbv zeta. rewrite Ex, Ey.
  rewrite EpX. cbn [mbind option_bind]. rewrite EpX1. cbn [mbind option_bind].
  rewrite Eaa. cbn [mbind option_bind]. rewrite Eab. cbn [mbind option_bind].
  rewrite Eba. cbn [mbind option_bind]. rewrite Ebb. cbn [mbind option_bind].
  rewrite Epaa. cbn [mbind option_bind]. rewrite Epba. cbn [mbind option_bind].
  rewrite Epab. cbn [mbind option_bind]. rewrite Epbb. cbn [mbind option_bind].
  reflexivity.
Qed.

Lemma noise_blend (g : t) (x y : num) :
  tableReady (permutation g) →
  ∃ paa pba pab pbb : Z, noise g x y = Some (blend paa pba pab pbb x y).
Proof.
  intros Hready.
  destruct (noise_reads g _ _ Hready (tableCell_range x) (tableCell_range y))
    as (paa & pba & pab & pbb & H).
  exists paa, pba, pab, pbb. by apply H.
Qed.

(** ** Arguments that are not finite *)

Lemma gradient_NaN_l (hash : Z) (b : num) : gradient hash NaN b = NaN.
Proof.
  unfold gradient.
  destruct (Z.land hash 7 <? 4)%Z, (Z.land (Z.land hash 7) 1 =? 0)%Z,
    (Z.land (Z.land hash 7) 2 =? 0)%Z, b; reflexivity.
Qed.

Lemma gradient_NaN_r (hash : Z) (a : num) : gradient hash a NaN = NaN.
Proof.
  unfold gradient.
  destruct (Z.land hash 7 <? 4)%Z, (Z.land (Z.land hash 7) 1 =? 0)%Z,
    (Z.land (Z.land hash 7) 2 =? 0)%Z, a; reflexivity.
Qed.

Lemma fraction_not_finite (x : num) : isFinite x = false → (x - floor x)%num = NaN.
Proof. destruct x as [a|[]|]; done. Qed.

Lemma lerp_NaN_l (b t : num) : lerp NaN b t = NaN.
Proof. reflexivity. Qed.

Lemma lerp_NaN_t (a b : num) : lerp a b NaN = NaN.
Proof. unfold lerp. by destruct a as [?|[]|]. Qed.

Lemma blend_not_finite (paa pba pab pbb : Z) (x y : num) :
  isFinite x && isFinite y = false → blend paa pba pab pbb x y = NaN.
Proof.
  intros H. unfold blend. cbv zeta.
  destruct (isFinite x) eqn:Hx.
  - rewrite (fraction_not_finite y H). apply lerp_NaN_t.
  - rewrite (fraction_not_finite x Hx).
    change (fade NaN) with NaN. by rewrite !lerp_NaN_t.
Qed.

Lemma mul_not_finite (x f : num) : isFinite x = false → isFinite (x * f) = false.
Proof. destruct x as [a|[]|], f as [b|[]|]; try done; cbn; by destruct (Qzero b). Qed.

Lemma add_NaN_l (a : num) : (NaN + a)%num = NaN.
Proof. reflexivity. Qed.

Lemma octaveLoop_not_finite (g : t) (x y persistence : num) (octaves : nat)
    (st : octaves_state) :
  tableReady (permutation g) → isFinite x && isFinite y = false →
  ∃ st', octaveLoop g x y persistence octaves st = Some st'
         ∧ (octaves ≠ 0%nat ∨ total st = NaN → total st' = NaN).
Proof.
  intros Hready Hxy. revert st.
  induction octaves as [|octaves IH]; intros st.
  - exists st. split; [done|]. by intros [?|?].
  - cbn [octaveLoop].
    destruct (noise_blend g (x * frequency st) (y * frequency st) Hready)
      as (paa & pba & pab & pbb & ->).
    rewrite blend_not_finite.
    2:{ apply andb_false_iff. apply andb_false_iff in Hxy as [Hx|Hy];
          [left|right]; by apply mul_not_finite. }
    cbn [mbind option_bind].
    destruct (IH {| total := total st + NaN * amplitude st;
                    maxValue := maxValue st + amplitude st;
                    amplitude := amplitude st * persistence;
                    frequency := frequency st * Fin 2 |}) as (st' & -> & Hst').
    exists st'. split; [done|]. intros _. apply Hst'. right.
    cbn [total]. change (NaN * amplitude st)%num with NaN.
    by destruct (total st) as [?|[]|].
Qed.

(** X20.  Every read [noise] makes of the table of a constructed generator
    finds a number, whatever [x] and [y] are; and when [x] or [y] is [NaN]
    or an infinity, [noise] returns [NaN], and so does [fractalNoise] for
    every number of octaves and every persistence. *)
Theorem noise_not_finite (seed : Q) (x y : num) :
  (∃ n, noise (new seed) x y = Some n)
  ∧ (isFinite x && isFinite y = false →
     noise (new seed) x y = Some NaN
     ∧ ∀ (octaves : nat) (persistence : num),
         fractalNoise (new seed) x y octaves persistence = Some NaN).
Proof.
  pose proof (generatePermutation_ready seed) as Hready.
  destruct (noise_blend (new seed) x y Hready) as (paa & pba & pab & pbb & E).
  split; [by eexists|]. intros Hxy. split.
  - by rewrite E, blend_not_finite.
  - intros octaves persistence. unfold fractalNoise.
    destruct (octaveLoop_not_finite (new seed) x y persistence octaves
                {| total := Fin 0; frequency := Fin 1; amplitude := Fin 1;
                   maxValue := Fin 0 |} Hready Hxy) as (st' & E' & Hst').
    rewrite E'. cbn [mbind option_bind].
    destruct octaves as [|octaves].
    + cbn in E'. by injection E' as <-.
    + rewrite Hst' by (by left). reflexivity.
Qed.

(** ** The integer lattice *)

Lemma gradient_comp (hash : Z) (a b a' b' : Q) :
  a == a' → b == b' → Qabs a <= 1 → Qabs b <= 1 →
  ∃ g g', gradient hash (Fin a) (Fin b) = Fin g
          ∧ gradient hash (Fin a') (Fin b') = Fin g' ∧ g == g'
          ∧ Qabs g <= 2 ∧ Qabs g' <= 2.
Proof.
  intros Ha Hb Ba Bb.
  assert (Ba' : Qabs a' <= 1) by (by rewrite <- Ha).
  assert (Bb' : Qabs b' <= 1) by (by rewrite <- Hb).
  unfold gradient.
  destruct (Z.land hash 7 <? 4)%Z, (Z.land (Z.land hash 7) 1 =? 0)%Z,
    (Z.land (Z.land hash 7) 2 =? 0)%Z;
    arith; eexists _, _; (split; [reflexivity|split; [reflexivity|split; [|split]]]);
    try (rewrite Ha, Hb; reflexivity);
    (eapply Qle_trans; [bound|by vm_compute]).
Qed.

Lemma gradient_zero (hash : Z) (a b : Q) :
  a == 0 → b == 0 → ∃ g, gradient hash (Fin a) (Fin b) = Fin g ∧ g == 0.
Proof.
  intros Ha Hb.
  assert (Ba : Qabs a <= 1) by (rewrite Ha; by vm_compute).
  assert (Bb : Qabs b <= 1) by (rewrite Hb; by vm_compute).
  unfold gradient.
  destruct (Z.land hash 7 <? 4)%Z, (Z.land (Z.land hash 7) 1 =? 0)%Z,
    (Z.land (Z.land hash 7) 2 =? 0)%Z;
    arith; eexists; (split; [reflexivity|]); rewrite Ha, Hb; reflexivity.
Qed.

Lemma fadeQ_comp (a b : Q) : a == b → fadeQ a == fadeQ b.
Proof. intros H. unfold fadeQ. by rewrite H. Qed.

Lemma fadeQ_unit (t : Q) : 0 <= t <= 1 → 0 <= fadeQ t <= 1.
Proof. intros [H0 H1]. split; [by apply fadeQ_nonneg|by apply fadeQ_le_1]. Qed.

(** [lerp] of two numbers of magnitude at most two. *)
Lemma lerp_within (a b t : Q) :
  Qabs a <= 2 → Qabs b <= 2 → 0 <= t <= 1 →
  lerp (Fin a) (Fin b) (Fin t) = Fin (a + t * (b + - a))
  ∧ Qabs (a + t * (b + - a)) <= 2.
Proof.
  intros Ha Hb Ht. split.
  - apply lerp_finite; [by apply (Qle_trans _ 2)..|by apply bound_unit].
  - apply Qabs_Qle_condition in Ha, Hb. apply Qabs_Qle_condition. split; nra.
Qed.

(** The value [blend] computes from the distances [xf] and [yf] to the cell. *)
Lemma blend_fraction (paa pba pab pbb : Z) (x y : Q) :
  ∃ n, blend paa pba pab pbb (Fin x) (Fin y) = Fin n
       ∧ ∀ x' y' : Q,
           x - inject_Z (Qfloor x) == x' - inject_Z (Qfloor x') →
           y - inject_Z (Qfloor y) == y' - inject_Z (Qfloor y') →
           ∃ n', blend paa pba pab pbb (Fin x') (Fin y') = Fin n' ∧ n == n'.
Proof.
  assert (∀ xf yf xf' yf' : Q,
    0 <= xf < 1 → 0 <= yf < 1 → xf == xf' → yf == yf' →
    ∃ n n',
      lerp (lerp (gradient paa (Fin xf) (Fin yf))
                 (gradient pba (Fin xf - Fin 1) (Fin yf)) (fade (Fin xf)))
           (lerp (gradient pab (Fin xf) (Fin yf - Fin 1))
                 (gradient pbb (Fin xf - Fin 1) (Fin yf - Fin 1)) (fade (Fin xf)))
           (fade (Fin yf)) = Fin n
      ∧ lerp (lerp (gradient paa (Fin xf') (Fin yf'))
                   (gradient pba (Fin xf' - Fin 1) (Fin yf')) (fade (Fin xf')))
             (lerp (gradient pab (Fin xf') (Fin yf' - Fin 1))
                   (gradient pbb (Fin xf' - Fin 1) (Fin yf' - Fin 1)) (fade (Fin xf')))
             (fade (Fin yf')) = Fin n'
      ∧ n == n') as Hcore.
  { intros xf yf xf' yf' Hxf Hyf Hx Hy.
    assert (Hxf' : 0 <= xf' < 1) by (by rewrite <- Hx).
    assert (Hyf' : 0 <= yf' < 1) by (by rewrite <- Hy).
    assert (Bxf : Qabs xf <= 1) by (apply bound_unit; lra).
    assert (Byf : Qabs yf <= 1) by (apply bound_unit; lra).
    assert (Bxf' : Qabs xf' <= 1) by (apply bound_unit; lra).
    assert (Byf' : Qabs yf' <= 1) by (apply bound_unit; lra).
    assert ((Fin xf - Fin 1)%num = Fin (xf + - (1))) as -> by (arith; reflexivity).
    assert ((Fin yf - Fin 1)%num = Fin (yf + - (1))) as -> by (arith; reflexivity).
    assert ((Fin xf' - Fin 1)%num = Fin (xf' + - (1))) as -> by (arith; reflexivity).
    assert ((Fin yf' - Fin 1)%num = Fin (yf' + - (1))) as -> by (arith; reflexivity).
    rewrite !fade_finite by done.
    pose proof (fadeQ_comp _ _ Hx) as Hu. pose proof (fadeQ_comp _ _ Hy) as Hv.
    assert (Ru : 0 <= fadeQ xf <= 1) by (apply fadeQ_unit; lra).
    assert (Rv : 0 <= fadeQ yf <= 1) by (apply fadeQ_unit; lra).
    assert (Ru' : 0 <= fadeQ xf' <= 1) by (apply fadeQ_unit; lra).
    assert (Rv' : 0 <= fadeQ yf' <= 1) by (apply fadeQ_unit; lra).
    assert (Hx1 : xf + - (1) == xf' + - (1)) by (by rewrite Hx).
    assert (Hy1 : yf + - (1) == yf' + - (1)) by (by rewrite Hy).
    assert (Bx1 : Qabs (xf + - (1)) <= 1) by (apply bound_range; lra).
    assert (By1 : Qabs (yf + - (1)) <= 1) by (apply bound_range; lra).
    destruct (gradient_comp paa _ _ _ _ Hx Hy Bxf Byf)
      as (g1 & g1' & -> & -> & E1 & G1 & G1').
    destruct (gradient_comp pba _ _ _ _ Hx1 Hy Bx1 Byf)
      as (g2 & g2' & -> & -> & E2 & G2 & G2').
    destruct (gradient_comp pab _ _ _ _ Hx Hy1 Bxf By1)
      as (g3 & g3' & -> & -> & E3 & G3 & G3').
    destruct (gradient_comp pbb _ _ _ _ Hx1 Hy1 Bx1 By1)
      as (g4 & g4' & -> & -> & E4 & G4 & G4').
    destruct (lerp_within g1 g2 (fadeQ xf) G1 G2 Ru) as [-> L1].
    destruct (lerp_within g3 g4 (fadeQ xf) G3 G4 Ru) as [-> L2].
    destruct (lerp_within g1' g2' (fadeQ xf') G1' G2' Ru') as [-> L1'].
    destruct (lerp_within g3' g4' (fadeQ xf') G3' G4' Ru') as [-> L2'].
    destruct (lerp_within _ _ (fadeQ yf) L1 L2 Rv) as [-> _].
    destruct (lerp_within _ _ (fadeQ yf') L1' L2' Rv') as [-> _].
    eexists _, _. split; [reflexivity|split; [reflexivity|]].
    by rewrite E1, E2, E3, E4, Hu, Hv. }
  destruct (Hcore _ _ _ _ (fraction_range x) (fraction_range y)
              (reflexivity _) (reflexivity _)) as (n & _ & En & _ & _).
  exists n. split.
  - unfold blend. cbv zeta. rewrite !fraction_finite. exact En.
  - intros x' y' Hx Hy.
    destruct (Hcore _ _ _ _ (fraction_range x) (fraction_range y) Hx Hy)
      as (m & n' & Em & En' & E).
    rewrite En in Em. injection Em as <-.
    exists n'. split; [|done].
    unfold blend. cbv zeta. rewrite !fraction_finite. exact En'.
Qed.

(** [blend] on finite numbers, up to the equality of rationals. *)
Lemma blend_comp (paa pba pab pbb : Z) (x y x' y' : Q) :
  x - inject_Z (Qfloor x) == x' - inject_Z (Qfloor x') →
  y - inject_Z (Qfloor y) == y' - inject_Z (Qfloor y') →
  ∃ n n', blend paa pba pab pbb (Fin x) (Fin y) = Fin n
          ∧ blend paa pba pab pbb (Fin x') (Fin y') = Fin n' ∧ n == n'.
Proof.
  intros Hx Hy.
  destruct (blend_fraction paa pba pab pbb x y) as (n & En & H).
  destruct (H x' y' Hx Hy) as (n' & En' & E).
  by exists n, n'.
Qed.

Lemma Qfloor_shift (x : Q) (m : Z) : Qfloor (x + inject_Z m) = (Qfloor x + m)%Z.
Proof.
  apply Qfloor_unique. rewrite inject_Z_plus.
  pose proof (Qfloor_le x) as Hlo. pose proof (Qlt_floor x) as Hhi.
  rewrite inject_Z_plus in Hhi. change (inject_Z 1) with 1 in Hhi. lra.
Qed.

Lemma Qfloor_integer (x : Q) (i : Z) : x == inject_Z i → Qfloor x = i.
Proof. intros H. apply Qfloor_unique. lra. Qed.

(** The cell of a finite [x] is [Math.floor(x)] modulo 256: the wrap to 32
    bits that [&] performs does not change the low eight bits. *)
Lemma tableCell_finite (x : Q) : tableCell (Fin x) = (Qfloor x mod 256)%Z.
Proof.
  unfold tableCell. cbn [floor toInt32].
  assert (truncate (inject_Z (Qfloor x)) = Qfloor x) as ->.
  { unfold truncate. cbn. apply Z.quot_1_r. }
  change 255%Z with (Z.ones 8). rewrite Z.land_ones by done.
  unfold wrapInt32. set (z := Qfloor x).
  rewrite (Z.mod_eq (z + 2 ^ 31) (2 ^ 32)) by done.
  replace (z + 2 ^ 31 - 2 ^ 32 * ((z + 2 ^ 31) / 2 ^ 32) - 2 ^ 31)%Z
    with (z + (- ((z + 2 ^ 31) / 2 ^ 32) * 2 ^ 24) * 2 ^ 8)%Z by lia.
  apply Z_mod_plus_full.
Qed.

Lemma tableCell_shift (a a' : Q) (m : Z) :
  a' == a + inject_Z (256 * m) →
  tableCell (Fin a') = tableCell (Fin a)
  ∧ a - inject_Z (Qfloor a) == a' - inject_Z (Qfloor a').
Proof.
  intros H.
  assert (Qfloor a' = (Qfloor a + 256 * m)%Z) as E.
  { rewrite (Qfloor_comp _ _ H). apply Qfloor_shift. }
  split.
  - rewrite !tableCell_finite, E.
    replace (Qfloor a + 256 * m)%Z with (Qfloor a + m * 256)%Z by lia.
    apply Z_mod_plus_full.
  - rewrite E, H, !inject_Z_plus. ring.
Qed.

(** [noise] has period 256 in both arguments. *)
Lemma noise_shift (g : t) (a b a' b' : Q) (m n : Z) :
  tableReady (permutation g) →
  a' == a + inject_Z (256 * m) → b' == b + inject_Z (256 * n) →
  ∃ v v', noise g (Fin a) (Fin b) = Some (Fin v)
          ∧ noise g (Fin a') (Fin b') = Some (Fin v') ∧ v == v'
          ∧ - (1) <= v <= 1.
Proof.
  intros Hready Ha Hb.
  destruct (tableCell_shift a a' m Ha) as [Ea Fa].
  destruct (tableCell_shift b b' n Hb) as [Eb Fb].
  destruct (noise_range g a b Hready) as (v0 & E0 & Hv0).
  destruct (noise_reads g _ _ Hready (tableCell_range (Fin a)) (tableCell_range (Fin b)))
    as (paa & pba & pab & pbb & H).
  rewrite (H (Fin a) (Fin b)) in E0 by done.
  rewrite (H (Fin a) (Fin b)), (H (Fin a') (Fin b')) by done.
  destruct (blend_comp paa pba pab pbb a b a' b' Fa Fb) as (v & v' & Ev & -> & E).
  rewrite Ev in E0. injection E0 as <-. rewrite Ev.
  by exists v, v'.
Qed.

Lemma octaveLoop_shift (g : t) (x y x' y' rho : Q) (k l f : Z) (octaves : nat)
    (T T' F A M : Q) :
  tableReady (permutation g) → 0 <= rho <= 1 → 0 <= A <= 1 →
  x' == x + inject_Z (256 * k) → y' == y + inject_Z (256 * l) →
  F == inject_Z f → T == T' → - M <= T <= M →
  M + inject_Z (Z.of_nat octaves) <= 2000 →
  (∀ i, (i ≤ octaves)%nat →
        Qabs (F * inject_Z (2 ^ Z.of_nat i)) < overflowThreshold) →
  (∀ c i, c ∈ [x; y; x'; y'] → (i < octaves)%nat →
          Qabs (c * (F * inject_Z (2 ^ Z.of_nat i))) < overflowThreshold) →
  ∃ T1 T1' F1 A1 M1,
    octaveLoop g (Fin x) (Fin y) (Fin rho) octaves
      {| total := Fin T; frequency := Fin F; amplitude := Fin A; maxValue := Fin M |}
    = Some {| total := Fin T1; frequency := Fin F1; amplitude := Fin A1; maxValue := Fin M1 |}
    ∧ octaveLoop g (Fin x') (Fin y') (Fin rho) octaves
        {| total := Fin T'; frequency := Fin F; amplitude := Fin A; maxValue := Fin M |}
      = Some {| total := Fin T1'; frequency := Fin F1; amplitude := Fin A1; maxValue := Fin M1 |}
    ∧ T1 == T1'
    ∧ - M1 <= T1 <= M1
    ∧ (octaves ≠ 0%nat → M + A <= M1) ∧ M <= M1.
Proof.
  intros Hready Hrho HA Hx Hy. revert f T T' F A M HA.
  induction octaves as [|octaves IH]; intros f T T' F A M HA HF HT HM Hoct Hfreq Hcoord.
  - exists T, T', F, A, M. repeat split; try done; lra.
  - cbn [octaveLoop total frequency amplitude maxValue].
    assert (Hnow : ∀ c, c ∈ [x; y; x'; y'] → Qabs (c * F) < overflowThreshold).
    { intros c Hc. pose proof (Hcoord c 0%nat Hc ltac:(lia)) as H.
      change (inject_Z (2 ^ Z.of_nat 0)) with 1 in H. by rewrite Qmult_1_r in H. }
    assert (HF2 : Qabs (F * 2) < overflowThreshold) by (apply (Hfreq 1%nat); lia).
    rewrite (mul_Fin x F), (mul_Fin y F), (mul_Fin x' F), (mul_Fin y' F).
    rewrite !fin_finite by (apply Hnow; set_solver).
    destruct (noise_shift g (x * F) (y * F) (x' * F) (y' * F) (k * f) (l * f) Hready)
      as (v & v' & -> & -> & Hv & Rv).
    { rewrite Hx, HF, Z.mul_assoc, (inject_Z_mult (256 * k) f). ring. }
    { rewrite Hy, HF, Z.mul_assoc, (inject_Z_mult (256 * l) f). ring. }
    cbn [mbind option_bind].
    rewrite (mul_Fin F 2), (fin_finite _ HF2).
    assert (HS : inject_Z (Z.of_nat (S octaves)) == inject_Z (Z.of_nat octaves) + 1).
    { by rewrite Nat2Z.inj_succ, <- Z.add_1_r, inject_Z_plus. }
    assert (Ho : 0 <= inject_Z (Z.of_nat octaves)) by (rewrite <- (Zle_Qle 0); lia).
    assert (Bv : Qabs v <= 1) by (by apply bound_range).
    assert (Bv' : Qabs v' <= 1) by (by rewrite <- Hv).
    assert (BA : Qabs A <= 1) by (by apply bound_unit).
    assert (Br : Qabs rho <= 1) by (by apply bound_unit).
    assert (BT : Qabs T <= 2000) by (apply Qabs_Qle_condition; lra).
    assert (BT' : Qabs T' <= 2000) by (by rewrite <- HT).
    assert (BM : Qabs M <= 2000) by (apply Qabs_Qle_condition; lra).
    arith.
    destruct (IH (f * 2)%Z (T + v * A) (T' + v' * A) (F * 2) (A * rho) (M + A))
      as (T1 & T1' & F1 & A1 & M1 & -> & -> & HT1 & RT1 & _ & HM1).
    { split; nra. }
    { rewrite HF, inject_Z_mult. reflexivity. }
    { by rewrite HT, Hv. }
    { split; nra. }
    { lra. }
    { intros i Hi. pose proof (Hfreq (S i) ltac:(lia)) as H.
      rewrite pow2_succ in H.
      assert (E : F * 2 * inject_Z (2 ^ Z.of_nat i)
                  == F * (2 * inject_Z (2 ^ Z.of_nat i))) by ring.
      by rewrite E. }
    { intros c i Hc Hi. pose proof (Hcoord c (S i) Hc ltac:(lia)) as H.
      rewrite pow2_succ in H.
      assert (E : c * (F * 2 * inject_Z (2 ^ Z.of_nat i))
                  == c * (F * (2 * inject_Z (2 ^ Z.of_nat i)))) by ring.
      by rewrite E. }
    exists T1, T1', F1, A1, M1. repeat split; try done; lra.
Qed.

(** X21.  [noise] repeats with period 256 in [x] and in [y]: moving a finite
    point by [256 k] and [256 l] does not change its value (in exact
    arithmetic), for every seed.  So does [fractalNoise], for at least one
    and at most a thousand octaves, a persistence between [0] and [1] and
    points that stay in the range of doubles at the last frequency: the
    magnitude of each coordinate, before and after the move, times
    [2^(octaves - 1)] is below [2^1024 - 2^970]. *)
Theorem noise_period (seed x y rho : Q) (k l : Z) (octaves : nat) :
  (1 ≤ octaves)%nat → 0 <= rho →
  (∃ n n', noise (new seed) (Fin x) (Fin y) = Some (Fin n)
           ∧ noise (new seed) (Fin (x + inject_Z (256 * k))) (Fin (y + inject_Z (256 * l)))
             = Some (Fin n')
           ∧ n' == n)
  ∧ ((octaves ≤ 1000)%nat → rho <= 1 →
     (∀ c, c ∈ [x; y; x + inject_Z (256 * k); y + inject_Z (256 * l)] →
           Qabs c * inject_Z (2 ^ Z.of_nat (octaves - 1)) < overflowThreshold) →
     ∃ v v', fractalNoise (new seed) (Fin x) (Fin y) octaves (Fin rho) = Some (Fin v)
             ∧ fractalNoise (new seed) (Fin (x + inject_Z (256 * k)))
                 (Fin (y + inject_Z (256 * l))) octaves (Fin rho)
               = Some (Fin v')
             ∧ v' == v).
Proof.
  intros Hoct Hrho.
  pose proof (generatePermutation_ready seed) as Hready.
  split.
  - destruct (noise_shift (new seed) x y _ _ k l Hready
                (reflexivity _) (reflexivity _)) as (n & n' & E & E' & H & _).
    exists n, n'. repeat split; done.
  - intros Hmax Hrho1 Hcoord. unfold fractalNoise.
    destruct (octaveLoop_shift (new seed) x y (x + inject_Z (256 * k))
                (y + inject_Z (256 * l)) rho k l 1 octaves 0 0 1 1 0 Hready)
      as (T1 & T1' & F1 & A1 & M1 & -> & -> & HT & RT & HM & _);
      [lra|lra|reflexivity|reflexivity|reflexivity|reflexivity|lra| | | |].
    { apply (Qle_trans _ (0 + inject_Z 1000)); [|by vm_compute].
      apply Qplus_le_compat; [apply Qle_refl|]. rewrite <- Zle_Qle. lia. }
    { intros i Hi. apply frequency_small. lia. }
    { intros c i Hc Hi. apply (scaled_small c i (octaves - 1)); [lia|by apply Hcoord]. }
    specialize (HM ltac:(lia)).
    cbn [mbind option_bind total maxValue].
    destruct (normalize_finite T1 M1) as [-> _]; [lra|done|].
    destruct (normalize_finite T1' M1) as [-> _]; [lra|by rewrite <- HT|].
    eexists _, _. split; [reflexivity|split; [reflexivity|]].
    by rewrite HT.
Qed.

Lemma blend_lattice (paa pba pab pbb : Z) (x y : Q) (i j : Z) :
  x == inject_Z i → y == inject_Z j →
  ∃ n, blend paa pba pab pbb (Fin x) (Fin y) = Fin n ∧ n == 0.
Proof.
  intros Hx Hy. unfold blend. cbv zeta. rewrite !fraction_finite.
  assert (Hxf : x + - inject_Z (Qfloor x) == 0).
  { rewrite (Qfloor_integer x i Hx), Hx. ring. }
  assert (Hyf : y + - inject_Z (Qfloor y) == 0).
  { rewrite (Qfloor_integer y j Hy), Hy. ring. }
  pose proof (fraction_range x) as Rxf. pose proof (fraction_range y) as Ryf.
  pose proof (fraction_bound x) as Bxf. pose proof (fraction_bound y) as Byf.
  set (xf := x + - inject_Z (Qfloor x)) in *.
  set (yf := y + - inject_Z (Qfloor y)) in *.
  assert ((Fin xf - Fin 1)%num = Fin (xf + - (1))) as -> by (arith; reflexivity).
  assert ((Fin yf - Fin 1)%num = Fin (yf + - (1))) as -> by (arith; reflexivity).
  rewrite !fade_finite by done.
  assert (Hu : fadeQ xf == 0) by (rewrite (fadeQ_comp _ _ Hxf); reflexivity).
  assert (Hv : fadeQ yf == 0) by (rewrite (fadeQ_comp _ _ Hyf); reflexivity).
  assert (Ru : 0 <= fadeQ xf <= 1) by (apply fadeQ_unit; lra).
  assert (Rv : 0 <= fadeQ yf <= 1) by (apply fadeQ_unit; lra).
  assert (Bx1 : Qabs (xf + - (1)) <= 1) by (apply bound_range; lra).
  assert (By1 : Qabs (yf + - (1)) <= 1) by (apply bound_range; lra).
  destruct (gradient_zero paa xf yf Hxf Hyf) as (g1 & E1' & E1).
  destruct (gradient_comp paa xf yf _ _ (reflexivity _) (reflexivity _) Bxf Byf)
    as (g1' & _ & E1'' & _ & _ & G1 & _).
  rewrite E1' in E1''. injection E1'' as <-. rewrite E1'.
  destruct (gradient_comp pba (xf + - (1)) yf _ _ (reflexivity _) (reflexivity _) Bx1 Byf)
    as (g2 & _ & -> & _ & _ & G2 & _).
  destruct (gradient_comp pab xf (yf + - (1)) _ _ (reflexivity _) (reflexivity _) Bxf By1)
    as (g3 & _ & -> & _ & _ & G3 & _).
  destruct (gradient_comp pbb (xf + - (1)) (yf + - (1)) _ _ (reflexivity _) (reflexivity _)
              Bx1 By1)
    as (g4 & _ & -> & _ & _ & G4 & _).
  destruct (lerp_within g1 g2 (fadeQ xf) G1 G2 Ru) as [-> L1].
  destruct (lerp_within g3 g4 (fadeQ xf) G3 G4 Ru) as [-> L2].
  destruct (lerp_within _ _ (fadeQ yf) L1 L2 Rv) as [-> _].
  eexists. split; [reflexivity|].
  rewrite Hu, Hv, E1. ring.
Qed.

Lemma noise_lattice (g : t) (x y : Q) (i j : Z) :
  tableReady (permutation g) → x == inject_Z i → y == inject_Z j →
  ∃ n, noise g (Fin x) (Fin y) = Some (Fin n) ∧ n == 0.
Proof.
  intros Hready Hx Hy.
  destruct (noise_blend g (Fin x) (Fin y) Hready) as (paa & pba & pab & pbb & ->).
  destruct (blend_lattice paa pba pab pbb x y i j Hx Hy) as (n & -> & Hn).
  by exists n.
Qed.

Lemma octaveLoop_lattice (g : t) (x y rho : Q) (i j f : Z) (octaves : nat)
    (T F A M : Q) :
  tableReady (permutation g) → 0 <= rho <= 1 → 0 <= A <= 1 →
  x == inject_Z i → y == inject_Z j → F == inject_Z f → T == 0 →
  0 <= M → M + inject_Z (Z.of_nat octaves) <= 2000 →
  (∀ n, (n ≤ octaves)%nat →
        Qabs (F * inject_Z (2 ^ Z.of_nat n)) < overflowThreshold) →
  (∀ c n, c ∈ [x; y] → (n < octaves)%nat →
          Qabs (c * (F * inject_Z (2 ^ Z.of_nat n))) < overflowThreshold) →
  ∃ T1 F1 A1 M1,
    octaveLoop g (Fin x) (Fin y) (Fin rho) octaves
      {| total := Fin T; frequency := Fin F; amplitude := Fin A; maxValue := Fin M |}
    = Some {| total := Fin T1; frequency := Fin F1; amplitude := Fin A1; maxValue := Fin M1 |}
    ∧ T1 == 0
    ∧ (octaves ≠ 0%nat → M + A <= M1) ∧ M <= M1.
Proof.
  intros Hready Hrho HA Hx Hy. revert f T F A M HA.
  induction octaves as [|octaves IH]; intros f T F A M HA HF HT HM Hoct Hfreq Hcoord.
  - exists T, F, A, M. repeat split; try done; lra.
  - cbn [octaveLoop total frequency amplitude maxValue].
    assert (Hnow : ∀ c, c ∈ [x; y] → Qabs (c * F) < overflowThreshold).
    { intros c Hc. pose proof (Hcoord c 0%nat Hc ltac:(lia)) as H.
      change (inject_Z (2 ^ Z.of_nat 0)) with 1 in H. by rewrite Qmult_1_r in H. }
    assert (HF2 : Qabs (F * 2) < overflowThreshold) by (apply (Hfreq 1%nat); lia).
    rewrite (mul_Fin x F), (mul_Fin y F).
    rewrite !fin_finite by (apply Hnow; set_solver).
    destruct (noise_lattice g (x * F) (y * F) (i * f) (j * f) Hready)
      as (v & -> & Hv).
    { rewrite Hx, HF, inject_Z_mult. reflexivity. }
    { rewrite Hy, HF, inject_Z_mult. reflexivity. }
    cbn [mbind option_bind].
    rewrite (mul_Fin F 2), (fin_finite _ HF2).
    assert (HS : inject_Z (Z.of_nat (S octaves)) == inject_Z (Z.of_nat octaves) + 1).
    { by rewrite Nat2Z.inj_succ, <- Z.add_1_r, inject_Z_plus. }
    assert (Ho : 0 <= inject_Z (Z.of_nat octaves)) by (rewrite <- (Zle_Qle 0); lia).
    assert (Bv : Qabs v <= 1) by (rewrite Hv; by vm_compute).
    assert (BA : Qabs A <= 1) by (by apply bound_unit).
    assert (Br : Qabs rho <= 1) by (by apply bound_unit).
    assert (BT : Qabs T <= 2000) by (rewrite HT; by vm_compute).
    assert (BM : Qabs M <= 2000) by (apply Qabs_Qle_condition; lra).
    arith.
    destruct (IH (f * 2)%Z (T + v * A) (F * 2) (A * rho) (M + A))
      as (T1 & F1 & A1 & M1 & -> & HT1 & _ & HM1).
    { split; nra. }
    { rewrite HF, inject_Z_mult. reflexivity. }
    { rewrite HT, Hv. ring. }
    { lra. }
    { lra. }
    { intros n Hn. pose proof (Hfreq (S n) ltac:(lia)) as H.
      rewrite pow2_succ in H.
      assert (E : F * 2 * inject_Z (2 ^ Z.of_nat n)
                  == F * (2 * inject_Z (2 ^ Z.of_nat n))) by ring.
      by rewrite E. }
    { intros c n Hc Hn. pose proof (Hcoord c (S n) Hc ltac:(lia)) as H.
      rewrite pow2_succ in H.
      assert (E : c * (F * 2 * inject_Z (2 ^ Z.of_nat n))
                  == c * (F * (2 * inject_Z (2 ^ Z.of_nat n)))) by ring.
      by rewrite E. }
    exists T1, F1, A1, M1. repeat split; try done; lra.
Qed.

(** X22.  At a point with integer coordinates [noise] is zero, for every
    seed; and [fractalNoise] is one half, for at least one and at most a
    thousand octaves, a persistence between [0] and [1] and coordinates that
    stay in the range of doubles at the last frequency: [|i| 2^(octaves - 1)]
    and [|j| 2^(octaves - 1)] are below [2^1024 - 2^970].  (Results in range
    are exact in the model; at these points no step of the code rounds.) *)
Theorem noise_lattice_zero (seed rho : Q) (i j : Z) (octaves : nat) :
  (1 ≤ octaves ≤ 1000)%nat → 0 <= rho <= 1 →
  Qabs (inject_Z i) * inject_Z (2 ^ Z.of_nat (octaves - 1)) < overflowThreshold →
  Qabs (inject_Z j) * inject_Z (2 ^ Z.of_nat (octaves - 1)) < overflowThreshold →
  (∃ n, noise (new seed) (Fin (inject_Z i)) (Fin (inject_Z j)) = Some (Fin n) ∧ n == 0)
  ∧ ∃ v, fractalNoise (new seed) (Fin (inject_Z i)) (Fin (inject_Z j)) octaves (Fin rho)
         = Some (Fin v)
         ∧ v == 1 # 2.
Proof.
  intros Hoct Hrho Hi Hj.
  pose proof (generatePermutation_ready seed) as Hready.
  split.
  - by apply (noise_lattice (new seed) _ _ i j Hready).
  - unfold fractalNoise.
    destruct (octaveLoop_lattice (new seed) (inject_Z i) (inject_Z j) rho i j 1 octaves
                0 1 1 0 Hready Hrho)
      as (T1 & F1 & A1 & M1 & -> & HT & HM & _);
      [lra|reflexivity|reflexivity|reflexivity|reflexivity|lra| | | |].
    { apply (Qle_trans _ (0 + inject_Z 1000)); [|by vm_compute].
      apply Qplus_le_compat; [apply Qle_refl|]. rewrite <- Zle_Qle. lia. }
    { intros n Hn. apply frequency_small. lia. }
    { intros c n Hc Hn. apply (scaled_small c n (octaves - 1)); [lia|].
      apply elem_of_cons in Hc as [->|Hc]; [done|].
      apply list_elem_of_singleton in Hc as ->. done. }
    specialize (HM ltac:(lia)).
    cbn [mbind option_bind total maxValue].
    destruct (normalize_finite T1 M1) as [-> _]; [lra|rewrite HT; lra|].
    eexists. split; [reflexivity|].
    rewrite HT. field. lra.
Qed.

Lemma noise_period_witness :
  (1 ≤ 2)%nat ∧ 0 <= 1 # 2
  ∧ ∃ v v', fractalNoise (new 5) (Fin (13 # 10)) (Fin (27 # 10)) 2 (Fin (1 # 2)) = Some (Fin v)
            ∧ fractalNoise (new 5) (Fin ((13 # 10) + inject_Z (256 * 1)))
                (Fin ((27 # 10) + inject_Z (256 * -2))) 2 (Fin (1 # 2))
              = Some (Fin v')
            ∧ v' == v.
Proof.
  assert (H1 : (1 ≤ 2)%nat) by lia.
  assert (H2 : 0 <= 1 # 2) by (by vm_compute).
  assert (H3 : (2 ≤ 1000)%nat) by lia.
  assert (H4 : (1 # 2) <= 1) by (by vm_compute).
  assert (H5 : ∀ c, c ∈ [13 # 10; 27 # 10; (13 # 10) + inject_Z (256 * 1);
                          (27 # 10) + inject_Z (256 * -2)] →
                    Qabs c * inject_Z (2 ^ Z.of_nat (2 - 1)) < overflowThreshold).
  { intros c Hc. repeat (apply elem_of_cons in Hc as [->|Hc]; [by vm_compute|]).
    by apply elem_of_nil in Hc. }
  split; [exact H1|]. split; [exact H2|].
  exact (proj2 (noise_period 5 (13 # 10) (27 # 10) (1 # 2) 1 (-2) 2 H1 H2) H3 H4 H5).
Defined.

Lemma noise_lattice_zero_witness :
  (1 ≤ 4 ≤ 1000)%nat ∧ 0 <= 1 # 2 <= 1
  ∧ ∃ v, fractalNoise (new 5) (Fin (inject_Z 3)) (Fin (inject_Z (-2))) 4 (Fin (1 # 2))
         = Some (Fin v)
         ∧ v == 1 # 2.
Proof.
  assert (H1 : (1 ≤ 4 ≤ 1000)%nat) by lia.
  assert (H2 : 0 <= 1 # 2 <= 1) by (split; by vm_compute).
  assert (H3 : Qabs (inject_Z 3) * inject_Z (2 ^ Z.of_nat (4 - 1)) < overflowThreshold)
    by (by vm_compute).
  assert (H4 : Qabs (inject_Z (-2)) * inject_Z (2 ^ Z.of_nat (4 - 1)) < overflowThreshold)
    by (by vm_compute).
  split; [exact H1|]. split; [exact H2|].
  exact (proj2 (noise_lattice_zero 5 (1 # 2) 3 (-2) 4 H1 H2 H3 H4)).
Defined.

(** X23.  The generator [mulberry32] returns, at every call, a number of
    [[0, 1)] that is a multiple of [2^-32]; and it advances a state that is an
    integer [z] with [|z + 0x6D2B79F5| < 2^53] by [0x6D2B79F5] (other sums
    are rounded to a double). *)
Theorem mulberry32_unit_interval (a : Q) :
  0 <= (mulberry32 a).1 < 1
  ∧ (∃ k : Z, (0 ≤ k < 2 ^ 32)%Z ∧ (mulberry32 a).1 == inject_Z k / inject_Z (2 ^ 32))
  ∧ ∀ z : Z,
      a == inject_Z z → (Z.abs (z + 1831565813) < 2 ^ 53)%Z →
      (mulberry32 a).2 == inject_Z (z + 1831565813).
Proof.
  split; [apply mulberry32_range|]. split.
  - unfold mulberry32. cbv zeta. cbn [fst]. eexists. split; [|reflexivity].
    unfold wrapUint32. apply Z.mod_pos_bound. done.
  - intros z Ha Hz. unfold mulberry32. cbv zeta. cbn [snd].
    apply roundDouble_integer; [|done]. by rewrite Ha, inject_Z_plus.
Qed.

End NoiseLaws.

(** * The client's grid *)

Module Mirror.

Import JSNumber JSMath HexUtils HexIds HexGrid Client Reconciler.
Import HexRegion HexBall HexIdFacts.

(** ** One call of [updateHexState] *)

Lemma spawnVoxelModelOnHex_hexMeshes (hexId : string) (options : ModelOptions) (g : t) :
  hexMeshes (spawnVoxelModelOnHex hexId options g) = hexMeshes g
  ∧ voxelModelManager (spawnVoxelModelOnHex hexId options g) = voxelModelManager g
  ∧ ∀ other, other ≠ hexId →
      voxelModels (spawnVoxelModelOnHex hexId options g) !! other = voxelModels g !! other.
Proof.
  unfold spawnVoxelModelOnHex.
  destruct (negb (voxelModelManager g)); [done|].
  destruct (hexMeshes g !! hexId) as [hex|]; [|done].
  destruct (truthy (o_modelType options)); cbn; repeat split; try done;
    intros other Hother.
  - by rewrite lookup_insert_ne, lookup_delete_ne.
  - by rewrite lookup_delete_ne.
Qed.

(** The mesh of the cell after the colour and the height of a delta have been
    applied to [hex]. *)
Lemma updateHexState_result (hexId : string) (state : gmap string jsval) (g : t)
    (hex : Mesh) :
  hexMeshes g !! hexId = Some hex →
  ∃ shown : Mesh,
    hexMeshes (updateHexState hexId state g).1 = <[hexId := shown]> (hexMeshes g)
    ∧ voxelModelManager (updateHexState hexId state g).1 = voxelModelManager g
    ∧ (∀ other, other ≠ hexId →
         voxelModels (updateHexState hexId state g).1 !! other = voxelModels g !! other)
    ∧ height shown
      = (if defined (field state "height") then Some (field state "height")
         else height hex)
    ∧ materialColor shown
      = (if truthy (field state "color") then field state "color"
         else if defined (field state "height")
              then default (materialColor hex) (customColor hex)
              else materialColor hex)
    ∧ extruded shown = (extruded hex || defined (field state "height")).
Proof.
  intros Hhex. unfold updateHexState. rewrite Hhex. cbv zeta. cbn [o_modelType].
  set (c := field state "color"). set (h := field state "height").
  destruct (truthy c), (defined h); cbn [fst snd];
    (destruct (truthy (field state "voxelModel"));
     [destruct (truthy (member (field state "voxelModel") "type"))|]);
    cbn [fst];
    try (match goal with |- context [spawnVoxelModelOnHex hexId ?o ?g'] =>
           destruct (spawnVoxelModelOnHex_hexMeshes hexId o g') as (E1 & E2 & E3) end;
         eexists;
         (split; [rewrite E1; cbn; rewrite ?insert_insert_eq; reflexivity|]);
         (split; [rewrite E2; reflexivity|]);
         (split; [intros other Ho; rewrite (E3 other Ho); reflexivity|]);
         cbn; rewrite ?orb_true_r, ?orb_false_r; done);
    cbn; eexists; rewrite ?insert_insert_eq;
    (split; [reflexivity|]); cbn; rewrite ?orb_true_r, ?orb_false_r; done.
Qed.

Lemma updateHexState_present (hexId : string) (state : gmap string jsval) (g : t)
    (k : string) :
  hexMeshes (updateHexState hexId state g).1 !! k = None ↔ hexMeshes g !! k = None.
Proof.
  destruct (hexMeshes g !! hexId) as [hex|] eqn:Hhex.
  - destruct (updateHexState_result hexId state g hex Hhex) as (shown & -> & _).
    destruct (decide (k = hexId)) as [->|Hne].
    + rewrite lookup_insert_eq, Hhex. done.
    + by rewrite lookup_insert_ne.
  - by rewrite (updateHexState_no_mesh_grid _ _ _ Hhex).
Qed.


(** X24.  [updateHexState] on a cell of the grid, whether it returns or
    throws: the mesh of the cell takes the height of the delta when the delta
    has one, and is then the extruded column; it shows the colour of the
    delta when that is truthy, and otherwise the colour it had (the custom
    colour, when it is extruded).  No other mesh and no other cell's model is
    touched, and the voxel model manager is kept. *)
Theorem updateHexState_mesh (hexId : string) (state : gmap string jsval) (g : t)
    (hex : Mesh) :
  hexMeshes g !! hexId = Some hex →
  ∃ shown : Mesh,
    hexMeshes (updateHexState hexId state g).1 = <[hexId := shown]> (hexMeshes g)
    ∧ voxelModelManager (updateHexState hexId state g).1 = voxelModelManager g
    ∧ (∀ other, other ≠ hexId →
         voxelModels (updateHexState hexId state g).1 !! other = voxelModels g !! other)
    ∧ height shown
      = (if defined (field state "height") then Some (field state "height")
         else height hex)
    ∧ materialColor shown
      = (if truthy (field state "color") then field state "color"
         else if defined (field state "height")
              then default (materialColor hex) (customColor hex)
              else materialColor hex)
    ∧ extruded shown = (extruded hex || defined (field state "height")).
Proof. apply updateHexState_result. Qed.

Lemma updateHexState_mesh_witness :
  hexMeshes (createdGrid ["0,0"] true) !! "0,0" = Some createdMesh
  ∧ ∃ shown : Mesh,
      hexMeshes (updateHexState "0,0" {["height" := JNum (Fin 2)]}
                   (createdGrid ["0,0"] true)).1
      = <[ "0,0" := shown ]> (hexMeshes (createdGrid ["0,0"] true))
      ∧ height shown = Some (JNum (Fin 2))
      ∧ extruded shown = true.
Proof.
  assert (H : hexMeshes (createdGrid ["0,0"] true) !! "0,0" = Some createdMesh)
    by (vm_compute; reflexivity).
  split; [exact H|].
  destruct (updateHexState_mesh "0,0" {["height" := JNum (Fin 2)]}
              (createdGrid ["0,0"] true) createdMesh H)
    as (shown & E & _ & _ & Hh & _ & He).
  exists shown. split; [exact E|]. split; [exact Hh|exact He].
Defined.

(** ** The snapshot of a room *)

Lemma applyEntries_app (l1 l2 : list (string * gmap string jsval)) (g : t) :
  applyEntries (l1 ++ l2) g
  = match (applyEntries l1 g).2 with
    | Returned => applyEntries l2 (applyEntries l1 g).1
    | Thrown e => applyEntries l1 g
    end.
Proof.
  revert g. induction l1 as [|[hexId hexState] l1 IH]; intros g; [done|].
  cbn [app applyEntries].
  destruct (updateHexState hexId hexState g).2 eqn:E; [apply IH|].
  cbn [snd]. done.
Qed.

Lemma applyEntries_returned (l : list (string * gmap string jsval)) (g : t) :
  (applyEntries l g).2 = Returned → applyEntries l g = ((applyEntries l g).1, Returned).
Proof. intros H. rewrite <- H. by destruct (applyEntries l g). Qed.

(** The batches apply the entries in their order: they are one loop over the
    whole snapshot, left at the first exception. *)
Lemma processBatch_applyEntries (fuel : nat) (state : list (string * gmap string jsval))
    (startIndex : nat) (g : t) :
  (length state - startIndex ≤ fuel * batchSize)%nat →
  processBatch fuel state startIndex g = applyEntries (drop startIndex state) g.
Proof.
  revert startIndex g. induction fuel as [|fuel IH]; intros startIndex g Hfuel.
  - rewrite drop_ge by lia. done.
  - cbn [processBatch]. unfold batchSize in *.
    set (endIndex := Nat.min (startIndex + 10) (length state)).
    rewrite <- (take_drop (endIndex - startIndex) (drop startIndex state)) at 2.
    rewrite applyEntries_app.
    set (result := applyEntries (take (endIndex - startIndex) (drop startIndex state)) g).
    destruct (result.2) eqn:E; [|done].
    rewrite drop_drop.
    destruct (Nat.ltb_spec endIndex (length state)) as [Hlt|Hge].
    + replace (startIndex + (endIndex - startIndex))%nat with endIndex by lia.
      apply IH. lia.
    + rewrite drop_ge by lia. cbn [applyEntries]. by apply applyEntries_returned.
Qed.

Lemma applyRoomState_applyEntries (state : list (string * gmap string jsval)) (g : t) :
  applyRoomState state g = applyEntries state g.
Proof.
  unfold applyRoomState. destruct state as [|e state]; [done|].
  rewrite processBatch_applyEntries by (unfold batchSize; lia). done.
Qed.

Lemma returns_outcome (g : t) (entry : string * gmap string jsval) :
  returns g entry → (updateHexState entry.1 entry.2 g).2 = Returned.
Proof.
  intros [Hkey [Hnone|Hvm]].
  - by rewrite (updateHexState_no_mesh _ _ _ Hnone Hkey).
  - destruct (hexMeshes g !! entry.1) as [hex|] eqn:Hhex.
    + rewrite updateHexState_outcome by (by eexists). by rewrite Hvm.
    + by rewrite (updateHexState_no_mesh _ _ _ Hhex Hkey).
Qed.

Lemma returns_after (hexId : string) (state : gmap string jsval) (g : t)
    (entry : string * gmap string jsval) :
  returns g entry → returns (updateHexState hexId state g).1 entry.
Proof.
  intros [Hkey [Hnone|Hvm]]; (split; [done|]); [left|by right].
  by apply updateHexState_present.
Qed.

Lemma applyEntries_returns (l : list (string * gmap string jsval)) (g : t) :
  Forall (returns g) l →
  applyEntries l g = (foldl (λ g entry, (updateHexState entry.1 entry.2 g).1) g l, Returned).
Proof.
  revert g. induction l as [|[hexId hexState] l IH]; intros g Hl; [done|].
  apply Forall_cons in Hl as [He Hl].
  pose proof (returns_outcome g _ He) as Ho. cbn [fst snd] in Ho.
  cbn [applyEntries foldl fst snd]. rewrite Ho.
  apply IH. eapply Forall_impl; [exact Hl|]. intros entry. apply returns_after.
Qed.

Lemma applyEntries_present (l : list (string * gmap string jsval)) (g : t) (k : string) :
  hexMeshes (applyEntries l g).1 !! k = None ↔ hexMeshes g !! k = None.
Proof.
  revert g. induction l as [|[hexId hexState] l IH]; intros g; [done|].
  cbn [applyEntries].
  destruct (updateHexState hexId hexState g).2.
  - rewrite IH. apply updateHexState_present.
  - apply updateHexState_present.
Qed.

Lemma updateHexState_other (hexId : string) (state : gmap string jsval) (g : t)
    (k : string) :
  k ≠ hexId →
  hexMeshes (updateHexState hexId state g).1 !! k = hexMeshes g !! k.
Proof.
  intros Hne. destruct (hexMeshes g !! hexId) as [hex|] eqn:Hhex.
  - destruct (updateHexState_result hexId state g hex Hhex) as (shown & -> & _).
    by rewrite lookup_insert_ne.
  - by rewrite (updateHexState_no_mesh_grid _ _ _ Hhex).
Qed.

Lemma applyEntries_other (l : list (string * gmap string jsval)) (g : t) (k : string) :
  k ∉ l.*1 → hexMeshes (applyEntries l g).1 !! k = hexMeshes g !! k.
Proof.
  revert g. induction l as [|[hexId hexState] l IH]; intros g Hk; [done|].
  cbn [fmap list_fmap fst] in Hk. apply not_elem_of_cons in Hk as [Hne Hk].
  cbn [applyEntries].
  destruct (updateHexState hexId hexState g).2.
  - rewrite (IH _ Hk). by apply updateHexState_other.
  - by apply updateHexState_other.
Qed.

(** X25.  The [roomJoined] callback applies a snapshot in batches of ten:
    the entries are applied in their order, and the first entry whose call of
    [updateHexState] throws ends the whole run.  After entries that return
    (their ids name no property of [Object.prototype], and each is for a cell
    that is not on the grid or carries a [voxelModel]), an entry [(hexId, st)]
    for a cell of the grid without a [voxelModel] throws: its colour and height
    are applied, nothing is applied of the entries after it, and a cell that
    no entry up to it names keeps its mesh. *)
Theorem applyRoomState_stops (pre post : list (string * gmap string jsval))
    (hexId : string) (st : gmap string jsval) (g : t) :
  Forall (returns g) pre →
  is_Some (hexMeshes g !! hexId) →
  truthy (field st "voxelModel") = false →
  applyRoomState (pre ++ (hexId, st) :: post) g
  = ((updateHexState hexId st
        (foldl (λ g entry, (updateHexState entry.1 entry.2 g).1) g pre)).1,
     Thrown (ReferenceError "heightChanged"))
  ∧ ∀ k, k ∉ pre.*1 → k ≠ hexId →
      hexMeshes (applyRoomState (pre ++ (hexId, st) :: post) g).1 !! k
      = hexMeshes g !! k.
Proof.
  intros Hpre Hcell Hvm.
  assert (applyRoomState (pre ++ (hexId, st) :: post) g
          = ((updateHexState hexId st (applyEntries pre g).1).1,
             Thrown (ReferenceError "heightChanged"))) as E.
  { rewrite applyRoomState_applyEntries, applyEntries_app.
    rewrite (applyEntries_returns pre g Hpre). cbn [fst snd applyEntries].
    rewrite updateHexState_outcome, Hvm; [done|].
    rewrite <- not_eq_None_Some.
    pose proof (applyEntries_present pre g hexId) as Hp.
    rewrite (applyEntries_returns pre g Hpre) in Hp. cbn [fst] in Hp.
    rewrite Hp. by rewrite not_eq_None_Some. }
  split.
  - by rewrite E, (applyEntries_returns pre g Hpre).
  - intros k Hk1 Hk2. rewrite E. cbn [fst].
    rewrite updateHexState_other by done. by apply applyEntries_other.
Qed.

(** X26.  When the id of every entry of the snapshot names no property of
    [Object.prototype], and every entry is for a cell that is not on the grid
    or carries a [voxelModel], the batches apply all of the entries, in their
    order, and no call throws. *)
Theorem applyRoomState_all (state : list (string * gmap string jsval)) (g : t) :
  Forall (returns g) state →
  applyRoomState state g
  = (foldl (λ g entry, (updateHexState entry.1 entry.2 g).1) g state, Returned).
Proof. intros H. rewrite applyRoomState_applyEntries. by apply applyEntries_returns. Qed.

Lemma applyRoomState_stops_witness :
  Forall (returns (createdGrid ["0,0"; "1,0"] true)) [("5,5", {["color" := JStr "#ff0000"]})]
  ∧ is_Some (hexMeshes (createdGrid ["0,0"; "1,0"] true) !! "0,0")
  ∧ (applyRoomState
       [("5,5", {["color" := JStr "#ff0000"]}); ("0,0", {["height" := JNum (Fin 2)]});
        ("1,0", {["height" := JNum (Fin 3)]})]
       (createdGrid ["0,0"; "1,0"] true)).2
    = Thrown (ReferenceError "heightChanged")
  ∧ hexMeshes
      (applyRoomState
         [("5,5", {["color" := JStr "#ff0000"]}); ("0,0", {["height" := JNum (Fin 2)]});
          ("1,0", {["height" := JNum (Fin 3)]})]
         (createdGrid ["0,0"; "1,0"] true)).1 !! "1,0"
    = hexMeshes (createdGrid ["0,0"; "1,0"] true) !! "1,0".
Proof.
  assert (H1 : Forall (returns (createdGrid ["0,0"; "1,0"] true))
                 [("5,5", {["color" := JStr "#ff0000"]})]).
  { constructor; [|constructor]. split; [vm_compute; reflexivity|].
    left. vm_compute. reflexivity. }
  assert (H2 : is_Some (hexMeshes (createdGrid ["0,0"; "1,0"] true) !! "0,0")).
  { eexists. vm_compute. reflexivity. }
  assert (H3 : truthy (field {["height" := JNum (Fin 2)]} "voxelModel") = false)
    by (vm_compute; reflexivity).
  split; [exact H1|]. split; [exact H2|].
  destruct (applyRoomState_stops [("5,5", {["color" := JStr "#ff0000"]})]
              [("1,0", {["height" := JNum (Fin 3)]})] "0,0" {["height" := JNum (Fin 2)]}
              (createdGrid ["0,0"; "1,0"] true) H1 H2 H3) as [E Hkeep].
  split.
  - exact (f_equal snd E).
  - apply Hkeep; [|discriminate].
    intros Hin. apply list_elem_of_singleton in Hin. discriminate.
Defined.

Lemma applyRoomState_all_witness :
  Forall (returns (createdGrid ["0,0"] true))
    [("0,0", {["voxelModel" := JObj [("type", JStr "tree")]]})]
  ∧ (applyRoomState [("0,0", {["voxelModel" := JObj [("type", JStr "tree")]]})]
       (createdGrid ["0,0"] true)).2
    = Returned.
Proof.
  assert (H : Forall (returns (createdGrid ["0,0"] true))
                [("0,0", {["voxelModel" := JObj [("type", JStr "tree")]]})]).
  { constructor; [|constructor]. split; [vm_compute; reflexivity|].
    right. vm_compute. reflexivity. }
  split; [exact H|].
  exact (f_equal snd (applyRoomState_all _ _ H)).
Defined.

(** ** The new grid *)

Local Open Scope Z_scope.







End Mirror.

(** * The wheel *)

Module Wheel.

Import JSNumber JSMath HexGrid Client Doubles HexRounding.
Local Open Scope Q_scope.

Lemma handleScroll_finite (hexId code : string) (h : Q) (connected : bool) (deltaY : num) :
  code ≠ "" → Qabs h <= inject_Z (2 ^ 1021) →
  handleScroll (Some {| s_hexId := hexId; s_height := Some (Fin h) |}) (Some code)
    (Some connected) deltaY
  = let cur := if Qeq_bool h 0 then 1 else h in
    let d := if gtb deltaY (Fin 0) then - (1) else 1 in
    (true,
     if negb (Qeq_bool (scrolled cur d) cur)
     then sendHexAction connected code hexId {["height" := JNum (Fin (scrolled cur d))]}
     else []).
Proof.
  intros Hcode Bh. unfold handleScroll. rewrite bool_decide_false by done.
  cbn [s_height s_hexId truthy]. cbv zeta. unfold scrolled.
  destruct (Qeq_bool h 0), (gtb deltaY (Fin 0)); cbn [negb]; arith; cbn [max leb];
    destruct (Qle_bool _ _); arith; cbn [round]; arith; reflexivity.
Qed.

Lemma scrolled_quarters (cur d : Q) :
  ∃ k : Z, (1 ≤ k)%Z ∧ scrolled cur d == inject_Z k / 4.
Proof.
  unfold scrolled. cbv zeta. eexists. split; [|reflexivity].
  assert (3 # 2 <= (if Qle_bool (1 # 4) (cur + (1 # 4) * d)
                    then cur + (1 # 4) * d else 1 # 4) * 4 + (1 # 2)) as H.
  { destruct (Qle_bool _ _) eqn:E; [|lra]. apply Qle_bool_iff in E. lra. }
  apply (Qfloor_resp_le) in H.
  assert (Qfloor (3 # 2) = 1%Z) as E by reflexivity. lia.
Qed.


Lemma handleScroll_default (hexId code : string) (height : option num)
    (socketManager : option bool) (deltaY : num) :
  height = None ∨ height = Some NaN ∨ height = Some (Fin 0) →
  handleScroll (Some {| s_hexId := hexId; s_height := height |}) (Some code)
    socketManager deltaY
  = handleScroll (Some {| s_hexId := hexId; s_height := Some (Fin 1) |}) (Some code)
      socketManager deltaY.
Proof. intros [->|[->| ->]]; reflexivity. Qed.

Lemma handleScroll_infinite (hexId code : string) (s connected : bool) (deltaY : num) :
  code ≠ "" →
  handleScroll (Some {| s_hexId := hexId; s_height := Some (Inf s) |}) (Some code)
    (Some connected) deltaY
  = (true,
     if s
     then sendHexAction connected code hexId
            {["height" := JNum (Fin (inject_Z (Qfloor ((1 # 4) * 4 + (1 # 2))) / 4))]}
     else []).
Proof.
  intros Hcode. unfold handleScroll. rewrite bool_decide_false by done.
  cbn [s_height s_hexId truthy]. cbv zeta.
  destruct s, (gtb deltaY (Fin 0)); arith; cbn [add max leb]; arith; cbn [round];
    arith; reflexivity.
Qed.

Lemma sendHexAction_messages (connected : bool) (code hexId : string)
    (action : gmap string jsval) (m : message) :
  m ∈ sendHexAction connected code hexId action →
  sendHexAction connected code hexId action = [m]
  ∧ connected = true ∧ m_roomCode m = code ∧ m_hexId m = hexId ∧ m_action m = action.
Proof.
  unfold sendHexAction. destruct connected.
  - intros ->%list_elem_of_singleton. done.
  - intros []%elem_of_nil.
Qed.

(** X27.  Whatever the selection, the room code, the socket and the wheel
    event are, as long as a finite height of the selected cell is at most
    [2^1021] in magnitude (four times the new height is in the range of
    doubles), [handleScroll] emits at most one message; a message it emits is
    for the selected cell and the current room, the socket is connected, and
    the height it carries is a multiple of [0.25] and at least [0.25]. *)
Theorem handleScroll_messages (selectedHex : option selection)
    (currentRoomCode : option string) (socketManager : option bool)
    (deltaY : num) (m : message) :
  (∀ hex h, selectedHex = Some hex → s_height hex = Some (Fin h) →
            Qabs h <= inject_Z (2 ^ 1021)) →
  m ∈ (handleScroll selectedHex currentRoomCode socketManager deltaY).2 →
  (handleScroll selectedHex currentRoomCode socketManager deltaY).2 = [m]
  ∧ socketManager = Some true
  ∧ currentRoomCode = Some (m_roomCode m) ∧ m_roomCode m ≠ ""
  ∧ (∃ hex, selectedHex = Some hex ∧ m_hexId m = s_hexId hex)
  ∧ ∃ (k : Z) (n : Q),
      (1 ≤ k)%Z ∧ m_action m = {["height" := JNum (Fin n)]} ∧ n == inject_Z k / 4.
Proof.
  intros Hheight.
  destruct selectedHex as [[hexId height]|]; [|by intros []%elem_of_nil].
  destruct currentRoomCode as [code|]; [|by intros []%elem_of_nil].
  destruct socketManager as [connected|]; [|by intros []%elem_of_nil].
  destruct (decide (code = "")) as [->|Hcode]; [by intros []%elem_of_nil|].
  assert (∀ h,
    Qabs h <= inject_Z (2 ^ 1021) →
    m ∈ (handleScroll (Some {| s_hexId := hexId; s_height := Some (Fin h) |})
           (Some code) (Some connected) deltaY).2 →
    (handleScroll (Some {| s_hexId := hexId; s_height := Some (Fin h) |})
       (Some code) (Some connected) deltaY).2 = [m]
    ∧ Some connected = Some true
    ∧ Some code = Some (m_roomCode m) ∧ m_roomCode m ≠ ""
    ∧ (∃ hex, Some {| s_hexId := hexId; s_height := height |} = Some hex
              ∧ m_hexId m = s_hexId hex)
    ∧ ∃ (k : Z) (n : Q),
        (1 ≤ k)%Z ∧ m_action m = {["height" := JNum (Fin n)]} ∧ n == inject_Z k / 4)
    as Hfinite.
  { intros h Bh. rewrite (handleScroll_finite hexId code h connected deltaY Hcode Bh).
    cbv zeta. cbn [snd].
    set (cur := if Qeq_bool h 0 then 1 else h).
    set (d := if gtb deltaY (Fin 0) then - (1) else 1).
    destruct (negb _); [|by intros []%elem_of_nil].
    intros (E & -> & <- & <- & Ha)%sendHexAction_messages.
    repeat split; try done.
    - by eexists.
    - destruct (scrolled_quarters cur d) as (k & Hk & Hn). by exists k, (scrolled cur d). }
  assert (B1 : Qabs 1 <= inject_Z (2 ^ 1021)) by (by vm_compute).
  destruct height as [[h|s|]|].
  - apply Hfinite. by apply (Hheight {| s_hexId := hexId; s_height := Some (Fin h) |}).
  - rewrite (handleScroll_infinite hexId code s connected deltaY Hcode). cbn [snd].
    destruct s; [|by intros []%elem_of_nil].
    intros (E & -> & <- & <- & Ha)%sendHexAction_messages.
    repeat split; try done.
    + by eexists.
    + exists 1%Z. eexists. split; [done|]. split; [exact Ha|]. reflexivity.
  - rewrite handleScroll_default by auto. by apply Hfinite.
  - rewrite handleScroll_default by auto. by apply Hfinite.
Qed.

(** X28.  One notch of the wheel on a cell whose height is [k / 4],
    [1 <= k < 2^53] (so that the next quarter is a double as well): away from
    the user ([deltaY <= 0]) the message carries [(k + 1) / 4]; towards the
    user it carries [(k - 1) / 4], and at the floor [1 / 4] nothing is sent.
    The call returns [true] in each case. *)
Theorem handleScroll_step (hexId code : string) (h : Q) (k : Z) (deltaY : num) :
  code ≠ "" → (1 ≤ k < 2 ^ 53)%Z → h == inject_Z k / 4 →
  ∃ n : Q,
    handleScroll (Some {| s_hexId := hexId; s_height := Some (Fin h) |}) (Some code)
      (Some true) deltaY
    = (true,
       if gtb deltaY (Fin 0) && (k =? 1)%Z then []
       else [{| m_roomCode := code; m_hexId := hexId;
                m_action := {["height" := JNum (Fin n)]} |}])
    ∧ n == inject_Z (if gtb deltaY (Fin 0) then k - 1 else k + 1) / 4.
Proof.
  intros Hcode [Hk Hk53] Hh.
  assert (0 < h) as Hpos.
  { rewrite Hh. apply Qlt_shift_div_l; [lra|]. rewrite <- (Zlt_Qlt 0). lia. }
  assert (Bh : Qabs h <= inject_Z (2 ^ 1021)).
  { apply (Qle_trans _ (inject_Z (2 ^ 53))); [|by vm_compute].
    assert (Hk' : inject_Z k <= inject_Z (2 ^ 53)) by (rewrite <- Zle_Qle; lia).
    assert (h * 4 == inject_Z k) as Hh4 by (rewrite Hh; field).
    apply bound_range. split; lra. }
  rewrite (handleScroll_finite hexId code h true deltaY Hcode Bh). cbv zeta.
  assert (Qeq_bool h 0 = false) as ->.
  { destruct (Qeq_bool h 0) eqn:E; [|done]. apply Qeq_bool_iff in E. lra. }
  assert (h * 4 == inject_Z k) as Hh4 by (rewrite Hh; field).
  assert (1 <= inject_Z k) as Hk1 by (rewrite <- (Zle_Qle 1); lia).
  destruct (gtb deltaY (Fin 0)); cbn [andb].
  - (* towards the user *)
    destruct (Z.eqb_spec k 1) as [->|Hne].
    + exists (inject_Z (1 - 1) / 4).
      assert (scrolled h (- (1)) == h) as E.
      { unfold scrolled. cbv zeta.
        destruct (Qle_bool _ _) eqn:E.
        - apply Qle_bool_iff in E. change (inject_Z 1) with 1 in *.
          assert (h == 1 # 4) as Hq by lra.
          rewrite (Qfloor_unique _ 1); [lra|]. change (inject_Z 1) with 1. lra.
        - rewrite Hh. reflexivity. }
      split; [|reflexivity].
      apply Qeq_bool_iff in E. by rewrite E.
    + exists (scrolled h (- (1))).
      assert (scrolled h (- (1)) == inject_Z (k - 1) / 4) as E.
      { unfold scrolled. cbv zeta.
        assert (2 <= inject_Z k) as Hk2 by (rewrite <- (Zle_Qle 2); lia).
        assert (Qle_bool (1 # 4) (h + (1 # 4) * - (1)) = true) as ->.
        { apply Qle_bool_iff. lra. }
        rewrite (Qfloor_unique _ (k - 1)); [reflexivity|].
        unfold Z.sub. rewrite inject_Z_plus, inject_Z_opp. change (inject_Z 1) with 1. lra. }
      split; [|exact E].
      assert (Qeq_bool (scrolled h (- (1))) h = false) as ->; [|done].
      destruct (Qeq_bool _ _) eqn:E'; [|done]. apply Qeq_bool_iff in E'.
      rewrite E in E'. unfold Z.sub in E'. rewrite inject_Z_plus, inject_Z_opp in E'.
      change (inject_Z 1) with 1 in E'.
      assert ((inject_Z k + - (1)) / 4 * 4 == h * 4) as E'' by (by rewrite E').
      field_simplify in E''. lra.
  - (* away from the user *)
    exists (scrolled h 1).
    assert (scrolled h 1 == inject_Z (k + 1) / 4) as E.
    { unfold scrolled. cbv zeta.
      assert (Qle_bool (1 # 4) (h + (1 # 4) * 1) = true) as ->.
      { apply Qle_bool_iff. lra. }
      rewrite (Qfloor_unique _ (k + 1)); [reflexivity|].
      rewrite inject_Z_plus. change (inject_Z 1) with 1. lra. }
    split; [|exact E].
    assert (Qeq_bool (scrolled h 1) h = false) as ->; [|done].
    destruct (Qeq_bool _ _) eqn:E'; [|done]. apply Qeq_bool_iff in E'.
    rewrite E in E'. rewrite inject_Z_plus in E'. change (inject_Z 1) with 1 in E'.
    assert ((inject_Z k + 1) / 4 * 4 == h * 4) as E'' by (by rewrite E').
    field_simplify in E''. lra.
Qed.

(** X29.  On a cell as [createGrid] makes it ([userData.height = 0.01]; any
    height above [0] and at most [0.1]) a notch of the wheel in either
    direction sends the height [0.25]. *)
Theorem handleScroll_fresh_cell (hexId code : string) (h : Q) (deltaY : num) :
  code ≠ "" → 0 < h <= 1 # 10 →
  ∃ n : Q,
    handleScroll (Some {| s_hexId := hexId; s_height := Some (Fin h) |}) (Some code)
      (Some true) deltaY
    = (true, [{| m_roomCode := code; m_hexId := hexId;
                 m_action := {["height" := JNum (Fin n)]} |}])
    ∧ n == 1 # 4.
Proof.
  intros Hcode [Hlo Hhi].
  assert (Bh : Qabs h <= inject_Z (2 ^ 1021)).
  { apply (Qle_trans _ 1); [|by vm_compute]. apply bound_unit. lra. }
  rewrite (handleScroll_finite hexId code h true deltaY Hcode Bh). cbv zeta.
  assert (Qeq_bool h 0 = false) as ->.
  { destruct (Qeq_bool h 0) eqn:E; [|done]. apply Qeq_bool_iff in E. lra. }
  set (d := if gtb deltaY (Fin 0) then - (1) else 1).
  assert (scrolled h d == 1 # 4) as E.
  { unfold scrolled. cbv zeta.
    assert (d == - (1) ∨ d == 1) as Hd by (unfold d; destruct (gtb _ _); [by left|by right]).
    rewrite (Qfloor_unique _ 1); [reflexivity|]. change (inject_Z 1) with 1.
    destruct (Qle_bool _ _) eqn:E'; [|lra].
    apply Qle_bool_iff in E'. destruct Hd as [Hd|Hd]; rewrite Hd in *; lra. }
  exists (scrolled h d). split; [|exact E].
  assert (Qeq_bool (scrolled h d) h = false) as ->; [|done].
  destruct (Qeq_bool _ _) eqn:E'; [|done]. apply Qeq_bool_iff in E'. lra.
Qed.

Lemma handleScroll_messages_witness :
  {| m_roomCode := "I"; m_hexId := "0,0";
     m_action := {["height" := JNum (Fin (scrolled 1 1))]} |}
  ∈ (handleScroll (Some {| s_hexId := "0,0"; s_height := Some (Fin 1) |}) (Some "I")
       (Some true) (Fin (- (100)))).2
  ∧ (handleScroll (Some {| s_hexId := "0,0"; s_height := Some (Fin 1) |}) (Some "I")
       (Some true) (Fin (- (100)))).2
    = [{| m_roomCode := "I"; m_hexId := "0,0";
          m_action := {["height" := JNum (Fin (scrolled 1 1))]} |}].
Proof.
  assert (B : ∀ hex h,
                Some {| s_hexId := "0,0"; s_height := Some (Fin 1) |} = Some hex →
                s_height hex = Some (Fin h) → Qabs h <= inject_Z (2 ^ 1021)).
  { intros hex h [= <-] [= <-]. by vm_compute. }
  assert (H : {| m_roomCode := "I"; m_hexId := "0,0";
                 m_action := {["height" := JNum (Fin (scrolled 1 1))]} |}
              ∈ (handleScroll (Some {| s_hexId := "0,0"; s_height := Some (Fin 1) |})
                   (Some "I") (Some true) (Fin (- (100)))).2).
  { rewrite handleScroll_finite by (done || by vm_compute). left. }
  split; [exact H|].
  exact (proj1 (handleScroll_messages _ _ _ _ _ B H)).
Defined.

Lemma handleScroll_step_witness :
  "I" ≠ "" ∧ (1 ≤ 4 < 2 ^ 53)%Z ∧ 1 == inject_Z 4 / 4
  ∧ ∃ n : Q,
      handleScroll (Some {| s_hexId := "0,0"; s_height := Some (Fin 1) |}) (Some "I")
        (Some true) (Fin 100)
      = (true,
         if gtb (Fin 100) (Fin 0) && (4 =? 1)%Z then []
         else [{| m_roomCode := "I"; m_hexId := "0,0";
                  m_action := {["height" := JNum (Fin n)]} |}])
      ∧ n == inject_Z (if gtb (Fin 100) (Fin 0) then 4 - 1 else 4 + 1) / 4.
Proof.
  assert (H1 : "I" ≠ "") by discriminate.
  assert (H2 : (1 ≤ 4 < 2 ^ 53)%Z) by (split; by vm_compute).
  assert (H3 : 1 == inject_Z 4 / 4) by reflexivity.
  split; [exact H1|]. split; [exact H2|]. split; [exact H3|].
  exact (handleScroll_step "0,0" "I" 1 4 (Fin 100) H1 H2 H3).
Defined.

Lemma handleScroll_fresh_cell_witness :
  "I" ≠ "" ∧ 0 < 1 # 100 <= 1 # 10
  ∧ ∃ n : Q,
      handleScroll (Some {| s_hexId := "0,0"; s_height := Some (Fin (1 # 100)) |})
        (Some "I") (Some true) (Fin 100)
      = (true, [{| m_roomCode := "I"; m_hexId := "0,0";
                   m_action := {["height" := JNum (Fin n)]} |}])
      ∧ n == 1 # 4.
Proof.
  assert (H1 : "I" ≠ "") by discriminate.
  assert (H2 : 0 < 1 # 100 <= 1 # 10) by (split; by vm_compute).
  split; [exact H1|]. split; [exact H2|].
  exact (handleScroll_fresh_cell "0,0" "I" (1 # 100) (Fin 100) H1 H2).
Defined.

End Wheel.
